(** * d2l-pytorch-colab: the from-scratch helpers of the notebooks

    The notebooks define a handful of functions of their own on top of the
    tensor framework: [corr2d], [Conv2D], [corr2d_multi_in],
    [corr2d_multi_in_out], [corr2d_multi_in_out_1x1]
    (chapter_convolutional-neural-networks), [pool2d] (pooling notebook),
    [trans_conv] and [kernel2matrix]
    (chapter_computer-vision/transposed-conv), [read_time_machine],
    [tokenize], [count_corpus], [Vocab] and [load_corpus_time_machine]
    (chapter_recurrent-neural-networks/text-preprocessing),
    [MySequential] (chapter_deep-learning-computation/model-construction),
    [TokenEmbedding]
    (chapter_natural-language-processing-pretraining/similarity-analogy),
    and the autograd demonstration of chapter_preliminaries/autograd.

    Conventions of the embedding.
    - A Python call either returns a value or raises; [pyresult] keeps the
      two apart and the loops thread it.
    - A tensor is its shape together with an entry function; entries
      outside the shape are never read.  The entries are float32 numbers,
      the framework's default type and the one the notebooks use: signed
      zeros, infinities, NaN and the finite binary32 values, with the
      IEEE 754 operations rounding to nearest, ties to even
      ([Stdlib.Floats.SpecFloat] at precision 24).
    - Elementwise operations are those IEEE operations.  The order in which
      the framework's reductions [sum] and [matmul] add is the library's
      and is not fixed here: [Framework] takes them as they come, [sum]
      being some float32 sum of the entries.  [plain] is the instance that
      adds in memory order, which the examples run.
    - Shape arithmetic such as [X.shape[0] - h + 1] is done in [Z], as
      Python does it, and [torch.zeros] refuses a negative size.
    - The gradient demonstration of the autograd notebook is stated over
      exact rationals ([Qc]); its numbers are small integers. *)

From Stdlib Require Import ZArith QArith Qcanon Qcabs Ascii String Sorted SpecFloat.
From stdpp Require Import base numbers list gmap strings pretty.

Set Warnings "-register-all".

Local Open Scope nat_scope.

(** ** Outcomes of Python calls *)

Inductive exn : Type :=
  | RuntimeError    (* the framework's shape and size errors *)
  | IndexError
  | TypeError.

Inductive pyresult (A : Type) : Type :=
  | Ret (a : A)
  | Raise (e : exn).
Arguments Ret {A} a.
Arguments Raise {A} e.

#[global] Instance pyresult_ret : MRet pyresult := fun A a => Ret a.
#[global] Instance pyresult_bind : MBind pyresult := fun A B k r =>
  match r with
  | Ret a => k a
  | Raise e => Raise e
  end.

(** [for i in range(n): s = body(i, s)] *)
Fixpoint for_each {S : Type} (l : list nat) (body : nat -> S -> pyresult S)
    (s : S) : pyresult S :=
  match l with
  | [] => Ret s
  | i :: l' => s' ← body i s; for_each l' body s'
  end.

Definition for_range {S : Type} (n : nat) (body : nat -> S -> pyresult S)
    (s : S) : pyresult S :=
  for_each (seq 0 n) body s.

(** ** float32 numbers *)

Definition float32 : Type := spec_float.
Definition prec32 : Z := 24.
Definition emax32 : Z := 128.

(** The values of the type among the representations: a finite number has
    its canonical mantissa and an exponent in range. *)
Definition is_float32 (x : float32) : Prop := valid_binary prec32 emax32 x = true.

Definition fadd : float32 -> float32 -> float32 := SFadd prec32 emax32.
Definition fsub : float32 -> float32 -> float32 := SFsub prec32 emax32.
Definition fmul : float32 -> float32 -> float32 := SFmul prec32 emax32.
Definition fdiv : float32 -> float32 -> float32 := SFdiv prec32 emax32.
Definition flt : float32 -> float32 -> bool := SFltb.
Definition fle : float32 -> float32 -> bool := SFleb.

(** [0.0], NaN, and the float32 nearest to an integer. *)
Definition F0 : float32 := S754_zero false.
Definition fnan : float32 := S754_nan.
Definition F32 (z : Z) : float32 := binary_normalize prec32 emax32 z 0 false.

Definition is_nan (x : float32) : bool :=
  match x with S754_nan => true | _ => false end.

Definition is_zero (x : float32) : bool :=
  match x with S754_zero _ => true | _ => false end.

Definition is_finite (x : float32) : bool :=
  match x with S754_zero _ | S754_finite _ _ _ => true | _ => false end.

(** Two results that compare equal and print alike up to the sign of
    zero: the same representation, or two zeros. *)
Definition same_number (x y : float32) : Prop :=
  x = y \/ (is_zero x = true /\ is_zero y = true).


(** The larger of two numbers as the framework's [max] has it: NaN as soon
    as one of them is NaN. *)
Definition fmax (x y : float32) : float32 :=
  if is_nan x || is_nan y then fnan else if flt x y then y else x.



(** A float32 sum of the entries of a list: the entries, and zeros, added
    in some order and some bracketing. *)
Inductive sum_of : list float32 -> float32 -> Prop :=
  | sum_of_nil : sum_of [] F0
  | sum_of_one (x : float32) : sum_of [x] x
  | sum_of_app (l1 l2 : list float32) (r1 r2 : float32) :
      sum_of l1 r1 -> sum_of l2 r2 -> sum_of (l1 ++ l2) (fadd r1 r2)
  | sum_of_perm (l l' : list float32) (r : float32) :
      l ≡ₚ l' -> sum_of l r -> sum_of l' r.

(** The framework's reductions.  [tensor_sum] is [.sum()] on the entries of
    a tensor in memory order: whatever order the library adds in, the result
    is a float32 sum of the entries.  [matmul_dot] is the inner product of a
    row and a column inside [torch.matmul]: the order of its additions and
    whether products are fused into them are the BLAS library's, and nothing
    is assumed of it. *)
Class Framework : Type := {
  tensor_sum : list float32 -> float32;
  tensor_sum_spec : forall l, sum_of l (tensor_sum l);
  matmul_dot : list float32 -> list float32 -> float32
}.

(** The sum that adds the entries one after the other, starting from 0.0. *)
Definition seq_sum (l : list float32) : float32 := foldl fadd F0 l.

Definition seq_sum_spec (l : list float32) : sum_of l (seq_sum l).
Proof.
  unfold seq_sum. change l with ([] ++ l) at 1.
  generalize (sum_of_nil). generalize F0 at 1 2. generalize (@nil float32).
  induction l as [|x l IH]; intros l0 acc H; simpl.
  - by rewrite app_nil_r.
  - rewrite (cons_middle x l0 l), app_assoc. apply IH.
    apply sum_of_app; [done | constructor].
Qed.

(** The framework the examples run: reductions in memory order, products
    rounded before they are added. *)
Definition plain : Framework := {|
  tensor_sum := seq_sum;
  tensor_sum_spec := seq_sum_spec;
  matmul_dot := fun a b => seq_sum (zip_with fmul a b)
|}.

(** A fused multiply-add, [x * y + z] rounded once, on finite numbers. *)
Definition ffma (x y z : float32) : float32 :=
  match x, y, z with
  | S754_finite sx mx ex, S754_finite sy my ey, S754_finite sz mz ez =>
      let e := Z.min (ex + ey) ez in
      binary_normalize prec32 emax32
        (cond_Zopp (xorb sx sy) (Z.pos (mx * my)) * 2 ^ (ex + ey - e)
         + cond_Zopp sz (Z.pos mz) * 2 ^ (ez - e)) e false
  | _, _, _ => fadd (fmul x y) z
  end.

(** A framework whose matrix product fuses each product into the running
    sum, as BLAS kernels on current processors do. *)
Definition fused : Framework := {|
  tensor_sum := seq_sum;
  tensor_sum_spec := seq_sum_spec;
  matmul_dot := fun a b => foldl (fun acc xy => ffma xy.1 xy.2 acc) F0 (zip a b)
|}.

(** ** Tensors of rank two *)

Record tensor2 : Type := T2 {
  shape0 : nat;
  shape1 : nat;
  at2 : nat -> nat -> float32
}.

(** Row-major listing of the entries, for display. *)
Definition rows (T : tensor2) : list (list float32) :=
  map (fun i => map (fun j => at2 T i j) (seq 0 (shape1 T))) (seq 0 (shape0 T)).

Definition of_rows (n1 : nat) (l : list (list float32)) : tensor2 :=
  T2 (length l) n1 (fun i j => nth j (nth i l []) F0).

(** [torch.zeros((a, b))] *)
Definition zeros (a b : Z) : pyresult tensor2 :=
  if bool_decide (a < 0)%Z || bool_decide (b < 0)%Z then Raise RuntimeError
  else Ret (T2 (Z.to_nat a) (Z.to_nat b) (fun _ _ => F0)).

(** [X[r0:r1, c0:c1]] for non-negative bounds: both ends are clamped to the
    extent, and an inverted range is empty. *)
Definition slice2 (X : tensor2) (r0 r1 c0 c1 : nat) : tensor2 :=
  let rs := r0 `min` shape0 X in
  let cs := c0 `min` shape1 X in
  T2 ((r1 `min` shape0 X) - rs) ((c1 `min` shape1 X) - cs)
     (fun a b => at2 X (rs + a) (cs + b)).

(** Broadcasting of one dimension: equal extents, or one of them is 1. *)
Definition bdim (a b : nat) : pyresult nat :=
  if a =? b then Ret a
  else if a =? 1 then Ret b
  else if b =? 1 then Ret a
  else Raise RuntimeError.

Definition bidx (extent i : nat) : nat := if extent =? 1 then 0 else i.

Definition zip_with2 (op : float32 -> float32 -> float32) (A B : tensor2)
    : pyresult tensor2 :=
  n0 ← bdim (shape0 A) (shape0 B);
  n1 ← bdim (shape1 A) (shape1 B);
  Ret (T2 n0 n1 (fun i j =>
         op (at2 A (bidx (shape0 A) i) (bidx (shape1 A) j))
            (at2 B (bidx (shape0 B) i) (bidx (shape1 B) j)))).

(** [A * B] and [A + B], elementwise with broadcasting *)
Definition tmul : tensor2 -> tensor2 -> pyresult tensor2 := zip_with2 fmul.
Definition tadd : tensor2 -> tensor2 -> pyresult tensor2 := zip_with2 fadd.

(** [c * K] for a scalar [c] *)
Definition tscale (c : float32) (K : tensor2) : tensor2 :=
  T2 (shape0 K) (shape1 K) (fun a b => fmul c (at2 K a b)).

(** The entries of a tensor in memory order, row by row. *)
Definition entries (T : tensor2) : list float32 :=
  flat_map (fun i => map (fun j => at2 T i j) (seq 0 (shape1 T))) (seq 0 (shape0 T)).

(** [Y[i, j] = v] *)
Definition set2 (Y : tensor2) (i j : nat) (v : float32) : pyresult tensor2 :=
  if (i <? shape0 Y) && (j <? shape1 Y)
  then Ret (T2 (shape0 Y) (shape1 Y)
              (fun p q => if (p =? i) && (q =? j) then v else at2 Y p q))
  else Raise IndexError.

(** [X[i, j]] *)
Definition get2 (X : tensor2) (i j : nat) : pyresult float32 :=
  if (i <? shape0 X) && (j <? shape1 X) then Ret (at2 X i j)
  else Raise IndexError.

(** [T.max()]: the framework raises on a tensor without entries. *)
Definition tmax (T : tensor2) : pyresult float32 :=
  match entries T with
  | [] => Raise RuntimeError
  | x :: l => Ret (foldl fmax x l)
  end.

(** The rows of a returned tensor, for display. *)
Definition result_rows (r : pyresult tensor2) : pyresult (list (list float32)) :=
  Y ← r; Ret (rows Y).

Definition X33 : tensor2 :=
  of_rows 3 [[F32 0; F32 1; F32 2]; [F32 3; F32 4; F32 5]; [F32 6; F32 7; F32 8]].
Definition K22 : tensor2 := of_rows 2 [[F32 0; F32 1]; [F32 2; F32 3]].
Definition X22 : tensor2 := of_rows 2 [[F32 0; F32 1]; [F32 2; F32 3]].

(** The input [[2^24, 1]] and the kernel [[1, 1]]: the sum of the two
    products, 2^24 + 1, is no float32. *)
Definition X12_big : tensor2 := of_rows 2 [[F32 16777216; F32 1]].
Definition K12_ones : tensor2 := of_rows 2 [[F32 1; F32 1]].

Section with_framework.
Context {fw : Framework}.

(** [T.sum()] *)
Definition tsum (T : tensor2) : float32 := tensor_sum (entries T).

(** [T.mean()]: the sum divided by the number of entries, NaN on a tensor
    without entries. *)
Definition tmean (T : tensor2) : float32 :=
  fdiv (tsum T) (F32 (Z.of_nat (shape0 T * shape1 T))).

(** ** conv-layer notebook: [corr2d] *)

Definition corr2d (X K : tensor2) : pyresult tensor2 :=
  let h := shape0 K in
  let w := shape1 K in
  Y ← zeros (Z.of_nat (shape0 X) - Z.of_nat h + 1)
            (Z.of_nat (shape1 X) - Z.of_nat w + 1);
  for_range (shape0 Y) (fun i Y =>
    for_range (shape1 Y) (fun j Y =>
      P ← tmul (slice2 X i (i + h) j (j + w)) K;
      set2 Y i j (tsum P)) Y) Y.

(** The products [X[i+a, j+b] * K[a, b]] of the window at (i, j), row by
    row, and the entry of [corr2d X K] at (i, j): their sum. *)
Definition window_products (X K : tensor2) (i j : nat) : list float32 :=
  flat_map (fun a => map (fun b => fmul (at2 X (i + a) (j + b)) (at2 K a b))
                         (seq 0 (shape1 K))) (seq 0 (shape0 K)).

Definition corr2d_entry (X K : tensor2) (i j : nat) : float32 :=
  tensor_sum (window_products X K i j).

(** ** pooling notebook: [pool2d] *)

(** The pool size is a pair of extents, hence of natural numbers. *)
Definition pool2d (X : tensor2) (pool_size : nat * nat) (mode : string)
    : pyresult tensor2 :=
  let '(p_h, p_w) := pool_size in
  Y ← zeros (Z.of_nat (shape0 X) - Z.of_nat p_h + 1)
            (Z.of_nat (shape1 X) - Z.of_nat p_w + 1);
  for_range (shape0 Y) (fun i Y =>
    for_range (shape1 Y) (fun j Y =>
      if String.eqb mode "max" then
        v ← tmax (slice2 X i (i + p_h) j (j + p_w)); set2 Y i j v
      else if String.eqb mode "avg" then
        set2 Y i j (tmean (slice2 X i (i + p_h) j (j + p_w)))
      else Ret Y) Y) Y.

(** The entries of the window of extent (p_h, p_w) of [X] at (i, j). *)
Definition window (X : tensor2) (i j p_h p_w : nat) : list float32 :=
  flat_map (fun a => map (fun b => at2 X (i + a) (j + b)) (seq 0 p_w)) (seq 0 p_h).

(** [v] is the maximum of a list that has entries, in the framework's
    sense: NaN when the list holds a NaN, and otherwise one of the entries
    that none of them exceeds. *)
Definition is_max (w : list float32) (v : float32) : Prop :=
  w <> []
  /\ (existsb is_nan w = true -> v = fnan)
  /\ (existsb is_nan w = false -> v ∈ w /\ forall y, y ∈ w -> fle y v = true).

(** The mean of the window: its float32 sum divided by its size. *)
Definition window_mean (X : tensor2) (i j p_h p_w : nat) : float32 :=
  fdiv (tensor_sum (window X i j p_h p_w)) (F32 (Z.of_nat (p_h * p_w))).

(** What C10 says of one call. *)
Definition pool2d_returns (X : tensor2) (p_h p_w : nat) (mode : string) : Prop :=
  exists Y, pool2d X (p_h, p_w) mode = Ret Y
    /\ shape0 Y = shape0 X - p_h + 1
    /\ shape1 Y = shape1 X - p_w + 1
    /\ forall i j, i < shape0 Y -> j < shape1 Y ->
         if String.eqb mode "max" then is_max (window X i j p_h p_w) (at2 Y i j)
         else if String.eqb mode "avg" then at2 Y i j = window_mean X i j p_h p_w
         else at2 Y i j = F0.

End with_framework.

(** ** transposed-conv notebook: [trans_conv] *)

(** An operand of an in-place update fits a destination extent when it has
    that extent or extent 1. *)
Definition fits (v s : nat) : bool := (v =? s) || (v =? 1).

(** [Y[r0:r1, c0:c1] += V]: the addition happens in the window of [Y] that
    the slice denotes, [V] being broadcast to the window. *)
Definition iadd_slice2 (Y : tensor2) (r0 r1 c0 c1 : nat) (V : tensor2)
    : pyresult tensor2 :=
  let W := slice2 Y r0 r1 c0 c1 in
  let rs := r0 `min` shape0 Y in
  let cs := c0 `min` shape1 Y in
  if fits (shape0 V) (shape0 W) && fits (shape1 V) (shape1 W) then
    Ret (T2 (shape0 Y) (shape1 Y) (fun p q =>
      if (rs <=? p) && (p <? rs + shape0 W) && (cs <=? q) && (q <? cs + shape1 W)
      then fadd (at2 Y p q) (at2 V (bidx (shape0 V) (p - rs)) (bidx (shape1 V) (q - cs)))
      else at2 Y p q))
  else Raise RuntimeError.

Definition trans_conv (X K : tensor2) : pyresult tensor2 :=
  let h := shape0 K in
  let w := shape1 K in
  Y ← zeros (Z.of_nat (shape0 X) + Z.of_nat h - 1)
            (Z.of_nat (shape1 X) + Z.of_nat w - 1);
  for_range (shape0 X) (fun i Y =>
    for_range (shape1 X) (fun j Y =>
      x ← get2 X i j;
      iadd_slice2 Y i (i + h) j (j + w) (tscale x K)) Y) Y.

(** The input positions (i, j) whose window of extent (k_h, k_w) covers
    the output position (p, q): i <= p < i + k_h and j <= q < j + k_w. *)
Definition in_window (i j h w p q : nat) : bool :=
  (i <=? p) && (p <? i + h) && (j <=? q) && (q <? j + w).

(** The products [X[i, j] * K[p - i, q - j]] that reach the output
    position (p, q), in the order of the loops. *)
Definition trans_conv_terms (X K : tensor2) (p q : nat) : list float32 :=
  flat_map (fun i => flat_map (fun j =>
    if in_window i j (shape0 K) (shape1 K) p q
    then [fmul (at2 X i j) (at2 K (p - i) (q - j))] else [])
    (seq 0 (shape1 X))) (seq 0 (shape0 X)).

(** What C2 says of one call: a result of shape (n_h + k_h - 1, n_w + k_w - 1)
    whose entry (p, q) is the sum of those products, each added to the
    entry as the loops reach it. *)
Definition trans_conv_returns (X K : tensor2) : Prop :=
  exists Y, trans_conv X K = Ret Y
    /\ Z.of_nat (shape0 Y) = (Z.of_nat (shape0 X) + Z.of_nat (shape0 K) - 1)%Z
    /\ Z.of_nat (shape1 Y) = (Z.of_nat (shape1 X) + Z.of_nat (shape1 K) - 1)%Z
    /\ forall p q, p < shape0 Y -> q < shape1 Y ->
         at2 Y p q = seq_sum (trans_conv_terms X K p q).

(** ** channels notebook: multiple input and output channels *)

Record tensor3 : Type := T3 {
  dim3_0 : nat; dim3_1 : nat; dim3_2 : nat;
  at3 : nat -> nat -> nat -> float32
}.

Record tensor4 : Type := T4 {
  dim4_0 : nat; dim4_1 : nat; dim4_2 : nat; dim4_3 : nat;
  at4 : nat -> nat -> nat -> nat -> float32
}.

(** Iterating over a tensor walks its first axis: [for x in X]. *)
Definition unbind3 (X : tensor3) : list tensor2 :=
  map (fun c => T2 (dim3_1 X) (dim3_2 X) (at3 X c)) (seq 0 (dim3_0 X)).

Definition unbind4 (K : tensor4) : list tensor3 :=
  map (fun o => T3 (dim4_1 K) (dim4_2 K) (dim4_3 K) (at4 K o)) (seq 0 (dim4_0 K)).

(** The values Python's [sum] handles here: its integer start value and
    tensors. *)
Inductive pyval : Type :=
  | PInt (z : Z)
  | PTensor (T : tensor2).

(** [a + b]: an integer next to a tensor is added to every entry as a
    float32. *)
Definition py_add (a b : pyval) : pyresult pyval :=
  match a, b with
  | PInt x, PInt y => Ret (PInt (x + y))
  | PInt x, PTensor T =>
      Ret (PTensor (T2 (shape0 T) (shape1 T) (fun i j => fadd (at2 T i j) (F32 x))))
  | PTensor T, PInt y =>
      Ret (PTensor (T2 (shape0 T) (shape1 T) (fun i j => fadd (at2 T i j) (F32 y))))
  | PTensor A, PTensor B => P ← tadd A B; Ret (PTensor P)
  end.

Fixpoint foldM {A S : Type} (body : S -> A -> pyresult S) (s : S) (l : list A)
    : pyresult S :=
  match l with
  | [] => Ret s
  | a :: l' => s' ← body s a; foldM body s' l'
  end.

Fixpoint mapM_py {A B : Type} (f : A -> pyresult B) (l : list A)
    : pyresult (list B) :=
  match l with
  | [] => Ret []
  | a :: l' => b ← f a; bs ← mapM_py f l'; Ret (b :: bs)
  end.

Definition as_tensor (v : pyval) : pyresult tensor2 :=
  match v with
  | PTensor T => Ret T
  | PInt _ => Raise TypeError
  end.

(** [torch.stack(l, 0)]: a non-empty list of tensors of one shape. *)
Definition stack (l : list pyval) : pyresult tensor3 :=
  ts ← mapM_py as_tensor l;
  match ts with
  | [] => Raise RuntimeError
  | T0 :: _ =>
      if forallb (fun T => (shape0 T =? shape0 T0) && (shape1 T =? shape1 T0)) ts
      then Ret (T3 (length ts) (shape0 T0) (shape1 T0)
                  (fun o i j => at2 (nth o ts T0) i j))
      else Raise RuntimeError
  end.










Definition of_rows3 (n1 n2 : nat) (l : list (list (list float32))) : tensor3 :=
  T3 (length l) n1 n2 (fun c i j => nth j (nth i (nth c l []) []) F0).

Definition of_rows4 (n1 n2 n3 : nat) (l : list (list (list (list float32)))) : tensor4 :=
  T4 (length l) n1 n2 n3
     (fun o c i j => nth j (nth i (nth c (nth o l []) []) []) F0).

Definition rows3 (T : tensor3) : list (list (list float32)) :=
  map rows (unbind3 T).

Definition X233 : tensor3 :=
  of_rows3 3 3 [[[F32 0; F32 1; F32 2]; [F32 3; F32 4; F32 5]; [F32 6; F32 7; F32 8]];
                [[F32 1; F32 2; F32 3]; [F32 4; F32 5; F32 6]; [F32 7; F32 8; F32 9]]].
Definition K222 : tensor3 :=
  of_rows3 2 2 [[[F32 0; F32 1]; [F32 2; F32 3]]; [[F32 1; F32 2]; [F32 3; F32 4]]].
Definition K3222 : tensor4 :=
  of_rows4 2 2 2 [[[[F32 0; F32 1]; [F32 2; F32 3]]; [[F32 1; F32 2]; [F32 3; F32 4]]];
                  [[[F32 1; F32 2]; [F32 3; F32 4]]; [[F32 2; F32 3]; [F32 4; F32 5]]];
                  [[[F32 2; F32 3]; [F32 4; F32 5]]; [[F32 3; F32 4]; [F32 5; F32 6]]]].




(** Two channels 4098 and 4097 against the kernel (-4096, 4097): the
    products are -16785408 and 16785409, the second of which is no
    float32. *)
Definition X211_round : tensor3 := of_rows3 1 1 [[[F32 4098]]; [[F32 4097]]].
Definition K1211_round : tensor4 := of_rows4 2 1 1 [[[[F32 (-4096)]]; [[F32 4097]]]].

Section channels.
Context {fw : Framework}.

(** [sum(corr2d(x, k) for x, k in zip(X, K))]: the generator is consumed
    item by item, each item added to the running total, which starts at the
    integer 0. *)
Definition corr2d_multi_in (X K : tensor3) : pyresult pyval :=
  foldM (fun acc xk => y ← corr2d xk.1 xk.2; py_add acc (PTensor y))
        (PInt 0) (zip (unbind3 X) (unbind3 K)).

Definition corr2d_multi_in_out (X : tensor3) (K : tensor4) : pyresult tensor3 :=
  items ← mapM_py (fun k => corr2d_multi_in X k) (unbind4 K);
  stack items.






(** The entry (i, j) of the cross-correlation of channel [c]: the sum of
    the products of the channel's window. *)
Definition channel_entry (X K : tensor3) (c i j : nat) : float32 :=
  tensor_sum (flat_map (fun a => map (fun b =>
    fmul (at3 X c (i + a) (j + b)) (at3 K c a b)) (seq 0 (dim3_2 K)))
    (seq 0 (dim3_1 K))).

(** The terms the channel-wise computation adds for the entry (o, i, j) of
    a 1x1 convolution, one per input channel: the sum of the single product
    of the channel's window. *)
Definition channel_terms_1x1 (X : tensor3) (K : tensor4) (o i j : nat) : list float32 :=
  map (fun c => tensor_sum [fmul (at3 X c i j) (at4 K o c 0 0)]) (seq 0 (dim3_0 X)).

End channels.

(** Python's [sum] over float32 terms, of which there is at least one: the
    start value 0 is added to the first term, the others follow in order. *)
Definition py_sum (terms : list float32) : float32 :=
  match terms with
  | [] => F0
  | t :: ts => foldl fadd (fadd t (F32 0)) ts
  end.

(** ** text-preprocessing notebook: [tokenize], [count_corpus], [Vocab]

    A Python [str] is a [string]; its characters stand for the code points
    below 256. *)

(** [str.isspace] on one character: the ASCII white space, the separators
    0x1c to 0x1f, and the Latin-1 NEL and no-break space. *)
Definition is_space (c : ascii) : bool :=
  let n := nat_of_ascii c in
  ((9 <=? n) && (n <=? 13)) || ((28 <=? n) && (n <=? 32))
  || (n =? 133) || (n =? 160).

(** [line.split()]: runs of white space separate the words and never yield
    an empty word.  [cur] is the word being read. *)
Fixpoint split_from (cur : string) (s : string) : list string :=
  match s with
  | EmptyString => if String.eqb cur "" then [] else [cur]
  | String c s' =>
      if is_space c
      then (if String.eqb cur "" then split_from "" s'
            else cur :: split_from "" s')
      else split_from (cur ++ String c "") s'
  end.

Definition str_split (line : string) : list string := split_from "" line.

(** [list(line)]: one string per character. *)
Fixpoint str_list (line : string) : list string :=
  match line with
  | EmptyString => []
  | String c s' => String c "" :: str_list s'
  end.

(** A call's printed lines together with its outcome; the value [None] is
    Python's [None]. *)
Definition tokenize (lines : list string) (token : string)
    : list string * pyresult (option (list (list string))) :=
  if String.eqb token "word" then ([], Ret (Some (map str_split lines)))
  else if String.eqb token "char" then ([], Ret (Some (map str_list lines)))
  else (["ERROR: unknown token type: " ++ token]%string, Ret None).

(** [def tokenize(lines, token='word')]: an omitted argument takes the
    default. *)
Definition call_tokenize (lines : list string) (token : option string) :=
  tokenize lines (default "word"%string token).

(** The corpus handed to [count_corpus]: a 1D list of tokens or a 2D list
    of token lists. *)
Inductive corpus : Type :=
  | Tokens1D (l : list string)
  | Tokens2D (l : list (list string)).

(** [collections.Counter]: the counts in order of first occurrence, which is
    the order [items()] yields. *)
Fixpoint counter_incr (t : string) (c : list (string * nat)) : list (string * nat) :=
  match c with
  | [] => [(t, 1)]
  | (k, n) :: c' => if String.eqb k t then (k, S n) :: c' else (k, n) :: counter_incr t c'
  end.

Definition Counter (l : list string) : list (string * nat) :=
  foldl (fun c t => counter_incr t c) [] l.

Definition count_corpus (tokens : corpus) : list (string * nat) :=
  match tokens with
  | Tokens1D l =>
      (* [len(tokens) == 0]: flattening the empty list gives the empty list *)
      if length l =? 0 then Counter (concat []) else Counter l
  | Tokens2D l => Counter (concat l)
  end.

(** [sorted(items, key=lambda x: x[1], reverse=True)]: descending counts,
    ties in their original order. *)
Fixpoint insert_desc (x : string * nat) (l : list (string * nat)) : list (string * nat) :=
  match l with
  | [] => [x]
  | y :: l' => if x.2 <? y.2 then y :: insert_desc x l' else x :: y :: l'
  end.

Definition sorted_desc (l : list (string * nat)) : list (string * nat) :=
  foldr insert_desc [] l.

Record Vocab : Type := mkVocab {
  token_freqs : list (string * nat);
  unk : nat;
  idx_to_token : list string;
  token_to_idx : gmap string nat
}.

(** The body of the loop that fills [idx_to_token] and [token_to_idx]. *)
Definition vocab_add (st : list string * gmap string nat) (token : string)
    : list string * gmap string nat :=
  let idx := st.1 ++ [token] in
  (idx, <[token := length idx - 1]> st.2).

(** [Vocab.__init__] *)
Definition Vocab_init (tokens : option corpus) (min_freq : Z)
    (reserved_tokens : option (list string)) : Vocab :=
  let tokens := default (Tokens1D []) tokens in
  let reserved_tokens := default [] reserved_tokens in
  let counter := count_corpus tokens in
  let token_freqs := sorted_desc counter in
  let uniq_tokens := "<unk>"%string :: reserved_tokens in
  let uniq_tokens := uniq_tokens ++
    map fst (filter (fun tf => (min_freq <= Z.of_nat tf.2)%Z /\ tf.1 ∉ uniq_tokens)
                    token_freqs) in
  let st := foldl vocab_add ([], ∅) uniq_tokens in
  mkVocab token_freqs 0 st.1 st.2.

(** [len(vocab)] *)
Definition Vocab_len (v : Vocab) : nat := length (idx_to_token v).

(** The argument of [vocab[...]]: one token, or a list or tuple of
    arguments. *)
Inductive tokens_arg : Type :=
  | Tok (t : string)
  | Toks (l : list tokens_arg).

Inductive indices_res : Type :=
  | Idx (i : nat)
  | Idxs (l : list indices_res).

(** [Vocab.__getitem__] *)
Fixpoint getitem (v : Vocab) (tokens : tokens_arg) : indices_res :=
  match tokens with
  | Tok t => Idx (default (unk v) (token_to_idx v !! t))
  | Toks l => Idxs (map (getitem v) l)
  end.

(** [l[i]] for a Python integer: a negative index counts from the end. *)
Definition py_index {A : Type} (l : list A) (i : Z) : pyresult A :=
  let n := Z.of_nat (length l) in
  let k := if bool_decide (i < 0)%Z then (i + n)%Z else i in
  if bool_decide (0 <= k < n)%Z
  then match l !! Z.to_nat k with Some a => Ret a | None => Raise IndexError end
  else Raise IndexError.

Inductive indices_arg : Type :=
  | Ind (i : Z)
  | Inds (l : list Z).

Inductive tokens_res : Type :=
  | OneToken (t : string)
  | Tokens (l : list string).

(** [Vocab.to_tokens] *)
Definition to_tokens (v : Vocab) (indices : indices_arg) : pyresult tokens_res :=
  match indices with
  | Ind i => t ← py_index (idx_to_token v) i; Ret (OneToken t)
  | Inds l => ts ← mapM_py (py_index (idx_to_token v)) l; Ret (Tokens ts)
  end.


(** All tokens of a corpus, in reading order, and how often one occurs. *)
Definition corpus_tokens (c : corpus) : list string :=
  match c with
  | Tokens1D l => l
  | Tokens2D l => concat l
  end.

Definition occurrences (t : string) (l : list string) : nat :=
  length (filter (fun x => x = t) l).

(** The count a counter holds for a token, 0 when it has none. *)
Fixpoint counter_get (c : list (string * nat)) (t : string) : nat :=
  match c with
  | [] => 0
  | (k, n) :: c' => if String.eqb k t then n else counter_get c' t
  end.

(** What C5 says of one vocabulary: [to_tokens] and [__getitem__] undo each
    other on the stored indices and tokens, and no token is stored twice. *)
Definition vocab_inverse (v : Vocab) : Prop :=
  (forall i : nat, i < Vocab_len v ->
     exists t, to_tokens v (Ind (Z.of_nat i)) = Ret (OneToken t)
               /\ getitem v (Tok t) = Idx i)
  /\ (forall t : string, t ∈ idx_to_token v ->
        exists i, getitem v (Tok t) = Idx i
                  /\ to_tokens v (Ind (Z.of_nat i)) = Ret (OneToken t))
  /\ NoDup (idx_to_token v).

(** The invariant of a counter: distinct keys, positive counts. *)
Definition counter_ok (c : list (string * nat)) : Prop :=
  NoDup (map fst c) /\ Forall (fun kn => 0 < kn.2) c.

(** ** autograd notebook

    The notebook calls the framework's reverse-mode differentiation on
    [y = 2 * torch.dot(x, x)].  The framework is modelled for the
    operations the notebook uses on one leaf vector [x]: every operation
    records how a gradient arriving at its result is passed on to its
    operands, [backward] sends the gradient 1 through the recorded graph,
    and the leaf adds what reaches it to [x.grad]. *)

(** An integer as an exact number. *)
Definition Qz (z : Z) : Qc := Q2Qc (inject_Z z).

(** Vector-valued and scalar-valued expressions over the leaf [x]. *)
Inductive vexp : Type :=
  | Leaf                            (* x *)
  | Const (v : list Qc)             (* a tensor that requires no gradient *)
  | VScale (c : Qc) (e : vexp).     (* c * e *)

Inductive sexp : Type :=
  | Dot (a b : vexp)                (* torch.dot(a, b) *)
  | Sum (a : vexp)                  (* a.sum() *)
  | SScale (c : Qc) (e : sexp).     (* c * e *)

Definition vadd (a b : list Qc) : list Qc := zip_with Qcplus a b.
Definition vscale (c : Qc) (a : list Qc) : list Qc := map (Qcmult c) a.
Definition dot (a b : list Qc) : Qc := foldr Qcplus 0%Qc (zip_with Qcmult a b).

Fixpoint eval_v (x : list Qc) (e : vexp) : list Qc :=
  match e with
  | Leaf => x
  | Const v => v
  | VScale c e => vscale c (eval_v x e)
  end.

Fixpoint eval_s (x : list Qc) (e : sexp) : Qc :=
  match e with
  | Dot a b => dot (eval_v x a) (eval_v x b)
  | Sum a => foldr Qcplus 0%Qc (eval_v x a)
  | SScale c e => (c * eval_s x e)%Qc
  end.

(** The gradients that reach the leaf when [g] arrives at an expression,
    one per path. *)
Fixpoint reach_v (e : vexp) (g : list Qc) : list (list Qc) :=
  match e with
  | Leaf => [g]
  | Const _ => []
  | VScale c e => reach_v e (vscale c g)
  end.

Fixpoint reach_s (x : list Qc) (e : sexp) (g : Qc) : list (list Qc) :=
  match e with
  | Dot a b =>
      reach_v a (vscale g (eval_v x b)) ++ reach_v b (vscale g (eval_v x a))
  | Sum a => reach_v a (map (fun _ => g) (eval_v x a))
  | SScale c e => reach_s x e (c * g)%Qc
  end.

(** A leaf tensor with its gradient slot. *)
Record leaf_tensor : Type := mkLeaf {
  data : list Qc;
  requires_grad : bool;
  grad : option (list Qc)
}.

(** [torch.arange(n)] as floats: 0, 1, ..., n-1. *)
Definition arange (n : nat) : leaf_tensor :=
  mkLeaf (map (fun i => Qz (Z.of_nat i)) (seq 0 n)) false None.

(** [x.requires_grad_(True)] *)
Definition requires_grad_ (x : leaf_tensor) (b : bool) : leaf_tensor :=
  mkLeaf (data x) b (grad x).

(** [y.backward()] for a scalar [y] computed from [x]: the gradients that
    reach [x] are summed and added to [x.grad]; the framework raises when
    nothing in [y] requires a gradient. *)
Definition backward (x : leaf_tensor) (y : sexp) : pyresult leaf_tensor :=
  if requires_grad x then
    match reach_s (data x) y (Qz 1) with
    | [] => Raise RuntimeError
    | g :: gs =>
        let total := foldl vadd g gs in
        Ret (mkLeaf (data x) true
               (Some (match grad x with
                      | None => total
                      | Some old => vadd old total
                      end)))
    end
  else Raise RuntimeError.

(** [a == b], elementwise *)
Definition veq (a b : list Qc) : list bool :=
  zip_with (fun p q => bool_decide (p = q)) a b.

(** The cells of the notebook: [y = 2 * torch.dot(x, x)], [y.backward()],
    [x.grad == 4 * x]. *)
Definition y_2xTx : sexp := SScale (Qz 2) (Dot Leaf Leaf).

Definition grad_check (x : leaf_tensor) : pyresult (list bool) :=
  x' ← backward x y_2xTx;
  match grad x' with
  | Some g => Ret (veq g (vscale (Qz 4) (data x')))
  | None => Raise TypeError
  end.

(** ** text-preprocessing notebook: reading and loading the corpus *)

(** Handing what [vocab[...]] returned to [to_tokens]: an integer or a list
    of integers; a list inside the list is no index. *)
Definition as_indices (r : indices_res) : pyresult indices_arg :=
  match r with
  | Idx i => Ret (Ind (Z.of_nat i))
  | Idxs l =>
      zs ← mapM_py (fun x => match x with
                             | Idx i => Ret (Z.of_nat i)
                             | Idxs _ => Raise TypeError
                             end) l;
      Ret (Inds zs)
  end.

(** The ASCII letters, the class [A-Za-z]. *)
Definition is_letter (c : ascii) : bool :=
  let n := nat_of_ascii c in
  ((65 <=? n) && (n <=? 90)) || ((97 <=? n) && (n <=? 122)).

(** [re.sub('[^A-Za-z]+', ' ', line)]: every maximal run of characters
    that are not letters becomes one space.  [in_run] tells that the run
    being read has already been replaced. *)
Fixpoint sub_nonletters (in_run : bool) (s : string) : string :=
  match s with
  | EmptyString => EmptyString
  | String c s' =>
      if is_letter c then String c (sub_nonletters false s')
      else if in_run then sub_nonletters true s'
      else String " " (sub_nonletters true s')
  end.

(** [s.strip()]: white space is dropped at both ends. *)
Fixpoint lstrip (s : string) : string :=
  match s with
  | EmptyString => EmptyString
  | String c s' => if is_space c then lstrip s' else s
  end.

Fixpoint rstrip (s : string) : string :=
  match s with
  | EmptyString => EmptyString
  | String c s' =>
      let r := rstrip s' in
      if is_space c && String.eqb r "" then EmptyString else String c r
  end.

Definition strip (s : string) : string := rstrip (lstrip s).

(** [s.lower()] on the code points below 256: the ASCII capitals and the
    Latin-1 capitals (0xC0 to 0xDE without the multiplication sign). *)
Definition lower_char (c : ascii) : ascii :=
  let n := nat_of_ascii c in
  if ((65 <=? n) && (n <=? 90))
     || ((192 <=? n) && (n <=? 214)) || ((216 <=? n) && (n <=? 222))
  then ascii_of_nat (n + 32) else c.

Fixpoint lower (s : string) : string :=
  match s with
  | EmptyString => EmptyString
  | String c s' => String (lower_char c) (lower s')
  end.

(** [read_time_machine], from the lines [f.readlines()] yields. *)
Definition read_time_machine (file_lines : list string) : list string :=
  map (fun line => lower (strip (sub_nonletters false line))) file_lines.

(** [s[:n]] for a Python integer [n]: a negative bound counts from the
    end. *)
Definition py_take {A : Type} (n : Z) (l : list A) : list A :=
  if bool_decide (n < 0)%Z then take (length l - Z.to_nat (- n)) l
  else take (Z.to_nat n) l.

(** [load_corpus_time_machine], from the lines of the file. *)
Definition load_corpus_time_machine (file_lines : list string) (max_tokens : Z)
    : pyresult (list indices_res * Vocab) :=
  let lines := read_time_machine file_lines in
  match (tokenize lines "char").2 with
  | Ret (Some tokens) =>
      let vocab := Vocab_init (Some (Tokens2D tokens)) 0 None in
      let corpus := map (fun token => getitem vocab (Tok token)) (concat tokens) in
      let corpus := if bool_decide (0 < max_tokens)%Z
                    then py_take max_tokens corpus else corpus in
      Ret (corpus, vocab)
  | Ret None => Raise TypeError   (* [Vocab(None)] is built, iterating [None] raises *)
  | Raise e => Raise e
  end.

(** [' '.join(words)] *)
Fixpoint join_spaces (words : list string) : string :=
  match words with
  | [] => EmptyString
  | [w] => w
  | w :: ws => (w ++ String " " (join_spaces ws))%string
  end.

(** A cleaned line: lower-case letters separated by single spaces. *)
Definition is_lower (c : ascii) : bool :=
  let n := nat_of_ascii c in (97 <=? n) && (n <=? 122).

(** Words of letters with exactly one space between them, read from a
    position that does or does not follow a letter. *)
Fixpoint spaced (letter : ascii -> bool) (after_letter : bool) (s : string) : bool :=
  match s with
  | EmptyString => after_letter
  | String c s' =>
      if letter c then spaced letter true s'
      else Ascii.eqb c " " && after_letter && spaced letter false s'
  end.

(** Empty, or words of lower-case letters with one space between them. *)
Definition clean_line (s : string) : bool :=
  String.eqb s "" || spaced is_lower false s.

(** After the substitution a line holds letters and single spaces; a space
    does not come first when [no_space_first] is set. *)
Fixpoint letters_and_spaces (no_space_first : bool) (s : string) : bool :=
  match s with
  | EmptyString => true
  | String c s' =>
      if is_letter c then letters_and_spaces false s'
      else Ascii.eqb c " " && negb no_space_first && letters_and_spaces true s'
  end.

(** ** Tensors of rank one, and the operations the further notebooks use *)

Record tensor1 : Type := T1 {
  len1 : nat;
  at1 : nat -> float32
}.

Definition of_list1 (l : list float32) : tensor1 := T1 (length l) (fun i => nth i l F0).

(** [torch.zeros(n)] *)
Definition zeros1 (n : Z) : pyresult tensor1 :=
  if bool_decide (n < 0)%Z then Raise RuntimeError
  else Ret (T1 (Z.to_nat n) (fun _ => F0)).

(** [K[r, :]] *)
Definition row2 (K : tensor2) (r : nat) : pyresult tensor1 :=
  if r <? shape0 K then Ret (T1 (shape1 K) (at2 K r)) else Raise IndexError.

(** The positions a slice [a:b] selects in an extent [n]; [b = None] is an
    open end.  Returns the first position and the count. *)
Definition slice_range (n a : nat) (b : option nat) : nat * nat :=
  let start := a `min` n in
  let stop := default n b `min` n in
  (start, stop - start).

(** [k[a:b] = v] *)
Definition set_slice1 (k : tensor1) (a : nat) (b : option nat) (v : tensor1)
    : pyresult tensor1 :=
  let '(start, count) := slice_range (len1 k) a b in
  if fits (len1 v) count then
    Ret (T1 (len1 k) (fun i =>
      if (start <=? i) && (i <? start + count)
      then at1 v (bidx (len1 v) (i - start)) else at1 k i))
  else Raise RuntimeError.

(** [W[r, a:b] = v] *)
Definition set_row_slice2 (W : tensor2) (r a : nat) (b : option nat) (v : tensor1)
    : pyresult tensor2 :=
  if r <? shape0 W then
    let '(start, count) := slice_range (shape1 W) a b in
    if fits (len1 v) count then
      Ret (T2 (shape0 W) (shape1 W) (fun i j =>
        if (i =? r) && (start <=? j) && (j <? start + count)
        then at1 v (bidx (len1 v) (j - start)) else at2 W i j))
    else Raise RuntimeError
  else Raise IndexError.

(** ** transposed-conv notebook: [kernel2matrix] *)

Definition kernel2matrix (K : tensor2) : pyresult tensor2 :=
  k ← zeros1 5;
  W ← zeros 4 9;
  (* the right-hand sides of the tuple assignment are read first *)
  K0 ← row2 K 0;
  K1 ← row2 K 1;
  k ← set_slice1 k 0 (Some 2) K0;
  k ← set_slice1 k 3 (Some 5) K1;
  W ← set_row_slice2 W 0 0 (Some 5) k;
  W ← set_row_slice2 W 1 1 (Some 6) k;
  W ← set_row_slice2 W 2 3 (Some 8) k;
  W ← set_row_slice2 W 3 4 None k;
  Ret W.

(** ** conv-layer notebook: [Conv2D] *)

(** [A + b] for a matrix and a vector: the vector is broadcast along the
    rows. *)
Definition tadd_row (A : tensor2) (b : tensor1) : pyresult tensor2 :=
  n0 ← bdim (shape0 A) 1;
  n1 ← bdim (shape1 A) (len1 b);
  Ret (T2 n0 n1 (fun i j =>
    fadd (at2 A (bidx (shape0 A) i) (bidx (shape1 A) j)) (at1 b (bidx (len1 b) j)))).

(** The parameters of a [Conv2D(kernel_size)] layer: the kernel and a bias
    of shape (1,). *)
Record Conv2D : Type := mkConv2D {
  conv_weight : tensor2;
  conv_bias : tensor1
}.

(** [Conv2D.forward] *)
Definition Conv2D_forward {fw : Framework} (layer : Conv2D) (x : tensor2)
    : pyresult tensor2 :=
  Y ← corr2d x (conv_weight layer);
  tadd_row Y (conv_bias layer).

Definition conv_2x2 : Conv2D := mkConv2D K22 (of_list1 [F32 10]).

(** The kernel [[1.0, -1.0]] of the conv-layer notebook. *)
Definition edge_kernel : tensor2 := of_rows 2 [[F32 1; F32 (-1)]].

(** ** model-construction notebook: [MySequential] *)

(** An [OrderedDict] with string keys: the entries in insertion order;
    assigning to a key that is present replaces its value in place. *)
Fixpoint odict_set {V : Type} (k : string) (v : V) (d : list (string * V))
    : list (string * V) :=
  match d with
  | [] => [(k, v)]
  | (k', v') :: d' =>
      if bool_decide (k = k') then (k, v) :: d' else (k', v') :: odict_set k v d'
  end.

(** [for idx, module in enumerate(args): self._modules[str(idx)] = module],
    the enumeration counter made explicit. *)
Fixpoint MySequential_fill {T : Type} (idx : nat) (args : list (T -> pyresult T))
    (_modules : list (string * (T -> pyresult T))) : list (string * (T -> pyresult T)) :=
  match args with
  | [] => _modules
  | module :: args' =>
      MySequential_fill (S idx) args' (odict_set (pretty idx) module _modules)
  end.

Definition MySequential_init {T : Type} (args : list (T -> pyresult T))
    : list (string * (T -> pyresult T)) :=
  MySequential_fill 0 args [].

(** [MySequential.forward] *)
Definition MySequential_forward {T : Type} (_modules : list (string * (T -> pyresult T)))
    (X : T) : pyresult T :=
  foldM (fun X block => block X) X (_modules.*2).

(** ** similarity-analogy notebook: [TokenEmbedding] *)

(** [s.split(sep)] for a separator of one character: every occurrence
    separates, so empty pieces are kept and there is always one piece. *)
Fixpoint split_char (sep : ascii) (s : string) : list string :=
  match s with
  | EmptyString => [EmptyString]
  | String c s' =>
      let r := split_char sep s' in
      if Ascii.eqb c sep then EmptyString :: r
      else match r with
           | w :: ws => String c w :: ws
           | [] => [String c EmptyString]
           end
  end.

(** What loading the vectors can raise: [ValueError], from [float] on a
    string that is no number and from [torch.tensor] on rows of unequal
    length; [IndexError], from [elems[0]] and [idx_to_vec[0]]. *)
Inductive load_exn : Type :=
  | Load_ValueError
  | Load_IndexError.

Inductive loaded (A : Type) : Type :=
  | Loaded (a : A)
  | LoadRaise (e : load_exn).
Arguments Loaded {A} a.
Arguments LoadRaise {A} e.

(** The loop of [_load_embedding] over the lines of 'vec.txt'.  [float]
    is Python's conversion of a string, as the float32 number the tensor of
    vectors keeps of it; [None] where it raises [ValueError]. *)
Fixpoint load_lines (float : string -> option float32) (f : list string)
    (idx_to_token : list string) (idx_to_vec : list (list float32))
    : loaded (list string * list (list float32)) :=
  match f with
  | [] => Loaded (idx_to_token, idx_to_vec)
  | line :: f' =>
      match split_char " " (rstrip line) with
      | [] => LoadRaise Load_IndexError
      | token :: elems =>
          match mapM float elems with
          | None => LoadRaise Load_ValueError
          | Some elems =>
              if 1 <? length elems
              then load_lines float f' (idx_to_token ++ [token]) (idx_to_vec ++ [elems])
              else load_lines float f' idx_to_token idx_to_vec
          end
      end
  end.

(** [torch.tensor(l)] for a list of lists of numbers with a first row. *)
Definition tensor_of_rows (l : list (list float32)) : loaded tensor2 :=
  let n1 := length (nth 0 l []) in
  if forallb (fun r => length r =? n1) l then Loaded (of_rows n1 l)
  else LoadRaise Load_ValueError.

Definition _load_embedding (float : string -> option float32) (f : list string)
    : loaded (list string * tensor2) :=
  match load_lines float f ["<unk>"%string] [] with
  | LoadRaise e => LoadRaise e
  | Loaded (idx_to_token, idx_to_vec) =>
      match idx_to_vec with
      | [] => LoadRaise Load_IndexError
      | v0 :: _ =>
          match tensor_of_rows (replicate (length v0) F0 :: idx_to_vec) with
          | LoadRaise e => LoadRaise e
          | Loaded vec => Loaded (idx_to_token, vec)
          end
      end
  end.

Record TokenEmbedding : Type := mkTokenEmbedding {
  emb_idx_to_token : list string;
  emb_idx_to_vec : tensor2;
  unknown_idx : nat;
  emb_token_to_idx : gmap string nat
}.

(** [{token: idx for idx, token in enumerate(l)}], the counter of the
    enumeration made explicit: a later entry replaces an earlier one. *)
Fixpoint enumerate_dict (idx : nat) (l : list string) (d : gmap string nat)
    : gmap string nat :=
  match l with
  | [] => d
  | token :: l' => enumerate_dict (S idx) l' (<[token := idx]> d)
  end.

Definition TokenEmbedding_init (float : string -> option float32) (f : list string)
    : loaded TokenEmbedding :=
  match _load_embedding float f with
  | LoadRaise e => LoadRaise e
  | Loaded (idx_to_token, idx_to_vec) =>
      Loaded (mkTokenEmbedding idx_to_token idx_to_vec 0
                (enumerate_dict 0 idx_to_token ∅))
  end.

(** [X[torch.tensor(indices)]]: the rows of [X] at the indices.  An empty
    list makes a tensor of floats, which is refused as an index. *)
Definition index_rows (X : tensor2) (indices : list nat) : pyresult tensor2 :=
  match indices with
  | [] => Raise IndexError
  | _ =>
      if forallb (fun i => i <? shape0 X) indices
      then Ret (T2 (length indices) (shape1 X)
                   (fun a j => at2 X (nth a indices 0) j))
      else Raise IndexError
  end.

Definition TokenEmbedding_getitem (self : TokenEmbedding) (tokens : list string)
    : pyresult tensor2 :=
  let indices :=
    map (fun token => default (unknown_idx self) (emb_token_to_idx self !! token))
        tokens in
  index_rows (emb_idx_to_vec self) indices.

Definition TokenEmbedding_len (self : TokenEmbedding) : nat :=
  length (emb_idx_to_token self).

(** What the loop reads off a line: its first piece and the numbers after
    it; [None] where the loop raises. *)
Definition parse_line (float : string -> option float32) (line : string)
    : option (string * list float32) :=
  match split_char " " (rstrip line) with
  | [] => None
  | token :: elems => vec ← mapM float elems; Some (token, vec)
  end.

(** Python's [float] on a run of decimal digits, for the examples; the
    empty string raises, and so does here every other string, some of
    which Python accepts: the examples use none. *)
Fixpoint digits_value (acc : nat) (s : string) : option nat :=
  match s with
  | EmptyString => Some acc
  | String c s' =>
      let n := nat_of_ascii c in
      if (48 <=? n) && (n <=? 57) then digits_value (10 * acc + (n - 48)) s'
      else None
  end.

Definition float_of_digits (s : string) : option float32 :=
  match s with
  | EmptyString => None
  | _ => n ← digits_value 0 s; Some (F32 (Z.of_nat n))
  end.

(** A file of vectors with a header and a repeated token, and a file of
    vectors of dimension 1. *)
Definition vec_txt : list string :=
  map (fun line => String.append line (String "010" EmptyString))
      ["3 2"; "the 1 2"; "cat 3 4"; "the 5 6"]%string.

Definition vec_txt_dim1 : list string :=
  map (fun line => String.append line (String "010" EmptyString))
      ["2 1"; "the 1"; "cat 3"]%string.

(** ** [tokenize] on strings of any characters

    A Python [str] is a sequence of Unicode code points.  The definitions
    above read a character as a code point below 256, which is all the
    cleaned text of the corpus holds; here [split], [list] and [tokenize]
    are given on sequences of arbitrary code points. *)

Module Unicode.

Definition ustring : Type := list N.

(** The code points of a string of characters below 256. *)
Definition ustr (s : string) : ustring := map N_of_ascii (list_ascii_of_string s).

(** [str.isspace] on one code point, which is what [str.split()] separates
    at: the characters of bidirectional type WS, B or S and of category
    Zs. *)
Definition isspace (c : N) : bool :=
  (((9 <=? c) && (c <=? 13)) || ((28 <=? c) && (c <=? 32))
   || (c =? 133) || (c =? 160) || (c =? 5760)
   || ((8192 <=? c) && (c <=? 8202))
   || (c =? 8232) || (c =? 8233) || (c =? 8239) || (c =? 8287)
   || (c =? 12288))%N.

Definition is_empty (s : ustring) : bool :=
  match s with [] => true | _ => false end.

(** [line.split()]; [cur] is the word being read. *)
Fixpoint split_from (cur : ustring) (s : ustring) : list ustring :=
  match s with
  | [] => if is_empty cur then [] else [cur]
  | c :: s' =>
      if isspace c
      then (if is_empty cur then split_from [] s' else cur :: split_from [] s')
      else split_from (cur ++ [c]) s'
  end.

Definition str_split (line : ustring) : list ustring := split_from [] line.

(** [list(line)] *)
Definition str_list (line : ustring) : list ustring := map (fun c => [c]) line.

Definition tokenize (lines : list ustring) (token : ustring)
    : list ustring * pyresult (option (list (list ustring))) :=
  if bool_decide (token = ustr "word") then ([], Ret (Some (map str_split lines)))
  else if bool_decide (token = ustr "char") then ([], Ret (Some (map str_list lines)))
  else ([ustr "ERROR: unknown token type: " ++ token], Ret None).

Definition call_tokenize (lines : list ustring) (token : option ustring) :=
  tokenize lines (default (ustr "word") token).

(** What the library's documentation says of [split] without a separator:
    the words are the maximal runs of characters that are no white space,
    in order.  [words_of line words] cuts [line] into white space, a word
    that ends at the end of the line or at white space, and the rest. *)
Inductive words_of : ustring -> list ustring -> Prop :=
  | words_of_blank (line : ustring) :
      forallb isspace line = true -> words_of line []
  | words_of_word (blank word rest : ustring) (words : list ustring) :
      forallb isspace blank = true ->
      word <> [] -> forallb (fun c => negb (isspace c)) word = true ->
      (match rest with [] => true | c :: _ => isspace c end) = true ->
      words_of rest words ->
      words_of (blank ++ word ++ rest) (word :: words).

(** What [list] returns of a string: its characters, one string each. *)
Definition chars_of (line : ustring) (chars : list ustring) : Prop :=
  Forall (fun p => length p = 1) chars /\ concat chars = line.

End Unicode.

(** * Part II. Properties *)

(** ** Reasoning about the loops *)

Section loops.
Context {S : Type} (I : nat -> S -> Prop) (body : nat -> S -> pyresult S).

(** An invariant that every iteration re-establishes holds when the loop
    ends, and the loop does end without raising. *)
Lemma for_each_inv (n a : nat) (s : S) :
  I a s ->
  (forall k s, a <= k < a + n -> I k s ->
     exists s', body k s = Ret s' /\ I (Datatypes.S k) s') ->
  exists s', for_each (seq a n) body s = Ret s' /\ I (a + n) s'.
Proof.
  revert a s. induction n as [|n IH]; intros a s Ha Hstep; simpl.
  - exists s. rewrite Nat.add_0_r. done.
  - destruct (Hstep a s) as (s1 & Hb & Hs1); [lia | done |].
    rewrite Hb. simpl.
    destruct (IH (Datatypes.S a) s1) as (s2 & Hrun & Hs2); [done | |].
    + intros k t Hk Hi. apply Hstep; [lia | done].
    + exists s2. split; [done|].
      by replace (a + Datatypes.S n) with (Datatypes.S a + n) by lia.
Qed.

Lemma for_range_inv (n : nat) (s : S) :
  I 0 s ->
  (forall k s, k < n -> I k s ->
     exists s', body k s = Ret s' /\ I (Datatypes.S k) s') ->
  exists s', for_range n body s = Ret s' /\ I n s'.
Proof.
  intros H0 Hstep. unfold for_range.
  destruct (for_each_inv n 0 s H0) as (s' & ? & ?); [|by exists s'].
  intros k t Hk. apply Hstep. lia.
Qed.

End loops.

(** The loop nest that fills every entry of [Y] with a value computed from
    its position: the result keeps the shape and holds that value at every
    position. *)
Lemma fill_loop (g : nat -> nat -> pyresult float32) (f : nat -> nat -> float32)
    (Y0 : tensor2) :
  (forall i j, i < shape0 Y0 -> j < shape1 Y0 -> g i j = Ret (f i j)) ->
  exists Y,
    for_range (shape0 Y0) (fun i Y =>
      for_range (shape1 Y) (fun j Y => v ← g i j; set2 Y i j v) Y) Y0 = Ret Y
    /\ shape0 Y = shape0 Y0 /\ shape1 Y = shape1 Y0
    /\ forall i j, i < shape0 Y0 -> j < shape1 Y0 -> at2 Y i j = f i j.
Proof.
  intros Hg.
  set (m := shape0 Y0). set (n := shape1 Y0).
  pose (I := fun (i : nat) (Y : tensor2) =>
    shape0 Y = m /\ shape1 Y = n /\
    forall p q, p < i -> q < n -> at2 Y p q = f p q).
  destruct (for_range_inv I
    (fun i Y => for_range (shape1 Y) (fun j Y => v ← g i j; set2 Y i j v) Y)
    m Y0) as (Y & Hrun & HY0 & HY1 & Hat).
  - repeat split; intros; lia.
  - intros i Y Hi (H0 & H1 & Hdone).
    pose (J := fun (j : nat) (Z : tensor2) =>
      shape0 Z = m /\ shape1 Z = n /\
      forall p q, (p < i \/ (p = i /\ q < j)) -> q < n -> at2 Z p q = f p q).
    destruct (for_range_inv J (fun j Y => v ← g i j; set2 Y i j v) (shape1 Y) Y)
      as (Z & Hrun & HZ0 & HZ1 & Hat).
    + repeat split; [done..|]. intros p q [Hp|[_ Hq]] Hqn; [auto | lia].
    + intros j Z Hj (HZ0 & HZ1 & Hat).
      rewrite Hg by (subst m n; lia). simpl.
      unfold set2. rewrite HZ0, HZ1.
      destruct (Nat.ltb_spec i m); [|lia].
      destruct (Nat.ltb_spec j n); [|lia]. simpl.
      eexists; split; [done|]. repeat split; simpl; [done..|].
      intros p q Hpq Hqn.
      destruct (Nat.eqb_spec p i), (Nat.eqb_spec q j); simpl; subst;
        try done; apply Hat; lia.
    + exists Z. split; [done|]. repeat split; [done..|].
      intros p q Hp Hq. apply Hat; lia.
  - exists Y. by repeat split.
Qed.

Lemma for_each_ext {S : Type} (b1 b2 : nat -> S -> pyresult S) (l : list nat) (s : S) :
  (forall i s, b1 i s = b2 i s) -> for_each l b1 s = for_each l b2 s.
Proof.
  intros H. revert s. induction l as [|i l IH]; intros s; simpl; [done|].
  rewrite H. destruct (b2 i s); simpl; [apply IH | done].
Qed.

Lemma bind_assoc {A B C : Type} (r : pyresult A) (f : A -> pyresult B)
    (g : B -> pyresult C) :
  (r ≫= f) ≫= g = r ≫= (fun a => f a ≫= g).
Proof. by destruct r. Qed.

Lemma for_each_skip {S : Type} (l : list nat) (s : S) :
  for_each l (fun _ s => Ret s) s = Ret s.
Proof. induction l as [|i l IH]; simpl; [done | apply IH]. Qed.

Lemma bidx_lt (extent i : nat) : i < extent -> bidx extent i = i.
Proof. unfold bidx. destruct (Nat.eqb_spec extent 1); lia. Qed.

Lemma bdim_same (a : nat) : bdim a a = Ret a.
Proof. unfold bdim. by rewrite Nat.eqb_refl. Qed.

(** Inside the extent a slice is not clamped. *)
Lemma slice2_inside (X : tensor2) (i h j w : nat) :
  i + h <= shape0 X -> j + w <= shape1 X ->
  slice2 X i (i + h) j (j + w) =
  T2 h w (fun a b => at2 X (i + a) (j + b)).
Proof.
  intros Hi Hj. unfold slice2.
  rewrite !Nat.min_l by lia. f_equal; lia.
Qed.

Lemma zip_with2_same (op : float32 -> float32 -> float32) (A B : tensor2) :
  shape0 A = shape0 B -> shape1 A = shape1 B ->
  exists P, zip_with2 op A B = Ret P /\
    shape0 P = shape0 A /\ shape1 P = shape1 A /\
    forall i j, i < shape0 A -> j < shape1 A ->
      at2 P i j = op (at2 A i j) (at2 B i j).
Proof.
  intros H0 H1. unfold zip_with2. rewrite <- H0, <- H1, !bdim_same. simpl.
  eexists; split; [done|]. repeat split. simpl. intros i j Hi Hj.
  by rewrite !bidx_lt.
Qed.

Lemma flat_map_seq_ext {A : Type} (f g : nat -> list A) (a n : nat) :
  (forall i, a <= i < a + n -> f i = g i) ->
  flat_map f (seq a n) = flat_map g (seq a n).
Proof.
  revert a. induction n as [|n IH]; intros a H; simpl; [done|].
  rewrite H by lia. f_equal. apply IH. intros i Hi. apply H. lia.
Qed.

Lemma map_seq_ext {A : Type} (f g : nat -> A) (a n : nat) :
  (forall i, a <= i < a + n -> f i = g i) ->
  map f (seq a n) = map g (seq a n).
Proof.
  revert a. induction n as [|n IH]; intros a H; simpl; [done|].
  rewrite H by lia. f_equal. apply IH. intros i Hi. apply H. lia.
Qed.

(** The entries of a tensor are read inside its shape only. *)
Lemma entries_ext (T : tensor2) (f : nat -> nat -> float32) :
  (forall i j, i < shape0 T -> j < shape1 T -> at2 T i j = f i j) ->
  entries T =
  flat_map (fun i => map (fun j => f i j) (seq 0 (shape1 T))) (seq 0 (shape0 T)).
Proof.
  intros H. unfold entries. apply flat_map_seq_ext. intros i Hi.
  apply map_seq_ext. intros j Hj. apply H; lia.
Qed.

Lemma elem_of_entries (T : tensor2) (x : float32) :
  x ∈ entries T <-> exists a b, a < shape0 T /\ b < shape1 T /\ x = at2 T a b.
Proof.
  unfold entries. rewrite list_elem_of_In, in_flat_map. split.
  - intros (a & Ha & Hx). apply in_map_iff in Hx as (b & <- & Hb).
    apply in_seq in Ha, Hb. exists a, b. repeat split; lia.
  - intros (a & b & Ha & Hb & ->). exists a. split; [apply in_seq; lia|].
    apply in_map_iff. exists b. split; [done|]. apply in_seq; lia.
Qed.

(** ** float32 arithmetic *)

Lemma valid_finite_cases (s : bool) (m : positive) (e : Z) :
  is_float32 (S754_finite s m e) ->
  (e <= 104)%Z /\
  ((Z.pos (digits2_pos m) = 24%Z /\ (-149 <= e)%Z)
   \/ ((Z.pos (digits2_pos m) < 24)%Z /\ e = (-149)%Z)).
Proof.
  unfold is_float32, valid_binary, bounded, canonical_mantissa, fexp, emin, prec32, emax32.
  intros [Hc Hb]%andb_prop. apply Z.eqb_eq in Hc. apply Z.leb_le in Hb.
  split; [lia|]. lia.
Qed.

Lemma div_eucl_exact (a b q : Z) :
  (0 < b)%Z -> a = (b * q)%Z -> Z.div_eucl a b = (q, 0%Z).
Proof.
  intros Hb ->. pose proof (Z_div_mod (b * q) b ltac:(lia)) as H.
  destruct (Z.div_eucl (b * q) b) as [q' r]. destruct H as [H1 H2].
  assert (q' = q) by nia. subst. f_equal. lia.
Qed.

Lemma fexp32 (k : Z) : fexp prec32 emax32 k = Z.max (k - 24) (-149).
Proof. reflexivity. Qed.

Lemma div_core_normal (m : positive) (e : Z) :
  Z.pos (digits2_pos m) = 24%Z -> (-149 < e)%Z ->
  SFdiv_core_binary prec32 emax32 (Z.pos m) e 8388608 (-23)
  = (Z.pos m~0, (e - 1)%Z, loc_Exact).
Proof.
  intros Hd He. unfold SFdiv_core_binary. cbn [Zdigits2]. rewrite Hd.
  change (Z.pos (digits2_pos 8388608)) with 24%Z. rewrite fexp32.
  replace (Z.min (Z.max (24 + e - (24 + -23) - 24) (-149)) (e - -23))%Z
    with (e - 1)%Z by lia.
  replace (e - -23 - (e - 1))%Z with 24%Z by lia.
  rewrite (div_eucl_exact _ _ (Z.pos m~0)); [done | done |].
  rewrite Z.shiftl_mul_pow2 by done. lia.
Qed.

Lemma div_core_low (m : positive) :
  (Z.pos (digits2_pos m) <= 24)%Z ->
  SFdiv_core_binary prec32 emax32 (Z.pos m) (-149) 8388608 (-23)
  = (Z.pos m, (-149)%Z, loc_Exact).
Proof.
  intros Hd. unfold SFdiv_core_binary. cbn [Zdigits2].
  change (Z.pos (digits2_pos 8388608)) with 24%Z. rewrite fexp32.
  replace (Z.min (Z.max (Z.pos (digits2_pos m) + -149 - (24 + -23) - 24) (-149))
                 (-149 - -23))%Z with (-149)%Z by lia.
  change (-149 - -23 - -149)%Z with 23%Z.
  rewrite (div_eucl_exact _ _ (Z.pos m)); [done | done |].
  rewrite Z.shiftl_mul_pow2 by done. lia.
Qed.

(** Rounding a float32 gives it back. *)
Lemma round_aux_canonical (s : bool) (m : positive) (e : Z) :
  is_float32 (S754_finite s m e) ->
  binary_round_aux prec32 emax32 s (Z.pos m) e loc_Exact = S754_finite s m e.
Proof.
  intros Hv. pose proof Hv as [Hb Hc]%valid_finite_cases.
  unfold binary_round_aux, shr_fexp. cbn [Zdigits2 shr_record_of_loc]. rewrite fexp32.
  replace (Z.max (Z.pos (digits2_pos m) + e - 24) (-149) - e)%Z with 0%Z by lia.
  cbn [shr shr_m loc_of_shr_record round_nearest_even Zdigits2 shr_record_of_loc].
  rewrite fexp32.
  replace (Z.max (Z.pos (digits2_pos m) + e - 24) (-149) - e)%Z with 0%Z by lia.
  cbn [shr shr_m]. change (emax32 - prec32)%Z with 104%Z.
  by rewrite (proj2 (Z.leb_le e 104) Hb).
Qed.

Lemma round_aux_doubled (s : bool) (m : positive) (e : Z) :
  Z.pos (digits2_pos m) = 24%Z -> (-149 < e <= 104)%Z ->
  binary_round_aux prec32 emax32 s (Z.pos m~0) (e - 1) loc_Exact = S754_finite s m e.
Proof.
  intros Hd He.
  unfold binary_round_aux, shr_fexp. cbn [Zdigits2 shr_record_of_loc digits2_pos].
  rewrite fexp32, Pos2Z.inj_succ, Hd.
  replace (Z.max (Z.succ 24 + (e - 1) - 24) (-149) - (e - 1))%Z with 1%Z by lia.
  cbn [shr SpecFloat.iter_pos shr_1 orb shr_m loc_of_shr_record round_nearest_even
       Zdigits2 shr_record_of_loc].
  rewrite fexp32, Hd.
  replace (Z.max (24 + (e - 1 + 1) - 24) (-149) - (e - 1 + 1))%Z with 0%Z by lia.
  cbn [shr shr_m]. change (emax32 - prec32)%Z with 104%Z.
  rewrite (proj2 (Z.leb_le (e - 1 + 1) 104)) by lia. f_equal. lia.
Qed.

(** Division by 1.0 returns the dividend. *)
Lemma fdiv_one (x : float32) : is_float32 x -> fdiv x (F32 1) = x.
Proof.
  destruct x as [s|s| |s m e]; intros Hv; [by destruct s | by destruct s | done |].
  pose proof Hv as [Hb Hc]%valid_finite_cases.
  change (F32 1) with (S754_finite false 8388608 (-23)).
  unfold fdiv, SFdiv. rewrite xorb_false_r.
  destruct (decide (e = -149)%Z) as [->|Hne].
  - rewrite div_core_low by lia. by apply round_aux_canonical.
  - destruct Hc as [[Hd He]|[_ ?]]; [|done].
    rewrite div_core_normal by lia. apply round_aux_doubled; lia.
Qed.

Lemma fadd_zero_r (x : float32) : same_number (fadd x F0) x.
Proof. destruct x as [[]|[]| |s m e]; first [by left | by right]. Qed.

Lemma fadd_zero_l (x : float32) : same_number (fadd F0 x) x.
Proof. destruct x as [[]|[]| |s m e]; first [by left | by right]. Qed.

Lemma same_number_refl (x : float32) : same_number x x.
Proof. by left. Qed.

Lemma same_number_trans (x y z : float32) :
  same_number x y -> same_number y z -> same_number x z.
Proof.
  intros [->|[Hx Hy]] [->|[Hy' Hz]]; [by left | by right | by right | by right].
Qed.

(** The order of the finite numbers and the infinities. *)
Lemma fle_refl (x : float32) : is_nan x = false -> fle x x = true.
Proof.
  destruct x as [s|[]| |[] m e]; intros H; try done;
    unfold fle, SFleb, SFcompare; rewrite Z.compare_refl;
    change (Pos.compare_cont Eq m m) with (Pos.compare m m);
    by rewrite Pos.compare_refl.
Qed.

Ltac order_cases :=
  repeat match goal with
  | |- context [Z.compare ?a ?b] => destruct (Z.compare_spec a b)
  | H : context [Z.compare ?a ?b] |- _ => destruct (Z.compare_spec a b)
  | |- context [Pos.compare ?a ?b] => destruct (Pos.compare_spec a b)
  | H : context [Pos.compare ?a ?b] |- _ => destruct (Pos.compare_spec a b)
  end.

Lemma fle_trans (x y z : float32) :
  fle x y = true -> fle y z = true -> fle x z = true.
Proof.
  unfold fle, SFleb, SFcompare.
  destruct x as [sx|[]| |[] mx ex], y as [sy|[]| |[] my ey], z as [sz|[]| |[] mz ez];
    try done;
    change (Pos.compare_cont Eq ?a ?b) with (Pos.compare a b);
    intros H1 H2; order_cases; simpl in *; try done; try lia.
Qed.

Lemma flt_false_fle (x y : float32) :
  is_nan x = false -> is_nan y = false -> flt x y = false -> fle y x = true.
Proof.
  unfold flt, fle, SFltb, SFleb, SFcompare.
  destruct x as [sx|[]| |[] mx ex], y as [sy|[]| |[] my ey]; try done;
    try (by destruct sx); try (by destruct sy);
    change (Pos.compare_cont Eq ?a ?b) with (Pos.compare a b);
    intros _ _ H; order_cases; simpl in *; try done; try lia.
Qed.

Lemma flt_true_fle (x y : float32) : flt x y = true -> fle x y = true.
Proof.
  unfold flt, fle, SFltb, SFleb. by destruct (SFcompare x y) as [[]|].
Qed.

Lemma fmax_nan (x y : float32) : is_nan (fmax x y) = is_nan x || is_nan y.
Proof.
  unfold fmax. destruct (is_nan x) eqn:Hx, (is_nan y) eqn:Hy; simpl; try done.
  by destruct (flt x y).
Qed.

Lemma fmax_spec (x y : float32) :
  is_nan x = false -> is_nan y = false ->
  (fmax x y = x \/ fmax x y = y)
  /\ fle x (fmax x y) = true /\ fle y (fmax x y) = true.
Proof.
  intros Hx Hy. unfold fmax. rewrite Hx, Hy. simpl.
  destruct (flt x y) eqn:E.
  - split; [by right|]. split; [by apply flt_true_fle | by apply fle_refl].
  - split; [by left|]. split; [by apply fle_refl | by apply flt_false_fle].
Qed.

(** The maximum the framework computes is the maximum of the entries. *)
Lemma foldl_fmax_spec (l : list float32) (x : float32) :
  is_max (x :: l) (foldl fmax x l).
Proof.
  split; [done|]. revert x. induction l as [|z l IH]; intros x.
  - simpl. rewrite orb_false_r. split.
    + by destruct x.
    + intros Hx. split; [left|]. intros y Hy.
      apply list_elem_of_singleton in Hy as ->. by apply fle_refl.
  - destruct (IH (fmax x z)) as [Hnan Hmax]. simpl in Hnan, Hmax.
    rewrite fmax_nan in Hnan, Hmax. cbn [foldl existsb]. split.
    + intros H. apply Hnan. by rewrite <- orb_assoc.
    + intros H. apply orb_false_elim in H as [Hx H].
      apply orb_false_elim in H as [Hz H].
      destruct Hmax as [Hin Hub]; [by rewrite Hx, Hz, H|].
      destruct (fmax_spec x z Hx Hz) as (Hc & Hlx & Hlz). split.
      * apply elem_of_cons in Hin as [->|Hin].
        -- destruct Hc as [-> | ->]; [left | right; left].
        -- by do 2 right.
      * intros y Hy. apply elem_of_cons in Hy as [->|Hy].
        -- eapply fle_trans; [exact Hlx | apply Hub; left].
        -- apply elem_of_cons in Hy as [->|Hy].
           ++ eapply fle_trans; [exact Hlz | apply Hub; left].
           ++ apply Hub. by right.
Qed.

(** ** Sums *)

Lemma seq_sum_snoc (l : list float32) (x : float32) :
  seq_sum (l ++ [x]) = fadd (seq_sum l) x.
Proof. unfold seq_sum. by rewrite foldl_app. Qed.


(** The sum of one entry is that entry, up to the sign of zero. *)
Lemma sum_of_single (l : list float32) (r : float32) :
  sum_of l r ->
  (l = [] -> r = F0) /\ (forall x, l = [x] -> same_number r x).
Proof.
  induction 1 as [|x|l1 l2 r1 r2 _ [IH1 IH1'] _ [IH2 IH2']|l l' r Hp _ [IH IH']].
  - split; [done|]. intros x Hx. done.
  - split; [done|]. intros y [= <-]. by left.
  - split.
    + intros [-> ->]%app_eq_nil. by rewrite IH1, IH2.
    + intros x Hx. apply app_eq_unit in Hx as [[-> ->]|[-> ->]].
      * rewrite IH1 by done.
        eapply same_number_trans; [apply fadd_zero_l | by apply IH2'].
      * rewrite IH2 by done.
        eapply same_number_trans; [apply fadd_zero_r | by apply IH1'].
  - split.
    + intros ->. apply IH. by apply Permutation_nil_r in Hp.
    + intros x ->. apply IH'. by apply Permutation_singleton_r in Hp.
Qed.


(** ** [corr2d] *)

Section corr2d_properties.
Context {fw : Framework}.

(** [corr2d] succeeds as soon as the requested extents are not negative,
    which also covers a kernel one larger than the input (empty result). *)
Lemma corr2d_general (X K : tensor2) :
  shape0 K <= shape0 X + 1 -> shape1 K <= shape1 X + 1 ->
  exists Y, corr2d X K = Ret Y
    /\ shape0 Y = shape0 X + 1 - shape0 K
    /\ shape1 Y = shape1 X + 1 - shape1 K
    /\ forall i j, i < shape0 Y -> j < shape1 Y -> at2 Y i j = corr2d_entry X K i j.
Proof.
  intros Hh Hw. unfold corr2d, zeros.
  rewrite !bool_decide_eq_false_2 by lia. simpl.
  set (Y0 := T2 _ _ _).
  destruct (fill_loop
    (fun i j => P ← tmul (slice2 X i (i + shape0 K) j (j + shape1 K)) K; Ret (tsum P))
    (corr2d_entry X K) Y0)
    as (Y & Hrun & H0 & H1 & Hat).
  - subst Y0; simpl. intros i j Hi Hj.
    rewrite slice2_inside by lia.
    destruct (zip_with2_same fmul
      (T2 (shape0 K) (shape1 K) (fun a b => at2 X (i + a) (j + b))) K)
      as (P & HP & HP0 & HP1 & HPat); [done..|].
    unfold tmul. rewrite HP. simpl in *. f_equal. unfold tsum, corr2d_entry.
    f_equal. rewrite (entries_ext P
      (fun a b => fmul (at2 X (i + a) (j + b)) (at2 K a b))).
    + by rewrite HP0, HP1.
    + intros a b Ha Hb. apply HPat; lia.
  - exists Y. split.
    + rewrite <- Hrun. unfold for_range. apply for_each_ext. intros i Z.
      apply for_each_ext. intros j Z'. by rewrite bind_assoc.
    + subst Y0; simpl in *. rewrite H0, H1.
      split; [lia|]. split; [lia|]. intros i j Hi Hj. apply Hat; lia.
Qed.


(** C1. For an input [X] of shape (n_h, n_w) and a kernel [K] of shape
    (k_h, k_w) with k_h <= n_h and k_w <= n_w, [corr2d X K] returns a tensor
    of shape (n_h - k_h + 1, n_w - k_w + 1) whose entry (i, j) is the sum
    over a < k_h, b < k_w of X[i+a, j+b] * K[a, b]: the float32 products,
    added by the framework's [sum]. *)
Theorem corr2d_cross_correlation (X K : tensor2) :
  shape0 K <= shape0 X -> shape1 K <= shape1 X ->
  exists Y, corr2d X K = Ret Y
    /\ shape0 Y = shape0 X - shape0 K + 1
    /\ shape1 Y = shape1 X - shape1 K + 1
    /\ forall i j, i < shape0 Y -> j < shape1 Y ->
         at2 Y i j = tensor_sum (window_products X K i j)
         /\ sum_of
              (flat_map (fun a => map (fun b =>
                 fmul (at2 X (i + a) (j + b)) (at2 K a b))
                 (seq 0 (shape1 K))) (seq 0 (shape0 K)))
              (at2 Y i j).
Proof.
  intros Hh Hw.
  destruct (corr2d_general X K) as (Y & Hrun & H0 & H1 & Hat); [lia..|].
  exists Y. split; [done|]. split; [lia|]. split; [lia|].
  intros i j Hi Hj. rewrite Hat by done. split; [done|].
  apply tensor_sum_spec.
Qed.

End corr2d_properties.

Lemma corr2d_cross_correlation_witness :
  exists Y, corr2d (fw := plain) X33 K22 = Ret Y
    /\ shape0 Y = shape0 X33 - shape0 K22 + 1
    /\ shape1 Y = shape1 X33 - shape1 K22 + 1
    /\ forall i j, i < shape0 Y -> j < shape1 Y ->
         at2 Y i j = tensor_sum (Framework := plain) (window_products X33 K22 i j)
         /\ sum_of
              (flat_map (fun a => map (fun b =>
                 fmul (at2 X33 (i + a) (j + b)) (at2 K22 a b))
                 (seq 0 (shape1 K22))) (seq 0 (shape0 K22)))
              (at2 Y i j).
Proof. apply (corr2d_cross_correlation (fw := plain) X33 K22); simpl; lia. Defined.

(** The notebook's check of [corr2d], and an input on which the sum of the
    products rounds: 2^24 + 1 is stored as 2^24. *)
Example corr2d_notebook :
  result_rows (corr2d (fw := plain) X33 K22)
  = Ret [[F32 19; F32 25]; [F32 37; F32 43]].
Proof. vm_compute. reflexivity. Qed.

Example corr2d_rounds :
  result_rows (corr2d (fw := plain) X12_big K12_ones) = Ret [[F32 16777216]].
Proof. vm_compute. reflexivity. Qed.

(** *** [trans_conv] *)

Lemma trans_conv_step (X K Y : tensor2) (i j : nat) :
  i < shape0 X -> j < shape1 X ->
  shape0 Y + 1 = shape0 X + shape0 K ->
  shape1 Y + 1 = shape1 X + shape1 K ->
  exists Y',
    (x ← get2 X i j;
     iadd_slice2 Y i (i + shape0 K) j (j + shape1 K) (tscale x K)) = Ret Y'
    /\ shape0 Y' = shape0 Y /\ shape1 Y' = shape1 Y
    /\ forall p q, at2 Y' p q =
         if in_window i j (shape0 K) (shape1 K) p q
         then fadd (at2 Y p q) (fmul (at2 X i j) (at2 K (p - i) (q - j)))
         else at2 Y p q.
Proof.
  intros Hi Hj H0 H1. unfold get2.
  destruct (Nat.ltb_spec i (shape0 X)); [|lia].
  destruct (Nat.ltb_spec j (shape1 X)); [|lia]. simpl.
  unfold iadd_slice2, slice2, fits. simpl.
  replace ((i + shape0 K) `min` shape0 Y - i `min` shape0 Y) with (shape0 K) by lia.
  replace ((j + shape1 K) `min` shape1 Y - j `min` shape1 Y) with (shape1 K) by lia.
  rewrite !Nat.eqb_refl. simpl.
  eexists; split; [done|]. repeat split. simpl. intros p q.
  rewrite !(Nat.min_l i), !(Nat.min_l j) by lia.
  unfold in_window.
  destruct (Nat.leb_spec i p), (Nat.ltb_spec p (i + shape0 K)),
    (Nat.leb_spec j q), (Nat.ltb_spec q (j + shape1 K)); simpl; try done.
  by rewrite !bidx_lt by lia.
Qed.

Lemma seq_S_end (n : nat) : seq 0 (S n) = seq 0 n ++ [n].
Proof. by rewrite seq_S. Qed.

(** [trans_conv] succeeds as soon as the requested extents are not
    negative, and then every entry is the sum, in the order of the loops,
    of the products that reach it. *)
Lemma trans_conv_general (X K : tensor2) :
  1 <= shape0 X + shape0 K -> 1 <= shape1 X + shape1 K ->
  trans_conv_returns X K.
Proof.
  intros Hh Hw. unfold trans_conv_returns, trans_conv, zeros.
  rewrite !bool_decide_eq_false_2 by lia. simpl.
  set (Y0 := T2 _ _ _).
  set (cell := fun p q i j =>
    if in_window i j (shape0 K) (shape1 K) p q
    then [fmul (at2 X i j) (at2 K (p - i) (q - j))] else []).
  set (row := fun p q i => flat_map (cell p q i) (seq 0 (shape1 X))).
  pose (I := fun (i : nat) (Y : tensor2) =>
    shape0 Y = shape0 Y0 /\ shape1 Y = shape1 Y0 /\
    forall p q, at2 Y p q = seq_sum (flat_map (row p q) (seq 0 i))).
  destruct (for_range_inv I
    (fun i Y => for_range (shape1 X) (fun j Y =>
       x ← get2 X i j;
       iadd_slice2 Y i (i + shape0 K) j (j + shape1 K) (tscale x K)) Y)
    (shape0 X) Y0) as (Y & Hrun & HY0 & HY1 & Hat).
  - by repeat split.
  - intros i Y Hi (H0 & H1 & Hdone).
    pose (J := fun (j : nat) (Y' : tensor2) =>
      shape0 Y' = shape0 Y0 /\ shape1 Y' = shape1 Y0 /\
      forall p q, at2 Y' p q =
        seq_sum (flat_map (row p q) (seq 0 i) ++ flat_map (cell p q i) (seq 0 j))).
    destruct (for_range_inv J (fun j Y =>
       x ← get2 X i j;
       iadd_slice2 Y i (i + shape0 K) j (j + shape1 K) (tscale x K))
      (shape1 X) Y) as (Y' & Hrun & HZ0 & HZ1 & Hat).
    + repeat split; [done..|]. intros p q. simpl. by rewrite app_nil_r, Hdone.
    + intros j Y' Hj (HZ0 & HZ1 & Hat).
      destruct (trans_conv_step X K Y' i j) as (Y'' & Hs & Hs0 & Hs1 & Hsat);
        [done | done | | | ].
      * rewrite HZ0. subst Y0; simpl. lia.
      * rewrite HZ1. subst Y0; simpl. lia.
      * exists Y''. split; [done|]. repeat split; [congruence..|].
        intros p q. rewrite Hsat, Hat, seq_S_end, flat_map_app. simpl.
        rewrite app_nil_r.
        assert (cell p q i j =
                if in_window i j (shape0 K) (shape1 K) p q
                then [fmul (at2 X i j) (at2 K (p - i) (q - j))] else []) as ->
          by done.
        destruct (in_window i j (shape0 K) (shape1 K) p q).
        -- by rewrite app_assoc, seq_sum_snoc.
        -- by rewrite app_nil_r.
    + exists Y'. split; [done|]. repeat split; [done..|].
      intros p q. rewrite Hat, seq_S_end, flat_map_app. simpl.
      by rewrite app_nil_r.
  - exists Y. split; [done|]. rewrite HY0, HY1. subst Y0; simpl.
    split; [lia|]. split; [lia|]. intros p q _ _. apply Hat.
Qed.


(** C2, as amended: when neither axis is empty in both [X] and [K],
    [trans_conv X K] returns a tensor of shape (n_h + k_h - 1, n_w + k_w - 1)
    whose entry (p, q) is the sum over the input positions (i, j) with
    i <= p < i + k_h and j <= q < j + k_w of X[i, j] * K[p - i, q - j]: the
    float32 products, added to the entry in the order of the loops. *)
Theorem trans_conv_transposed_convolution (X K : tensor2) :
  1 <= shape0 X + shape0 K -> 1 <= shape1 X + shape1 K ->
  trans_conv_returns X K.
Proof. apply trans_conv_general. Qed.

Lemma trans_conv_transposed_convolution_witness : trans_conv_returns X22 K22.
Proof. apply (trans_conv_transposed_convolution X22 K22); simpl; lia. Defined.

(** The notebook's check of [trans_conv]. *)
Example trans_conv_notebook :
  result_rows (trans_conv X22 K22) =
  Ret [[F32 0; F32 0; F32 1]; [F32 0; F32 4; F32 6]; [F32 4; F32 12; F32 9]].
Proof. vm_compute. reflexivity. Qed.

(** C2 as stated fails when [X] and [K] are both empty along an axis: the
    requested extent is -1 and [torch.zeros] raises. *)
Lemma trans_conv_empty_axis_raises :
  ~ trans_conv_returns (of_rows 1 []) (of_rows 1 []).
Proof. intros (Y & H & _). vm_compute in H. discriminate. Qed.

(** *** [pool2d] *)

Lemma entries_window (X : tensor2) (i j p_h p_w : nat) :
  entries (T2 p_h p_w (fun a b => at2 X (i + a) (j + b))) = window X i j p_h p_w.
Proof. reflexivity. Qed.

Lemma flat_map_nil {A B : Type} (f : A -> list B) (l : list A) :
  (forall x, f x = []) -> flat_map f l = [].
Proof. intros H. induction l as [|x l IH]; simpl; [done|]. by rewrite H, IH. Qed.

(** A window without rows or without columns has no entries. *)
Lemma window_empty (X : tensor2) (i j p_h p_w : nat) :
  p_h = 0 \/ p_w = 0 -> window X i j p_h p_w = [].
Proof.
  intros [-> | ->]; unfold window; [done|]. by apply flat_map_nil.
Qed.

Lemma window_nonempty (X : tensor2) (i j p_h p_w : nat) :
  1 <= p_h -> 1 <= p_w -> window X i j p_h p_w <> [].
Proof.
  intros Hh Hw. unfold window.
  destruct p_h as [|p_h]; [lia|]. destruct p_w as [|p_w]; [lia|]. done.
Qed.

(** [T.max()] of a window with entries is their maximum. *)
Lemma tmax_window (X : tensor2) (i j p_h p_w : nat) :
  1 <= p_h -> 1 <= p_w ->
  exists v, tmax (T2 p_h p_w (fun a b => at2 X (i + a) (j + b))) = Ret v
    /\ is_max (window X i j p_h p_w) v.
Proof.
  intros Hh Hw. unfold tmax. rewrite entries_window.
  pose proof (window_nonempty X i j p_h p_w Hh Hw) as Hne.
  destruct (window X i j p_h p_w) as [|x l]; [done|].
  eexists. split; [done|]. apply foldl_fmax_spec.
Qed.

Section pool2d_properties.
Context {fw : Framework}.

(** [pool2d] returns whenever the requested extents are not negative and,
    in mode 'max', no window it reads is empty; every entry is then as the
    mode says. *)
Lemma pool2d_general (X : tensor2) (p_h p_w : nat) (mode : string) :
  p_h <= shape0 X + 1 -> p_w <= shape1 X + 1 ->
  (mode = "max"%string ->
   (1 <= p_h /\ 1 <= p_w) \/ p_h = shape0 X + 1 \/ p_w = shape1 X + 1) ->
  exists Y, pool2d X (p_h, p_w) mode = Ret Y
    /\ shape0 Y = shape0 X + 1 - p_h
    /\ shape1 Y = shape1 X + 1 - p_w
    /\ forall i j, i < shape0 Y -> j < shape1 Y ->
         if String.eqb mode "max" then is_max (window X i j p_h p_w) (at2 Y i j)
         else if String.eqb mode "avg" then at2 Y i j = window_mean X i j p_h p_w
         else at2 Y i j = F0.
Proof.
  intros Hh Hw Hpos. unfold pool2d, zeros.
  rewrite !bool_decide_eq_false_2 by lia. simpl.
  set (Y0 := T2 _ _ _).
  assert (shape0 Y0 = shape0 X + 1 - p_h) as E0 by (subst Y0; simpl; lia).
  assert (shape1 Y0 = shape1 X + 1 - p_w) as E1 by (subst Y0; simpl; lia).
  destruct (String.eqb_spec mode "max") as [Hmax|Hnmax];
    [|destruct (String.eqb_spec mode "avg") as [Havg|Hnavg]].
  - assert (forall i j, i < shape0 Y0 -> j < shape1 Y0 ->
      exists v, tmax (slice2 X i (i + p_h) j (j + p_w)) = Ret v
        /\ is_max (window X i j p_h p_w) v) as Hwin.
    { intros i j Hi Hj. rewrite slice2_inside by lia.
      apply tmax_window; destruct (Hpos Hmax) as [[? ?]|[?|?]]; lia. }
    pose (f := fun i j =>
      match tmax (slice2 X i (i + p_h) j (j + p_w)) with
      | Ret v => v | Raise _ => F0 end).
    destruct (fill_loop (fun i j => tmax (slice2 X i (i + p_h) j (j + p_w))) f Y0)
      as (Y & Hrun & HY0 & HY1 & Hat).
    { intros i j Hi Hj. unfold f.
      by destruct (Hwin i j Hi Hj) as (v & -> & _). }
    exists Y. split; [exact Hrun|]. split; [lia|]. split; [lia|].
    intros i j Hi Hj. rewrite Hat by lia. unfold f.
    by destruct (Hwin i j) as (v & -> & ?); [lia..|].
  - destruct (fill_loop
      (fun i j => Ret (tmean (slice2 X i (i + p_h) j (j + p_w))))
      (fun i j => window_mean X i j p_h p_w) Y0) as (Y & Hrun & HY0 & HY1 & Hat).
    { intros i j Hi Hj. rewrite slice2_inside by lia. done. }
    exists Y. split; [exact Hrun|]. split; [lia|]. split; [lia|].
    intros i j Hi Hj. apply Hat; lia.
  - exists Y0. split.
    + unfold for_range.
      trans (for_each (seq 0 (shape0 Y0)) (fun _ Y => Ret Y) Y0);
        [|apply for_each_skip].
      apply for_each_ext. intros i Y. apply for_each_skip.
    + split; [done|]. split; [done|]. done.
Qed.


Lemma pool2d_max_empty_window (X : tensor2) (p_h p_w : nat) :
  p_h = 0 \/ p_w = 0 -> p_h <= shape0 X -> p_w <= shape1 X ->
  pool2d X (p_h, p_w) "max" = Raise RuntimeError.
Proof.
  intros Hz Hh Hw. unfold pool2d, zeros.
  rewrite !bool_decide_eq_false_2 by lia. simpl.
  replace (Z.to_nat (Z.of_nat (shape0 X) - Z.of_nat p_h + 1))
    with (S (shape0 X - p_h)) by lia.
  replace (Z.to_nat (Z.of_nat (shape1 X) - Z.of_nat p_w + 1))
    with (S (shape1 X - p_w)) by lia.
  unfold for_range. cbn [seq for_each shape0 shape1].
  assert (tmax (slice2 X 0 (0 + p_h) 0 (0 + p_w)) = Raise RuntimeError) as ->; [|done].
  rewrite slice2_inside by lia. unfold tmax.
  by rewrite entries_window, window_empty.
Qed.

(** C10, as amended: for a pool size (p_h, p_w) with p_h <= n_h and
    p_w <= n_w, and with p_h >= 1 and p_w >= 1 when the mode is 'max',
    [pool2d] returns a tensor of shape (n_h - p_h + 1, n_w - p_w + 1); with
    mode 'max' each entry is the maximum of its window, with mode 'avg' the
    mean of its window, that is its float32 sum divided by its size (NaN
    for an empty window), and with any other mode the call raises nothing
    and returns the all-zeros tensor of that shape. *)
Theorem pool2d_modes (X : tensor2) (p_h p_w : nat) (mode : string) :
  p_h <= shape0 X -> p_w <= shape1 X ->
  (mode = "max"%string -> 1 <= p_h /\ 1 <= p_w) ->
  pool2d_returns X p_h p_w mode.
Proof.
  intros Hh Hw Hpos.
  destruct (pool2d_general X p_h p_w mode) as (Y & Hrun & H0 & H1 & Hat);
    [lia | lia | by left; apply Hpos |].
  exists Y. split; [done|]. split; [lia|]. split; [lia|]. done.
Qed.

End pool2d_properties.

Lemma pool2d_modes_witness : pool2d_returns (fw := plain) X33 2 2 "max".
Proof. apply (pool2d_modes (fw := plain) X33 2 2 "max"); simpl; lia. Defined.

(** The notebook's checks of [pool2d], an unknown mode, and mode 'avg' on
    empty windows and on a window whose sum rounds. *)
Example pool2d_notebook_max :
  result_rows (pool2d (fw := plain) X33 (2, 2) "max")
  = Ret [[F32 4; F32 5]; [F32 7; F32 8]].
Proof. vm_compute. reflexivity. Qed.

Example pool2d_notebook_avg :
  result_rows (pool2d (fw := plain) X33 (2, 2) "avg")
  = Ret [[F32 2; F32 3]; [F32 5; F32 6]].
Proof. vm_compute. reflexivity. Qed.

Example pool2d_unknown_mode :
  result_rows (pool2d (fw := plain) X33 (2, 2) "sum")
  = Ret [[F32 0; F32 0]; [F32 0; F32 0]].
Proof. vm_compute. reflexivity. Qed.

Example pool2d_empty_window_avg :
  result_rows (pool2d (fw := plain) X22 (0, 0) "avg")
  = Ret [[fnan; fnan; fnan]; [fnan; fnan; fnan]; [fnan; fnan; fnan]].
Proof. vm_compute. reflexivity. Qed.

Example pool2d_avg_rounds :
  result_rows (pool2d (fw := plain) X12_big (1, 2) "avg") = Ret [[F32 8388608]].
Proof. vm_compute. reflexivity. Qed.

(** C10 as stated allows an empty pooling window, p_h = 0 <= n_h; in mode
    'max' the framework's [max] then raises on the empty window. *)
Lemma pool2d_empty_window_raises :
  0 <= shape0 X33 /\ 0 <= shape1 X33
  /\ ~ pool2d_returns (fw := plain) X33 0 0 "max".
Proof.
  split; [simpl; lia|]. split; [simpl; lia|].
  intros (Y & H & _). rewrite pool2d_max_empty_window in H; [done | by left | simpl; lia..].
Qed.

(** *** Several channels: [corr2d_multi_in] and [corr2d_multi_in_out] *)

Lemma foldM_map_seq {A S : Type} (body : S -> A -> pyresult S) (F : nat -> A)
    (a n : nat) (s : S) :
  foldM body s (map F (seq a n)) = for_each (seq a n) (fun c s => body s (F c)) s.
Proof.
  revert a s. induction n as [|n IH]; intros a s; simpl; [done|].
  destruct (body s (F a)); simpl; [apply IH | done].
Qed.

Lemma zip_map_seq_min {A B : Type} (f : nat -> A) (g : nat -> B) (n m : nat) :
  zip (map f (seq 0 n)) (map g (seq 0 m)) =
  map (fun c => (f c, g c)) (seq 0 (n `min` m)).
Proof.
  generalize 0 as a. revert m.
  induction n as [|n IH]; intros [|m] a; simpl; try done. by rewrite IH.
Qed.

Lemma mapM_py_map_ret {A B C : Type} (f : B -> pyresult C) (F : A -> B)
    (g : A -> C) (l : list A) :
  (forall x, x ∈ l -> f (F x) = Ret (g x)) -> mapM_py f (map F l) = Ret (map g l).
Proof.
  induction l as [|x l IH]; intros H; simpl; [done|].
  rewrite H by left. simpl. rewrite IH; [done|].
  intros y Hy. apply H. by right.
Qed.


Lemma nth_map_seq {A : Type} (f : nat -> A) (n o : nat) (d : A) :
  o < n -> nth o (map f (seq 0 n)) d = f o.
Proof.
  intros Ho. rewrite (nth_indep _ d (f 0)) by (rewrite length_map, length_seq; lia).
  by rewrite map_nth, seq_nth.
Qed.

(** Python's [sum] adds the next term to what it has. *)
Lemma py_sum_snoc (f : nat -> float32) (n : nat) :
  1 <= n ->
  py_sum (map f (seq 0 (S n))) = fadd (py_sum (map f (seq 0 n))) (f n).
Proof.
  intros Hn. destruct n as [|n]; [lia|].
  rewrite (seq_S_end (S n)), map_app.
  cbn [seq map app py_sum]. by rewrite foldl_app.
Qed.

Section channel_properties.
Context {fw : Framework}.

Lemma corr2d_multi_in_general (X K : tensor3) :
  let c := dim3_0 X `min` dim3_0 K in
  1 <= c -> dim3_1 K <= dim3_1 X + 1 -> dim3_2 K <= dim3_2 X + 1 ->
  exists A, corr2d_multi_in X K = Ret (PTensor A)
    /\ shape0 A = dim3_1 X + 1 - dim3_1 K
    /\ shape1 A = dim3_2 X + 1 - dim3_2 K
    /\ forall i j, i < shape0 A -> j < shape1 A ->
         at2 A i j = py_sum (map (fun ch => channel_entry X K ch i j) (seq 0 c)).
Proof.
  cbv zeta. intros Hc Hh Hw. unfold corr2d_multi_in, unbind3.
  rewrite zip_map_seq_min, foldM_map_seq.
  set (h := dim3_1 X + 1 - dim3_1 K). set (w := dim3_2 X + 1 - dim3_2 K).
  pose (I := fun (n : nat) (acc : pyval) =>
    (n = 0 /\ acc = PInt 0) \/
    (1 <= n /\ exists A, acc = PTensor A
       /\ shape0 A = h /\ shape1 A = w
       /\ forall i j, i < h -> j < w ->
            at2 A i j = py_sum (map (fun ch => channel_entry X K ch i j) (seq 0 n)))).
  destruct (for_each_inv I
    (fun c acc => y ← corr2d (T2 (dim3_1 X) (dim3_2 X) (at3 X c))
                             (T2 (dim3_1 K) (dim3_2 K) (at3 K c));
                  py_add acc (PTensor y))
    (dim3_0 X `min` dim3_0 K) 0 (PInt 0)) as (acc & Hrun & Hacc).
  - by left.
  - intros c acc _ Hacc.
    destruct (corr2d_general (T2 (dim3_1 X) (dim3_2 X) (at3 X c))
                             (T2 (dim3_1 K) (dim3_2 K) (at3 K c)))
      as (y & -> & Hy0 & Hy1 & Hyat); [simpl; lia..|].
    simpl in Hy0, Hy1. fold h in Hy0. fold w in Hy1.
    assert (forall i j, i < h -> j < w -> at2 y i j = channel_entry X K c i j) as Hy.
    { intros i j Hi Hj. rewrite Hyat by lia. done. }
    cbn [mbind pyresult_bind].
    destruct Hacc as [[-> ->] | (Hn & A & -> & HA0 & HA1 & HAat)].
    + simpl. eexists; split; [done|]. right. split; [lia|].
      eexists; split; [done|]. simpl. split; [done|]. split; [done|].
      intros i j Hi Hj. rewrite Hy by done. reflexivity.
    + simpl. destruct (zip_with2_same fadd A y) as (P & HP & HP0 & HP1 & HPat);
        [lia..|].
      unfold tadd. rewrite HP. simpl. eexists; split; [done|]. right.
      split; [lia|]. exists P. split; [done|]. split; [lia|]. split; [lia|].
      intros i j Hi Hj. rewrite HPat by lia.
      rewrite py_sum_snoc by done. by rewrite HAat, Hy.
  - destruct Hacc as [[? _] | (_ & A & -> & HA0 & HA1 & HAat)]; [lia|].
    exists A. split; [exact Hrun|]. split; [done|]. split; [done|].
    intros i j Hi Hj. apply HAat; lia.
Qed.

Lemma corr2d_multi_in_out_general (X : tensor3) (K : tensor4) :
  let c := dim3_0 X `min` dim4_1 K in
  1 <= dim4_0 K -> 1 <= c -> dim4_2 K <= dim3_1 X + 1 -> dim4_3 K <= dim3_2 X + 1 ->
  exists Y, corr2d_multi_in_out X K = Ret Y
    /\ dim3_0 Y = dim4_0 K
    /\ dim3_1 Y = dim3_1 X + 1 - dim4_2 K
    /\ dim3_2 Y = dim3_2 X + 1 - dim4_3 K
    /\ forall o i j, o < dim3_0 Y -> i < dim3_1 Y -> j < dim3_2 Y ->
         at3 Y o i j =
         py_sum (map (fun ch =>
           channel_entry X (T3 (dim4_1 K) (dim4_2 K) (dim4_3 K) (at4 K o)) ch i j)
           (seq 0 c)).
Proof.
  cbv zeta. intros Hco Hc Hh Hw. unfold corr2d_multi_in_out, unbind4.
  set (F := fun o => T3 (dim4_1 K) (dim4_2 K) (dim4_3 K) (at4 K o)).
  set (h := dim3_1 X + 1 - dim4_2 K). set (w := dim3_2 X + 1 - dim4_3 K).
  pose (chan := fun o =>
    match corr2d_multi_in X (F o) with
    | Ret (PTensor A) => A
    | _ => T2 0 0 (fun _ _ => F0)
    end).
  assert (forall o, corr2d_multi_in X (F o) = Ret (PTensor (chan o))
    /\ shape0 (chan o) = h /\ shape1 (chan o) = w
    /\ forall i j, i < h -> j < w ->
         at2 (chan o) i j =
         py_sum (map (fun ch => channel_entry X (F o) ch i j)
                     (seq 0 (dim3_0 X `min` dim4_1 K))))
    as Hchan.
  { intros o. unfold chan.
    destruct (corr2d_multi_in_general X (F o)) as (A & -> & H0 & H1 & Hat);
      [simpl; lia..|].
    simpl in *. split; [done|]. split; [lia|]. split; [lia|].
    intros i j Hi Hj. apply Hat; lia. }
  rewrite (mapM_py_map_ret _ F (fun o => PTensor (chan o)))
    by (intros o _; apply Hchan).
  cbn [mbind pyresult_bind]. unfold stack.
  rewrite (mapM_py_map_ret as_tensor _ chan) by done.
  cbn [mbind pyresult_bind].
  destruct (dim4_0 K) as [|n] eqn:En; [lia|].
  assert (forallb (fun T => (shape0 T =? shape0 (chan 0)) && (shape1 T =? shape1 (chan 0)))
            (map chan (seq 0 (S n))) = true) as Hall.
  { apply forallb_forall. intros T HT.
    apply in_map_iff in HT as (o & <- & _).
    destruct (Hchan o) as (_ & -> & -> & _), (Hchan 0) as (_ & -> & -> & _).
    by rewrite !Nat.eqb_refl. }
  assert (forall o, o < S n ->
    nth o (map chan (seq 0 (S n))) (chan 0) = chan o) as Hnth
    by (intros; by apply nth_map_seq).
  cbn [seq map] in Hall, Hnth |- *. rewrite Hall.
  eexists; split; [done|]. cbn [dim3_0 dim3_1 dim3_2 at3].
  destruct (Hchan 0) as (_ & -> & -> & _).
  cbn [length]. rewrite length_map, length_seq.
  split; [done|]. split; [done|]. split; [done|].
  intros o i j Ho Hi Hj. rewrite Hnth by done.
  destruct (Hchan o) as (_ & _ & _ & Hat). by rewrite Hat by done.
Qed.



End channel_properties.

(** *** The assertion of the 1x1 notebook cell *)




Lemma same_number_finite (x y : float32) :
  same_number x y -> is_finite x = true -> is_finite y = true.
Proof. intros [->|[_ Hy]]; [done|]. by destruct y. Qed.

(** Addition does not tell the two zeros apart, except in the sign of a
    zero result. *)
Lemma fadd_same_number (a a' b b' : float32) :
  same_number a a' -> same_number b b' -> same_number (fadd a b) (fadd a' b').
Proof.
  intros [->|[Ha Ha']] [->|[Hb Hb']].
  - by left.
  - destruct b as [sb| | |]; try done. destruct b' as [sb'| | |]; try done.
    destruct a' as [sa| | |sa ma ea]; try (by left).
    right. by destruct sa, sb, sb'.
  - destruct a as [sa| | |]; try done. destruct a' as [sa'| | |]; try done.
    destruct b' as [sb| | |sb mb eb]; try (by left).
    right. by destruct sa, sa', sb.
  - destruct a as [sa| | |]; try done. destruct a' as [sa'| | |]; try done.
    destruct b as [sb| | |]; try done. destruct b' as [sb'| | |]; try done.
    right. by destruct sa, sa', sb, sb'.
Qed.


(** The difference of a finite number and itself is a zero. *)
Lemma fsub_same_number (x y : float32) :
  is_finite x = true -> same_number x y -> is_zero (fsub x y) = true.
Proof.
  intros Hx [<-|[Hx0 Hy0]].
  - destruct x as [s| | |s m e]; try done.
    + by destruct s.
    + unfold fsub, SFsub. by rewrite Z.sub_diag.
  - destruct x as [sx| | |]; try done. destruct y as [sy| | |]; try done.
    by destruct sx, sy.
Qed.



Section assertion.
Context {fw : Framework}.




End assertion.


Section assertion_one_entry.
Context {fw : Framework}.





End assertion_one_entry.


(** The two paths on the third input, entry (0, 0, 0). *)
Example conv1x1_fused_entries :
  matmul_dot (Framework := fused)
    (map (fun c => at4 K1211_round 0 c 0 0) (seq 0 2))
    (map (fun c => at3 X211_round c 0 0) (seq 0 2)) = F32 1
  /\ py_sum (channel_terms_1x1 (fw := fused) X211_round K1211_round 0 0 0) = F0
  /\ py_sum (channel_terms_1x1 (fw := plain) X211_round K1211_round 0 0 0) = F0
  /\ matmul_dot (Framework := plain)
       (map (fun c => at4 K1211_round 0 c 0 0) (seq 0 2))
       (map (fun c => at3 X211_round c 0 0) (seq 0 2)) = F0.
Proof. repeat split; reflexivity. Qed.

(** *** [tokenize] on characters below 256 *)

Lemma append_cons (c : ascii) (s t : string) :
  (String c s ++ t)%string = String c (s ++ t)%string.
Proof. reflexivity. Qed.

Lemma append_empty_r (s : string) : (s ++ "")%string = s.
Proof. induction s as [|c s IH]; [done|]. by rewrite append_cons, IH. Qed.

Lemma append_assoc (a b c : string) : ((a ++ b) ++ c)%string = (a ++ (b ++ c))%string.
Proof. induction a as [|x a IH]; [done|]. by rewrite !append_cons, IH. Qed.

(** The first lines of the notebook's corpus. *)
Example tokenize_notebook :
  tokenize ["the time machine by h g wells"; ""; "i"]%string "word"
  = ([], Ret (Some [["the"; "time"; "machine"; "by"; "h"; "g"; "wells"]; []; ["i"]]%string)).
Proof. reflexivity. Qed.

(** *** [tokenize] on code points *)

Lemma usplit_blank (blank rest : Unicode.ustring) :
  forallb Unicode.isspace blank = true ->
  Unicode.split_from [] (blank ++ rest) = Unicode.split_from [] rest.
Proof.
  induction blank as [|c blank IH]; intros H; simpl in *; [done|].
  apply andb_true_iff in H as [-> H]. by apply IH.
Qed.

Lemma usplit_word (cur word rest : Unicode.ustring) :
  forallb (fun c => negb (Unicode.isspace c)) word = true ->
  Unicode.split_from cur (word ++ rest) = Unicode.split_from (cur ++ word) rest.
Proof.
  revert cur. induction word as [|c word IH]; intros cur H; simpl in *.
  - by rewrite app_nil_r.
  - apply andb_true_iff in H as [Hc H]. apply negb_true_iff in Hc. rewrite Hc.
    rewrite IH by done. by rewrite <- app_assoc.
Qed.

Lemma usplit_end (cur rest : Unicode.ustring) :
  cur <> [] ->
  (match rest with [] => true | c :: _ => Unicode.isspace c end) = true ->
  Unicode.split_from cur rest = cur :: Unicode.split_from [] rest.
Proof.
  intros Hcur Hrest. destruct cur as [|c0 cur]; [done|].
  destruct rest as [|c rest]; simpl; [done|]. by rewrite Hrest.
Qed.

Lemma usplit_step (blank word rest : Unicode.ustring) :
  forallb Unicode.isspace blank = true ->
  word <> [] -> forallb (fun c => negb (Unicode.isspace c)) word = true ->
  (match rest with [] => true | c :: _ => Unicode.isspace c end) = true ->
  Unicode.str_split (blank ++ word ++ rest) = word :: Unicode.str_split rest.
Proof.
  intros Hb Hne Hw Hr. unfold Unicode.str_split.
  rewrite usplit_blank, usplit_word by done. simpl. by apply usplit_end.
Qed.

(** The words of a line are what [split] returns. *)
Lemma words_of_split (line : Unicode.ustring) (words : list Unicode.ustring) :
  Unicode.words_of line words -> Unicode.str_split line = words.
Proof.
  induction 1 as [line Hb|blank word rest words Hb Hne Hw Hr _ IH].
  - unfold Unicode.str_split. rewrite <- (app_nil_r line).
    by rewrite usplit_blank.
  - rewrite usplit_step by done. by rewrite IH.
Qed.

(** Every list is a run of entries with a property followed by nothing or by
    an entry without it. *)
Lemma span_spec {A : Type} (p : A -> bool) (s : list A) :
  exists a b, s = a ++ b /\ forallb p a = true
    /\ (match b with [] => true | c :: _ => negb (p c) end) = true.
Proof.
  induction s as [|c s (a & b & -> & Ha & Hb)].
  - by exists [], [].
  - destruct (p c) eqn:Hc.
    + exists (c :: a), b. simpl. by rewrite Hc, Ha.
    + exists [], (c :: a ++ b). simpl. by rewrite Hc.
Qed.

(** What [split] returns are the words of the line. *)
Lemma split_words_of (line : Unicode.ustring) :
  Unicode.words_of line (Unicode.str_split line).
Proof.
  remember (length line) as n eqn:Hn.
  assert (length line <= n) as Hle by lia. clear Hn.
  revert line Hle. induction n as [|n IH]; intros line Hle.
  { destruct line; [|simpl in Hle; lia]. by constructor. }
  destruct (span_spec Unicode.isspace line) as (blank & s1 & -> & Hb & Hs1).
  destruct s1 as [|c r].
  { rewrite app_nil_r.
    assert (Unicode.str_split blank = []) as ->
      by (apply words_of_split; by constructor).
    by constructor. }
  destruct (span_spec (fun c => negb (Unicode.isspace c)) (c :: r))
    as (word & rest & Heq & Hw & Hr).
  assert (word <> []) as Hne.
  { intros ->. simpl in Heq. subst rest. rewrite Hs1 in Hr. done. }
  assert ((match rest with [] => true | c :: _ => Unicode.isspace c end) = true)
    as Hr'.
  { destruct rest; [done|]. by apply negb_true_iff, negb_false_iff in Hr. }
  rewrite Heq. rewrite usplit_step by done.
  constructor; try done. apply IH.
  rewrite Heq, !length_app in Hle. destruct word; [done|]. simpl in Hle. lia.
Qed.

Lemma words_of_iff (line : Unicode.ustring) (words : list Unicode.ustring) :
  Unicode.words_of line words <-> words = Unicode.str_split line.
Proof.
  split.
  - intros H. symmetry. by apply words_of_split.
  - intros ->. apply split_words_of.
Qed.

Lemma chars_of_iff (line : Unicode.ustring) (chars : list Unicode.ustring) :
  Unicode.chars_of line chars <-> chars = Unicode.str_list line.
Proof.
  unfold Unicode.chars_of, Unicode.str_list. split.
  - intros [Hlen <-]. induction Hlen as [|p chars Hp _ IH]; [done|].
    destruct p as [|c [|? ?]]; try done. simpl. by rewrite <- IH.
  - intros ->. split.
    + apply Forall_forall. intros p Hp.
      apply list_elem_of_fmap in Hp as (c & -> & _). done.
    + induction line as [|c line IH]; simpl; [done|]. by rewrite IH.
Qed.

Lemma Forall2_function {A B : Type} (R : A -> B -> Prop) (f : A -> B)
    (l : list A) (l' : list B) :
  (forall a b, R a b <-> b = f a) -> Forall2 R l l' <-> l' = map f l.
Proof.
  intros HR. split.
  - induction 1 as [|a b l l' Hab _ IH]; [done|].
    simpl. apply HR in Hab as ->. by rewrite IH.
  - intros ->. induction l as [|a l IH]; constructor; [by apply HR | done].
Qed.

(** C9.  For every list of strings [lines], [tokenize(lines, 'word')]
    returns [[line.split() for line in lines]], which holds, for every line,
    exactly its words: the maximal runs of characters that are no white
    space, in order.  [tokenize(lines, 'char')] returns
    [[list(line) for line in lines]], which holds, for every line, exactly
    its characters, one string each.  Neither prints anything, and a call
    without token type is a call with 'word'. *)
Theorem tokenize_word_and_char (lines : list Unicode.ustring) :
  (exists tokens,
      Unicode.tokenize lines (Unicode.ustr "word") = ([], Ret (Some tokens))
      /\ tokens = map Unicode.str_split lines
      /\ forall tokens', Forall2 Unicode.words_of lines tokens' <-> tokens' = tokens)
  /\ (exists tokens,
      Unicode.tokenize lines (Unicode.ustr "char") = ([], Ret (Some tokens))
      /\ tokens = map Unicode.str_list lines
      /\ forall tokens', Forall2 Unicode.chars_of lines tokens' <-> tokens' = tokens)
  /\ Unicode.call_tokenize lines None = Unicode.tokenize lines (Unicode.ustr "word").
Proof.
  split; [|split].
  - eexists. split; [reflexivity|]. split; [reflexivity|].
    intros tokens'. apply Forall2_function, words_of_iff.
  - eexists. split; [reflexivity|]. split; [reflexivity|].
    intros tokens'. apply Forall2_function, chars_of_iff.
  - reflexivity.
Qed.

(** The notebook's first line, and white space beyond the ASCII range:
    U+2003 (em space) and U+3000 (ideographic space) separate words, U+200B
    (zero width space) does not. *)
Example tokenize_examples :
  Unicode.tokenize [Unicode.ustr "the time machine by h g wells"; Unicode.ustr "  a  b "; []]
    (Unicode.ustr "word")
  = ([], Ret (Some [map Unicode.ustr ["the"; "time"; "machine"; "by"; "h"; "g"; "wells"]%string;
                    map Unicode.ustr ["a"; "b"]%string; []]))
  /\ Unicode.tokenize [Unicode.ustr "a b"] (Unicode.ustr "char")
     = ([], Ret (Some [map Unicode.ustr ["a"; " "; "b"]%string]))
  /\ Unicode.str_split [97; 8195; 98; 12288; 99; 8203; 100]%N
     = [[97]; [98]; [99; 8203; 100]]%N.
Proof. repeat split; vm_compute; reflexivity. Qed.

(** The definitions on characters below 256 are those on code points. *)
Lemma isspace_code_point (c : ascii) : Unicode.isspace (N_of_ascii c) = is_space c.
Proof.
  destruct c as [b0 b1 b2 b3 b4 b5 b6 b7].
  destruct b0, b1, b2, b3, b4, b5, b6, b7; reflexivity.
Qed.

Lemma ustr_snoc (s : string) (c : ascii) :
  Unicode.ustr (s ++ String c "") = Unicode.ustr s ++ [N_of_ascii c].
Proof.
  unfold Unicode.ustr. induction s as [|c' s IH]; [done|].
  change (String c' s ++ String c "")%string with (String c' (s ++ String c "")).
  cbn [list_ascii_of_string map app]. by rewrite IH.
Qed.

Lemma split_from_code_points (cur s : string) :
  Unicode.split_from (Unicode.ustr cur) (Unicode.ustr s)
  = map Unicode.ustr (split_from cur s).
Proof.
  revert cur. induction s as [|c s IH]; intros cur.
  - destruct cur; reflexivity.
  - change (Unicode.ustr (String c s)) with (N_of_ascii c :: Unicode.ustr s).
    cbn [Unicode.split_from split_from]. rewrite isspace_code_point.
    destruct (is_space c).
    + destruct cur as [|c0 cur].
      * apply (IH ""%string).
      * change (String.eqb (String c0 cur) "") with false.
        change (Unicode.is_empty (Unicode.ustr (String c0 cur))) with false.
        cbn [map]. f_equal. apply (IH ""%string).
    + rewrite <- ustr_snoc. apply IH.
Qed.

Lemma str_split_code_points (line : string) :
  Unicode.str_split (Unicode.ustr line) = map Unicode.ustr (str_split line).
Proof. apply (split_from_code_points "" line). Qed.

Lemma str_list_code_points (line : string) :
  Unicode.str_list (Unicode.ustr line) = map Unicode.ustr (str_list line).
Proof.
  induction line as [|c line IH]; [done|].
  change (Unicode.ustr (String c line)) with (N_of_ascii c :: Unicode.ustr line).
  cbn [Unicode.str_list str_list map]. f_equal. apply IH.
Qed.

Lemma tokenize_code_points (lines : list string) (tokens : list (list string)) :
  (tokenize lines "word" = ([], Ret (Some tokens)) ->
   Unicode.tokenize (map Unicode.ustr lines) (Unicode.ustr "word")
   = ([], Ret (Some (map (map Unicode.ustr) tokens))))
  /\ (tokenize lines "char" = ([], Ret (Some tokens)) ->
      Unicode.tokenize (map Unicode.ustr lines) (Unicode.ustr "char")
      = ([], Ret (Some (map (map Unicode.ustr) tokens)))).
Proof.
  split; intros [= <-]; unfold Unicode.tokenize; simpl; do 3 f_equal;
    rewrite !map_map; apply map_ext; intros line;
    [apply str_split_code_points | apply str_list_code_points].
Qed.

(** *** Error conditions *)



Section error_conditions.
Context {fw : Framework}.



End error_conditions.



(** *** [Vocab] *)

(** A string literal is not among the literals of a list. *)
Ltac not_in_literal :=
  let H := fresh "H" in
  intros H;
  repeat (apply elem_of_cons in H as [H|H]; [discriminate H|]);
  by apply elem_of_nil in H.

Lemma counter_incr_keys (t : string) (c : list (string * nat)) :
  map fst (counter_incr t c) =
  if decide (t ∈ map fst c) then map fst c else map fst c ++ [t].
Proof.
  induction c as [|[k n] c IH]; simpl; [done|].
  destruct (String.eqb_spec k t) as [->|Hne]; simpl.
  - rewrite decide_True by left. done.
  - rewrite IH. destruct (decide (t ∈ map fst c)).
    + rewrite decide_True by (by right). done.
    + rewrite decide_False; [done|]. intros [?|?]%elem_of_cons; congruence.
Qed.

Lemma counter_incr_get (t t' : string) (c : list (string * nat)) :
  counter_get (counter_incr t c) t' =
  counter_get c t' + (if decide (t = t') then 1 else 0).
Proof.
  induction c as [|[k n] c IH]; simpl.
  - destruct (String.eqb_spec t t'), (decide (t = t')); done.
  - destruct (String.eqb_spec k t) as [->|Hne]; simpl.
    + destruct (String.eqb_spec t t'), (decide (t = t')); try done; lia.
    + destruct (String.eqb_spec k t') as [->|Hne'].
      * rewrite decide_False by congruence. lia.
      * apply IH.
Qed.

Lemma counter_incr_ok (t : string) (c : list (string * nat)) :
  counter_ok c -> counter_ok (counter_incr t c).
Proof.
  intros [Hnd Hpos]. split.
  - rewrite counter_incr_keys. destruct (decide _); [done|].
    apply NoDup_app. split; [done|]. split; [|apply NoDup_singleton].
    intros x Hx ->%list_elem_of_singleton. done.
  - clear Hnd. induction Hpos as [|[k n] c Hk Hc IH]; simpl.
    + constructor; [simpl; lia | constructor].
    + destruct (String.eqb k t); constructor; simpl in *; try done; lia.
Qed.

Lemma Counter_from (l : list string) (c : list (string * nat)) :
  counter_ok c ->
  counter_ok (foldl (fun c t => counter_incr t c) c l)
  /\ forall t, counter_get (foldl (fun c t => counter_incr t c) c l) t
               = counter_get c t + occurrences t l.
Proof.
  revert c. induction l as [|x l IH]; intros c Hc; simpl.
  - split; [done|]. intros t. unfold occurrences. simpl. lia.
  - destruct (IH (counter_incr x c)) as [Hok Hget]; [by apply counter_incr_ok|].
    split; [done|]. intros t. rewrite Hget, counter_incr_get.
    unfold occurrences. rewrite filter_cons.
    destruct (decide (x = t)); simpl; lia.
Qed.

Lemma Counter_ok (l : list string) : counter_ok (Counter l).
Proof. apply Counter_from. split; constructor. Qed.

Lemma Counter_get (l : list string) (t : string) :
  counter_get (Counter l) t = occurrences t l.
Proof.
  destruct (Counter_from l []) as [_ H]; [split; constructor|].
  unfold Counter. by rewrite H.
Qed.

(** With distinct keys, an entry of the counter is what [counter_get]
    reads. *)
Lemma counter_entry (c : list (string * nat)) (t : string) (n : nat) :
  NoDup (map fst c) -> (t, n) ∈ c -> counter_get c t = n.
Proof.
  induction c as [|[k m] c IH]; simpl; intros Hnd Hin.
  - by apply elem_of_nil in Hin.
  - apply NoDup_cons in Hnd as [Hk Hnd].
    apply elem_of_cons in Hin as [[= -> ->]|Hin].
    + by rewrite String.eqb_refl.
    + destruct (String.eqb_spec k t) as [->|_]; [|by apply IH].
      destruct Hk. apply list_elem_of_fmap. by exists (t, n).
Qed.

Lemma insert_desc_perm (x : string * nat) (l : list (string * nat)) :
  insert_desc x l ≡ₚ x :: l.
Proof.
  induction l as [|y l IH]; simpl; [done|].
  destruct (x.2 <? y.2); [|done]. by rewrite IH, Permutation_swap.
Qed.

Lemma sorted_desc_perm (l : list (string * nat)) : sorted_desc l ≡ₚ l.
Proof.
  induction l as [|x l IH]; simpl; [done|]. by rewrite insert_desc_perm, IH.
Qed.

(** The counter of a corpus holds the number of occurrences of each token. *)
Lemma count_corpus_get (c : corpus) (t : string) :
  counter_get (count_corpus c) t = occurrences t (corpus_tokens c).
Proof.
  destruct c as [l|l]; simpl; [|apply Counter_get].
  destruct l; simpl; [done | apply Counter_get].
Qed.

Lemma count_corpus_ok (c : corpus) : counter_ok (count_corpus c).
Proof. destruct c as [[|x l]|l]; simpl; apply Counter_ok. Qed.

(** The state of the filling loop: [token_to_idx] sends a token to a
    position of [idx_to_token] that holds it, and knows exactly the stored
    tokens. *)
Lemma vocab_add_from (u pre : list string) (m : gmap string nat) :
  (forall t i, m !! t = Some i -> pre !! i = Some t) ->
  (forall t, t ∈ pre <-> is_Some (m !! t)) ->
  let st := foldl vocab_add (pre, m) u in
  st.1 = pre ++ u
  /\ (forall t i, st.2 !! t = Some i -> st.1 !! i = Some t)
  /\ (forall t, t ∈ st.1 <-> is_Some (st.2 !! t)).
Proof.
  revert pre m. induction u as [|x u IH]; intros pre m Hget Hdom; simpl.
  - by rewrite app_nil_r.
  - destruct (IH (pre ++ [x]) (<[x := length (pre ++ [x]) - 1]> m))
      as (H1 & H2 & H3).
    + intros t i. rewrite length_app. simpl.
      replace (length pre + 1 - 1) with (length pre) by lia.
      destruct (decide (x = t)) as [->|Hne].
      * rewrite lookup_insert_eq. intros [= <-].
        by rewrite lookup_app_r, Nat.sub_diag.
      * rewrite lookup_insert_ne by done. intros Hm.
        apply lookup_app_l_Some. by apply Hget.
    + intros t. rewrite elem_of_app, list_elem_of_singleton, Hdom.
      destruct (decide (x = t)) as [->|Hne].
      * rewrite lookup_insert_eq. split; [eauto | by right].
      * rewrite lookup_insert_ne by done. split; [intros [|]; congruence | by left].
    + split; [|done]. unfold vocab_add in H1 |- *. simpl in *.
      by rewrite H1, <- app_assoc.
Qed.

Lemma vocab_add_all (u : list string) :
  let st := foldl vocab_add ([], ∅) u in
  st.1 = u
  /\ (forall t i, st.2 !! t = Some i -> u !! i = Some t)
  /\ (forall t, t ∈ u <-> is_Some (st.2 !! t)).
Proof.
  destruct (vocab_add_from u [] ∅) as (H1 & H2 & H3).
  - intros t i. by rewrite lookup_empty.
  - intros t. rewrite lookup_empty. split; [by intros ?%elem_of_nil | by intros [? ?]].
  - simpl in *. rewrite H1 in H2, H3. done.
Qed.

Lemma py_index_lookup {A : Type} (l : list A) (i : nat) (a : A) :
  l !! i = Some a -> py_index l (Z.of_nat i) = Ret a.
Proof.
  intros H. unfold py_index. apply lookup_lt_Some in H as Hlt.
  rewrite (bool_decide_eq_false_2 (Z.of_nat i < 0)%Z) by lia.
  rewrite bool_decide_eq_true_2 by lia.
  by rewrite Nat2Z.id, H.
Qed.

(** The tokens the constructor stores, in order. *)
Lemma Vocab_init_idx (tokens : option corpus) (min_freq : Z)
    (reserved : option (list string)) :
  let base := "<unk>"%string :: default [] reserved in
  idx_to_token (Vocab_init tokens min_freq reserved) =
  base ++ map fst (filter (fun tf => (min_freq <= Z.of_nat tf.2)%Z /\ tf.1 ∉ base)
                     (sorted_desc (count_corpus (default (Tokens1D []) tokens)))).
Proof.
  cbv zeta. unfold Vocab_init. cbn [idx_to_token].
  match goal with |- (foldl vocab_add _ ?u).1 = _ =>
    destruct (vocab_add_all u) as (H & _) end.
  exact H.
Qed.

Lemma Vocab_init_lookup (tokens : option corpus) (min_freq : Z)
    (reserved : option (list string)) :
  let v := Vocab_init tokens min_freq reserved in
  (forall t i, token_to_idx v !! t = Some i -> idx_to_token v !! i = Some t)
  /\ (forall t, t ∈ idx_to_token v <-> is_Some (token_to_idx v !! t)).
Proof.
  cbv zeta. unfold Vocab_init. cbn [idx_to_token token_to_idx].
  match goal with |- context [foldl vocab_add _ ?u] =>
    destruct (vocab_add_all u) as (H1 & H2 & H3) end.
  cbv zeta in H1, H2, H3. rewrite H1. done.
Qed.

Lemma Vocab_init_NoDup (tokens : option corpus) (min_freq : Z)
    (reserved : option (list string)) :
  NoDup ("<unk>"%string :: default [] reserved) ->
  NoDup (idx_to_token (Vocab_init tokens min_freq reserved)).
Proof.
  intros Hbase. rewrite Vocab_init_idx. cbv zeta.
  set (base := "<unk>"%string :: default [] reserved) in *.
  set (c := count_corpus _).
  apply NoDup_app. split; [done|]. split.
  - intros t Ht (tf & -> & Htf)%list_elem_of_fmap.
    apply list_elem_of_filter in Htf as [[_ Hn] _]. done.
  - assert (NoDup (map fst (sorted_desc c))) as Hnd.
    { rewrite sorted_desc_perm. apply count_corpus_ok. }
    revert Hnd. generalize (sorted_desc c). intros l.
    induction l as [|x l IH]; simpl; intros Hnd; [constructor|].
    apply NoDup_cons in Hnd as [Hx Hnd]. rewrite filter_cons.
    destruct (decide _); simpl; [|by apply IH].
    apply NoDup_cons. split; [|by apply IH].
    intros (tf & Heq & Htf)%list_elem_of_fmap.
    apply list_elem_of_filter in Htf as [_ Htf].
    apply Hx. apply list_elem_of_fmap. by exists tf.
Qed.

(** C5, as amended: when the reserved tokens are pairwise distinct and do
    not contain '<unk>', [idx_to_token] and [token_to_idx] are mutually
    inverse: vocab[vocab.to_tokens(i)] == i for every 0 <= i < len(vocab),
    vocab.to_tokens(vocab[t]) == t for every stored token t, and each stored
    token appears at exactly one index. *)
Theorem vocab_idx_token_inverse (tokens : option corpus) (min_freq : Z)
    (reserved : option (list string)) :
  NoDup ("<unk>"%string :: default [] reserved) ->
  vocab_inverse (Vocab_init tokens min_freq reserved).
Proof.
  intros Hbase.
  pose proof (Vocab_init_NoDup tokens min_freq reserved Hbase) as Hnd.
  destruct (Vocab_init_lookup tokens min_freq reserved) as [Hget Hdom].
  cbv zeta in Hget, Hdom. set (v := Vocab_init tokens min_freq reserved) in *.
  split; [|split; [|done]].
  - intros i Hi. unfold Vocab_len in Hi.
    destruct (lookup_lt_is_Some_2 (idx_to_token v) i Hi) as [t Ht].
    exists t. split.
    + unfold to_tokens. by rewrite (py_index_lookup _ _ _ Ht).
    + cbn [getitem]. destruct (proj1 (Hdom t)) as [j Hj];
        [by apply list_elem_of_lookup_2 in Ht|].
      rewrite Hj. cbn [default]. f_equal.
      apply Hget in Hj. by apply (NoDup_lookup _ _ _ t Hnd).
  - intros t Ht. destruct (proj1 (Hdom t) Ht) as [i Hi].
    exists i. cbn [getitem]. rewrite Hi. split; [done|].
    unfold to_tokens. by rewrite (py_index_lookup _ _ _ (Hget _ _ Hi)).
Qed.

Lemma vocab_idx_token_inverse_witness :
  vocab_inverse (Vocab_init
    (Some (Tokens2D [["the"; "time"; "machine"]; ["the"; "time"; "traveller"]]%string))
    2 (Some ["<pad>"; "<bos>"]%string)).
Proof.
  apply vocab_idx_token_inverse. simpl.
  repeat (apply NoDup_cons; split; [not_in_literal|]).
  apply NoDup_nil_2.
Defined.

(** C5 as stated fails for repeated reserved tokens: with reserved tokens
    ['<pad>', '<pad>'] index 1 holds '<pad>' but vocab['<pad>'] is 2. *)
Lemma vocab_repeated_reserved_token :
  ~ vocab_inverse (Vocab_init None 0 (Some ["<pad>"; "<pad>"]%string)).
Proof.
  intros (H & _ & _). destruct (H 1) as (t & Ht & Hi); [vm_compute; lia|].
  vm_compute in Ht. injection Ht as <-. vm_compute in Hi. discriminate.
Qed.

(** A token that is not reserved is stored only when the corpus holds it
    at least [min_freq] times. *)
Lemma Vocab_init_stored (tokens : option corpus) (min_freq : Z)
    (reserved : option (list string)) (t : string) :
  t ∈ idx_to_token (Vocab_init tokens min_freq reserved) ->
  t ∉ "<unk>"%string :: default [] reserved ->
  let n := occurrences t (corpus_tokens (default (Tokens1D []) tokens)) in
  0 < n /\ (min_freq <= Z.of_nat n)%Z.
Proof.
  rewrite Vocab_init_idx. cbv zeta. intros Hin Hbase.
  apply elem_of_app in Hin as [Hin|Hin]; [done|].
  apply list_elem_of_fmap in Hin as ([t' n] & -> & Hin).
  apply list_elem_of_filter in Hin as [[Hmin _] Hin]. simpl in *.
  rewrite sorted_desc_perm in Hin.
  destruct (count_corpus_ok (default (Tokens1D []) tokens)) as [Hnd Hpos].
  rewrite <- count_corpus_get, (counter_entry _ _ n Hnd Hin).
  split; [|done].
  rewrite Forall_forall in Hpos. exact (Hpos (t', n) Hin).
Qed.

(** C6. '<unk>' is stored at index 0 and [vocab.unk] is 0; a token that
    is not stored (never seen in the corpus, or seen fewer than [min_freq]
    times, and not reserved) is looked up as 0; a list argument is looked up
    element by element; the reserved tokens sit at indices 1 to
    len(reserved_tokens) in the given order.  The lookup is a total
    function: it has no failing outcome. *)
Theorem vocab_unknown_token_lookup (tokens : option corpus) (min_freq : Z)
    (reserved : option (list string)) :
  let v := Vocab_init tokens min_freq reserved in
  let corp := corpus_tokens (default (Tokens1D []) tokens) in
  idx_to_token v !! 0 = Some "<unk>"%string
  /\ unk v = 0
  /\ (forall t, t ∉ idx_to_token v -> getitem v (Tok t) = Idx 0)
  /\ (forall t, t ∉ "<unk>"%string :: default [] reserved ->
        occurrences t corp = 0 \/ (Z.of_nat (occurrences t corp) < min_freq)%Z ->
        getitem v (Tok t) = Idx 0)
  /\ (forall l, getitem v (Toks l) = Idxs (map (getitem v) l))
  /\ (forall k r, default [] reserved !! k = Some r ->
        idx_to_token v !! (S k) = Some r).
Proof.
  cbv zeta.
  destruct (Vocab_init_lookup tokens min_freq reserved) as [Hget Hdom].
  cbv zeta in Hget, Hdom.
  assert (forall t, t ∉ idx_to_token (Vocab_init tokens min_freq reserved) ->
    getitem (Vocab_init tokens min_freq reserved) (Tok t) = Idx 0) as Habs.
  { intros t Ht. cbn [getitem].
    destruct (token_to_idx _ !! t) as [i|] eqn:E; [|done].
    destruct Ht. apply Hdom. by exists i. }
  split; [by rewrite Vocab_init_idx|]. split; [done|]. split; [done|].
  split; [|split; [done|]].
  - intros t Hbase Hfreq. apply Habs. intros Hin.
    destruct (Vocab_init_stored _ _ _ _ Hin Hbase) as [Hpos Hmin]. lia.
  - intros k r Hk. rewrite Vocab_init_idx. cbv zeta.
    change (("<unk>"%string :: default [] reserved) ++ ?l)
      with ("<unk>"%string :: (default [] reserved ++ l)).
    cbn [lookup list_lookup]. by apply lookup_app_l_Some.
Qed.

Lemma vocab_unknown_token_lookup_witness :
  getitem (Vocab_init
    (Some (Tokens2D [["the"; "time"; "machine"]; ["the"; "time"; "traveller"]]%string))
    2 (Some ["<pad>"; "<bos>"]%string)) (Toks [Tok "machine"; Tok "wells"; Tok "the"]%string)
  = Idxs [Idx 0; Idx 0; Idx 3].
Proof.
  destruct (vocab_unknown_token_lookup
    (Some (Tokens2D [["the"; "time"; "machine"]; ["the"; "time"; "traveller"]]%string))
    2 (Some ["<pad>"; "<bos>"]%string)) as (_ & _ & _ & Hlow & Hlist & _).
  cbv zeta in Hlow, Hlist. rewrite Hlist. cbn [map].
  rewrite (Hlow "machine"%string), (Hlow "wells"%string).
  - reflexivity.
  - not_in_literal.
  - left. reflexivity.
  - not_in_literal.
  - right. vm_compute. reflexivity.
Defined.

Example vocab_example :
  idx_to_token (Vocab_init
    (Some (Tokens2D [["the"; "time"; "machine"]; ["the"; "time"; "traveller"]]%string))
    2 (Some ["<pad>"; "<bos>"]%string))
  = ["<unk>"; "<pad>"; "<bos>"; "the"; "time"]%string.
Proof. reflexivity. Qed.

(** *** autograd: the gradient of 2 x^T x *)

Lemma Qz_1 : Qz 1 = 1%Qc.
Proof. by apply Qc_is_canon. Qed.

Lemma Qz_2 : Qz 2 = (1 + 1)%Qc.
Proof. by apply Qc_is_canon. Qed.

Lemma Qz_4 : Qz 4 = (1 + 1 + 1 + 1)%Qc.
Proof. by apply Qc_is_canon. Qed.

Lemma vadd_vscale_twice (c : Qc) (x : list Qc) :
  vadd (vscale c x) (vscale c x) = vscale (c + c) x.
Proof.
  induction x as [|a x IH]; simpl; [done|].
  unfold vadd, vscale in *. simpl. rewrite IH. f_equal. ring.
Qed.

Lemma veq_refl (a : list Qc) : veq a a = map (fun _ => true) a.
Proof.
  induction a as [|p a IH]; simpl; [done|].
  unfold veq in *. simpl. by rewrite IH, bool_decide_eq_true_2.
Qed.

Lemma dot_vscale_l (c : Qc) (x d : list Qc) :
  dot (vscale c x) d = (c * dot x d)%Qc.
Proof.
  revert d. induction x as [|a x IH]; intros [|b d]; unfold dot in *; simpl;
    try ring.
  rewrite IH. ring.
Qed.

Lemma dot_vadd_square (x d : list Qc) :
  length d = length x ->
  dot (vadd x d) (vadd x d) =
  (dot x x + (1 + 1) * dot x d + dot d d)%Qc.
Proof.
  revert d. induction x as [|a x IH]; intros [|b d] Hlen; try discriminate.
  - unfold dot. simpl. ring.
  - injection Hlen as Hlen. specialize (IH d Hlen).
    unfold dot, vadd in *. simpl. rewrite IH. ring.
Qed.

(** C4. With [x] requiring a gradient and none stored yet, after
    [y = 2 * torch.dot(x, x)] and [y.backward()] the gradient in [x.grad]
    is [4 * x], so [x.grad == 4 * x] holds in every component; and [4 * x]
    is the gradient of 2 x^T x: moving [x] by [d] changes the function by
    (4x)^T d up to the second-order term 2 d^T d. *)
Theorem autograd_gradient_2xTx (xs d : list Qc) (Hlen : length d = length xs) :
  let x := requires_grad_ (mkLeaf xs false None) true in
  (exists x', backward x y_2xTx = Ret x'
     /\ data x' = xs
     /\ grad x' = Some (vscale (Qz 4) xs))
  /\ grad_check x = Ret (map (fun _ => true) xs)
  /\ eval_s (vadd xs d) y_2xTx =
     (eval_s xs y_2xTx + dot (vscale (Qz 4) xs) d + Qz 2 * dot d d)%Qc.
Proof.
  cbv zeta.
  assert (backward (requires_grad_ (mkLeaf xs false None) true) y_2xTx
          = Ret (mkLeaf xs true (Some (vscale (Qz 4) xs)))) as Hback.
  { unfold backward, y_2xTx. simpl. rewrite vadd_vscale_twice.
    replace (Qz 2 * Qz 1 + Qz 2 * Qz 1)%Qc with (Qz 4); [done|].
    rewrite Qz_1, Qz_2, Qz_4. ring. }
  split; [|split].
  - eexists. split; [exact Hback|]. done.
  - unfold grad_check. rewrite Hback. simpl. rewrite veq_refl. unfold vscale.
    by rewrite map_map.
  - simpl. rewrite dot_vadd_square by done. rewrite dot_vscale_l.
    rewrite Qz_2, Qz_4. ring.
Qed.

Lemma autograd_gradient_2xTx_witness :
  grad_check (requires_grad_ (arange 4) true) = Ret [true; true; true; true].
Proof.
  exact (proj1 (proj2 (autograd_gradient_2xTx
    (data (arange 4)) [Qz 1; Qz 1; Qz 1; Qz 1] eq_refl))).
Defined.

(** The notebook's output of [x.grad]. *)
Example autograd_notebook :
  (x ← backward (requires_grad_ (arange 4) true) y_2xTx; Ret (map this <$> grad x))
  = Ret (Some [0#1; 4#1; 8#1; 12#1]%Q).
Proof. vm_compute. reflexivity. Qed.

(** * Part III. Further properties of the notebooks' code *)

(** ** [Vocab]: indices, frequencies, order *)

Lemma getitem_decode (tokens : option corpus) (min_freq : Z)
    (reserved : option (list string)) (t : string) :
  let v := Vocab_init tokens min_freq reserved in
  exists i, getitem v (Tok t) = Idx i
    /\ i < Vocab_len v
    /\ to_tokens v (Ind (Z.of_nat i)) =
       Ret (OneToken (if bool_decide (t ∈ idx_to_token v) then t else "<unk>"%string)).
Proof.
  cbv zeta.
  destruct (Vocab_init_lookup tokens min_freq reserved) as [Hget Hdom].
  cbv zeta in Hget, Hdom. set (v := Vocab_init tokens min_freq reserved) in *.
  cbn [getitem]. destruct (token_to_idx v !! t) as [i|] eqn:E.
  - exists i. split; [done|]. pose proof (Hget _ _ E) as Hi.
    split; [by apply lookup_lt_Some in Hi|].
    unfold to_tokens. rewrite (py_index_lookup _ _ _ Hi). simpl.
    rewrite bool_decide_eq_true_2; [done|]. apply Hdom. by exists i.
  - assert (idx_to_token v !! 0 = Some "<unk>"%string) as H0
      by (subst v; by rewrite Vocab_init_idx).
    exists 0. split; [done|]. split; [by apply lookup_lt_Some in H0|].
    unfold to_tokens. rewrite (py_index_lookup _ _ _ H0). simpl.
    rewrite bool_decide_eq_false_2; [done|].
    intros [j Hj]%Hdom. congruence.
Qed.

(** X1. [vocab[t]] is always a valid index, so decoding it never raises: a
    stored token comes back, any other token comes back as '<unk>'. *)
Theorem vocab_getitem_in_range (tokens : option corpus) (min_freq : Z)
    (reserved : option (list string)) (t : string) :
  let v := Vocab_init tokens min_freq reserved in
  exists i, getitem v (Tok t) = Idx i
    /\ i < Vocab_len v
    /\ to_tokens v (Ind (Z.of_nat i)) =
       Ret (OneToken (if bool_decide (t ∈ idx_to_token v) then t else "<unk>"%string)).
Proof. apply getitem_decode. Qed.

Lemma insert_desc_sorted (x : string * nat) (l : list (string * nat)) :
  StronglySorted (fun a b => b.2 <= a.2) l ->
  StronglySorted (fun a b => b.2 <= a.2) (insert_desc x l).
Proof.
  induction 1 as [|y l Hl IH Hy]; simpl.
  - repeat constructor.
  - destruct (Nat.ltb_spec x.2 y.2).
    + constructor; [done|]. rewrite insert_desc_perm. constructor; [lia|done].
    + constructor; [by constructor|]. constructor; [done|].
      eapply Forall_impl; [exact Hy|]. simpl. intros; lia.
Qed.

Lemma sorted_desc_sorted (l : list (string * nat)) :
  StronglySorted (fun a b => b.2 <= a.2) (sorted_desc l).
Proof.
  induction l as [|x l IH]; simpl; [constructor | by apply insert_desc_sorted].
Qed.

Lemma StronglySorted_lookup {A : Type} (R : A -> A -> Prop) (l : list A)
    (i j : nat) (x y : A) :
  StronglySorted R l -> i < j -> l !! i = Some x -> l !! j = Some y -> R x y.
Proof.
  intros Hs. revert i j. induction Hs as [|a l Hl IH Ha]; intros i j Hij Hi Hj.
  - by rewrite lookup_nil in Hi.
  - destruct j as [|j]; [lia|]. destruct i as [|i]; simpl in *.
    + injection Hi as <-. rewrite Forall_forall in Ha.
      apply Ha. by apply list_elem_of_lookup_2 in Hj.
    + apply (IH i j); [lia | done..].
Qed.

Lemma counter_get_entry (c : list (string * nat)) (t : string) :
  0 < counter_get c t -> (t, counter_get c t) ∈ c.
Proof.
  induction c as [|[k m] c IH]; simpl; [lia|].
  destruct (String.eqb_spec k t) as [->|_]; intros H; [left | right; auto].
Qed.

(** X2. [token_freqs] lists every distinct token of the corpus once, with the
    number of its occurrences, in order of descending frequency. *)
Theorem vocab_token_freqs (tokens : option corpus) (min_freq : Z)
    (reserved : option (list string)) :
  let tf := token_freqs (Vocab_init tokens min_freq reserved) in
  let corp := corpus_tokens (default (Tokens1D []) tokens) in
  (forall i j x y, i < j -> tf !! i = Some x -> tf !! j = Some y -> y.2 <= x.2)
  /\ NoDup (map fst tf)
  /\ (forall t n, (t, n) ∈ tf <-> n = occurrences t corp /\ 0 < n).
Proof.
  cbv zeta. unfold Vocab_init. cbn [token_freqs].
  set (c := count_corpus (default (Tokens1D []) tokens)).
  destruct (count_corpus_ok (default (Tokens1D []) tokens)) as [Hnd Hpos].
  fold c in Hnd, Hpos. split; [|split].
  - intros i j x y Hij Hi Hj.
    exact (StronglySorted_lookup _ _ _ _ _ _ (sorted_desc_sorted c) Hij Hi Hj).
  - by rewrite sorted_desc_perm.
  - intros t n. rewrite sorted_desc_perm, <- count_corpus_get. fold c. split.
    + intros Hin. split; [symmetry; by apply counter_entry|].
      rewrite Forall_forall in Hpos. exact (Hpos _ Hin).
    + intros [-> Hn]. by apply counter_get_entry.
Qed.

Lemma vocab_token_freqs_witness :
  (("time", 2) : string * nat) ∈ token_freqs (Vocab_init
    (Some (Tokens2D [["the"; "time"; "machine"]; ["the"; "time"; "traveller"]]%string))
    2 None).
Proof.
  apply (vocab_token_freqs
    (Some (Tokens2D [["the"; "time"; "machine"]; ["the"; "time"; "traveller"]]%string))
    2 None). split; [reflexivity | vm_compute; lia].
Defined.

Lemma Vocab_init_stores (tokens : option corpus) (min_freq : Z)
    (reserved : option (list string)) (t : string) :
  let n := occurrences t (corpus_tokens (default (Tokens1D []) tokens)) in
  t ∉ "<unk>"%string :: default [] reserved ->
  0 < n -> (min_freq <= Z.of_nat n)%Z ->
  t ∈ idx_to_token (Vocab_init tokens min_freq reserved).
Proof.
  cbv zeta. intros Hbase Hpos Hmin. rewrite Vocab_init_idx. cbv zeta.
  apply elem_of_app. right. apply list_elem_of_fmap.
  eexists (t, _). split; [done|]. apply list_elem_of_filter. split; [done|].
  rewrite sorted_desc_perm, <- count_corpus_get. apply counter_get_entry.
  by rewrite count_corpus_get.
Qed.

(** X3. A token that is not reserved is stored exactly when the corpus holds
    it, and at least [min_freq] times. *)
Theorem vocab_stored_iff (tokens : option corpus) (min_freq : Z)
    (reserved : option (list string)) (t : string) :
  t ∉ "<unk>"%string :: default [] reserved ->
  let n := occurrences t (corpus_tokens (default (Tokens1D []) tokens)) in
  t ∈ idx_to_token (Vocab_init tokens min_freq reserved)
  <-> 0 < n /\ (min_freq <= Z.of_nat n)%Z.
Proof.
  intros Hbase. cbv zeta. split;
    [intros Hin; by apply (Vocab_init_stored _ _ reserved)|].
  intros [Hpos Hmin]. by apply Vocab_init_stores.
Qed.

Lemma vocab_stored_iff_witness :
  "time"%string ∈ idx_to_token (Vocab_init
    (Some (Tokens2D [["the"; "time"; "machine"]; ["the"; "time"; "traveller"]]%string))
    2 (Some ["<pad>"]%string)).
Proof.
  apply (vocab_stored_iff
    (Some (Tokens2D [["the"; "time"; "machine"]; ["the"; "time"; "traveller"]]%string))
    2 (Some ["<pad>"]%string) "time"%string).
  - not_in_literal.
  - vm_compute. split; [lia | discriminate].
Defined.

Lemma StronglySorted_filter_keep {A : Type} (R : A -> A -> Prop) (P : A -> Prop)
    `{forall x, Decision (P x)} (l : list A) :
  StronglySorted R l -> StronglySorted R (filter P l).
Proof.
  induction 1 as [|a l Hl IH Ha]; [constructor|].
  rewrite filter_cons. destruct (decide (P a)); [|done].
  constructor; [done|]. rewrite Forall_forall in Ha |- *.
  intros x [_ Hx]%list_elem_of_filter. by apply Ha.
Qed.

(** Where a corpus token sits: behind '<unk>' and the reserved tokens, at
    the position it has among the retained entries of [token_freqs]. *)
Lemma Vocab_init_corpus_token (tokens : option corpus) (min_freq : Z)
    (reserved : option (list string)) (t : string) :
  let v := Vocab_init tokens min_freq reserved in
  let base := "<unk>"%string :: default [] reserved in
  t ∉ base -> t ∈ idx_to_token v ->
  exists i, getitem v (Tok t) = Idx i
    /\ length base <= i
    /\ filter (fun tf => (min_freq <= Z.of_nat tf.2)%Z /\ tf.1 ∉ base)
         (sorted_desc (count_corpus (default (Tokens1D []) tokens)))
       !! (i - length base)
       = Some (t, occurrences t (corpus_tokens (default (Tokens1D []) tokens))).
Proof.
  cbv zeta. intros Hbase Hin.
  destruct (Vocab_init_lookup tokens min_freq reserved) as [Hget Hdom].
  cbv zeta in Hget, Hdom.
  destruct (proj1 (Hdom t) Hin) as [i Hi]. exists i.
  split; [cbn [getitem]; by rewrite Hi|].
  apply Hget in Hi. rewrite Vocab_init_idx in Hi. cbv zeta in Hi.
  set (base := "<unk>"%string :: default [] reserved) in *.
  apply lookup_app_Some in Hi as [Hi|[Hle Hi]];
    [by apply list_elem_of_lookup_2 in Hi|].
  split; [done|].
  rewrite list_lookup_fmap in Hi.
  destruct (filter _ _ !! (i - length base)) as [[t' n]|] eqn:E; [|done].
  injection Hi as ->. f_equal. f_equal.
  apply list_elem_of_lookup_2, list_elem_of_filter in E as [_ E].
  rewrite sorted_desc_perm in E.
  rewrite <- count_corpus_get. symmetry. apply counter_entry; [|done].
  apply count_corpus_ok.
Qed.

(** X4. Among the corpus tokens, a more frequent token gets the smaller index,
    and both come after the reserved tokens. *)
Theorem vocab_frequent_tokens_first (tokens : option corpus) (min_freq : Z)
    (reserved : option (list string)) (t1 t2 : string) :
  let v := Vocab_init tokens min_freq reserved in
  let corp := corpus_tokens (default (Tokens1D []) tokens) in
  t1 ∉ "<unk>"%string :: default [] reserved ->
  t2 ∉ "<unk>"%string :: default [] reserved ->
  t1 ∈ idx_to_token v -> t2 ∈ idx_to_token v ->
  occurrences t2 corp < occurrences t1 corp ->
  exists i1 i2, getitem v (Tok t1) = Idx i1 /\ getitem v (Tok t2) = Idx i2
    /\ length (default [] reserved) < i1 /\ i1 < i2.
Proof.
  cbv zeta. intros Hb1 Hb2 Hin1 Hin2 Hocc.
  destruct (Vocab_init_corpus_token tokens min_freq reserved t1 Hb1 Hin1)
    as (i1 & Hg1 & Hl1 & Hf1).
  destruct (Vocab_init_corpus_token tokens min_freq reserved t2 Hb2 Hin2)
    as (i2 & Hg2 & Hl2 & Hf2).
  exists i1, i2. split; [done|]. split; [done|]. simpl in Hl1, Hl2.
  split; [lia|].
  pose proof (StronglySorted_filter_keep _
    (fun tf : string * nat =>
       (min_freq <= Z.of_nat tf.2)%Z /\ tf.1 ∉ "<unk>"%string :: default [] reserved)
    _ (sorted_desc_sorted (count_corpus (default (Tokens1D []) tokens)))) as Hs.
  destruct (Nat.lt_trichotomy i1 i2) as [Hlt|[->|Hgt]]; [done| |].
  - rewrite Hf1 in Hf2. injection Hf2 as -> _. lia.
  - assert (i2 - length ("<unk>"%string :: default [] reserved)
            < i1 - length ("<unk>"%string :: default [] reserved)) as Hlt
      by (simpl; lia).
    pose proof (StronglySorted_lookup _ _ _ _ _ _ Hs Hlt Hf2 Hf1) as Hle.
    simpl in Hle. lia.
Qed.

Lemma vocab_frequent_tokens_first_witness :
  exists i1 i2,
    getitem (Vocab_init (Some (Tokens1D ["a"; "b"; "a"; "c"; "b"; "a"]%string)) 0
               (Some ["<pad>"]%string)) (Tok "a") = Idx i1
    /\ getitem (Vocab_init (Some (Tokens1D ["a"; "b"; "a"; "c"; "b"; "a"]%string)) 0
               (Some ["<pad>"]%string)) (Tok "c") = Idx i2
    /\ length (default [] (Some ["<pad>"]%string)) < i1 /\ i1 < i2.
Proof.
  apply (vocab_frequent_tokens_first
    (Some (Tokens1D ["a"; "b"; "a"; "c"; "b"; "a"]%string)) 0
    (Some ["<pad>"]%string) "a"%string "c"%string).
  - not_in_literal.
  - not_in_literal.
  - vm_compute. do 2 right. left.
  - vm_compute. do 4 right. left.
  - vm_compute. lia.
Defined.

(** ** [Vocab]: decoding what was encoded *)

Lemma getitem_list_decode (tokens : option corpus) (min_freq : Z)
    (reserved : option (list string)) (ts : list string) :
  let v := Vocab_init tokens min_freq reserved in
  (ia ← as_indices (getitem v (Toks (map Tok ts))); to_tokens v ia)
  = Ret (Tokens (map (fun t => if bool_decide (t ∈ idx_to_token v)
                               then t else "<unk>"%string) ts)).
Proof.
  cbv zeta. set (v := Vocab_init tokens min_freq reserved).
  cbn [getitem as_indices]. rewrite map_map.
  rewrite (mapM_py_map_ret _ _
    (fun t => Z.of_nat (default (unk v) (token_to_idx v !! t)))) by done.
  simpl.
  rewrite (mapM_py_map_ret _ _
    (fun t => if bool_decide (t ∈ idx_to_token v) then t else "<unk>"%string));
    [done|].
  intros t _.
  destruct (getitem_decode tokens min_freq reserved t) as (i & Hi & _ & Hdec).
  fold v in Hi, Hdec. cbn [getitem] in Hi. injection Hi as ->.
  unfold to_tokens in Hdec.
  destruct (py_index _ _) as [a|e]; cbn in Hdec; [|discriminate].
  by injection Hdec as ->.
Qed.

(** X5. Encoding a list of tokens and decoding the indices gives the list back
    with every token that is not stored replaced by '<unk>'. *)
Theorem vocab_decode_encode (tokens : option corpus) (min_freq : Z)
    (reserved : option (list string)) (ts : list string) :
  let v := Vocab_init tokens min_freq reserved in
  (ia ← as_indices (getitem v (Toks (map Tok ts))); to_tokens v ia)
  = Ret (Tokens (map (fun t => if bool_decide (t ∈ idx_to_token v)
                               then t else "<unk>"%string) ts)).
Proof. apply getitem_list_decode. Qed.

Example vocab_decode_encode_example :
  let v := Vocab_init
    (Some (Tokens2D [["the"; "time"; "machine"]; ["the"; "time"; "traveller"]]%string))
    2 None in
  (ia ← as_indices (getitem v (Toks [Tok "the"; Tok "machine"; Tok "time"]%string));
   to_tokens v ia)
  = Ret (Tokens ["the"; "<unk>"; "time"]%string).
Proof. reflexivity. Qed.

(** ** [read_time_machine]: what a cleaned line looks like *)

Ltac by_cases_on_char c :=
  destruct c as [[|] [|] [|] [|] [|] [|] [|] [|]]; vm_compute; try done.

Lemma letter_lower_char (c : ascii) :
  is_letter c = true -> is_lower (lower_char c) = true.
Proof. by_cases_on_char c. Qed.

Lemma letter_not_space (c : ascii) : is_letter c = true -> is_space c = false.
Proof. by_cases_on_char c. Qed.

Lemma lower_is_letter (c : ascii) : is_lower c = true -> is_letter c = true.
Proof. by_cases_on_char c. Qed.

Lemma lower_char_fixed (c : ascii) : is_lower c = true -> lower_char c = c.
Proof. by_cases_on_char c. Qed.

Lemma sub_nonletters_shape (b : bool) (line : string) :
  letters_and_spaces b (sub_nonletters b line) = true.
Proof.
  revert b. induction line as [|c s IH]; intros b; simpl; [done|].
  destruct (is_letter c) eqn:Hc; simpl.
  - by rewrite Hc.
  - destruct b; [apply IH|]. simpl. apply IH.
Qed.

Lemma lstrip_shape (b : bool) (s : string) :
  letters_and_spaces b s = true -> letters_and_spaces true (lstrip s) = true.
Proof.
  revert b. induction s as [|c s IH]; intros b; simpl; [done|].
  destruct (is_letter c) eqn:Hc.
  - intros H. rewrite (letter_not_space c Hc). simpl. by rewrite Hc.
  - intros [[->%Ascii.eqb_eq _]%andb_prop H]%andb_prop. simpl. by apply (IH true).
Qed.

Lemma rstrip_shape (a : bool) (s : string) :
  letters_and_spaces (negb a) s = true ->
  rstrip s = ""%string \/ spaced is_letter a (rstrip s) = true.
Proof.
  revert a. induction s as [|c s IH]; intros a; simpl; [by left|].
  destruct (is_letter c) eqn:Hc.
  - intros H. rewrite (letter_not_space c Hc). simpl. rewrite Hc. right.
    destruct (IH true H) as [->|?]; done.
  - intros [[->%Ascii.eqb_eq Ha]%andb_prop H]%andb_prop.
    destruct a; [|done]. simpl.
    destruct (IH false H) as [->|Hs]; [by left|].
    destruct (String.eqb_spec (rstrip s) ""); [by left|]. right. simpl. done.
Qed.

Lemma lower_spaced (a : bool) (s : string) :
  spaced is_letter a s = true -> spaced is_lower a (lower s) = true.
Proof.
  revert a. induction s as [|c s IH]; intros a; simpl; [done|].
  destruct (is_letter c) eqn:Hc.
  - intros H. rewrite (letter_lower_char c Hc). by apply IH.
  - intros [[->%Ascii.eqb_eq ->]%andb_prop H]%andb_prop. simpl. by apply IH.
Qed.

Lemma read_line_clean (line : string) :
  clean_line (lower (strip (sub_nonletters false line))) = true.
Proof.
  unfold clean_line, strip.
  destruct (rstrip_shape false (lstrip (sub_nonletters false line))) as [->|H].
  - apply (lstrip_shape false), sub_nonletters_shape.
  - done.
  - by rewrite (lower_spaced _ _ H), orb_true_r.
Qed.

(** On a cleaned line, splitting into words loses nothing: the words joined
    by single spaces are the line. *)
Lemma split_from_spaced (a : bool) (cur s : string) :
  spaced is_lower a s = true ->
  (a = true <-> cur <> ""%string) ->
  join_spaces (split_from cur s) = (cur ++ s)%string.
Proof.
  revert a cur. induction s as [|c s IH]; intros a cur; simpl.
  - intros -> Hcur. destruct (String.eqb_spec cur "") as [->|_].
    + by destruct (proj1 Hcur).
    + simpl. by rewrite append_empty_r.
  - destruct (is_lower c) eqn:Hc.
    + intros H _. rewrite (letter_not_space c (lower_is_letter c Hc)).
      rewrite (IH true (cur ++ String c "")%string H).
      * by rewrite append_assoc.
      * split; [|done]. intros _. by destruct cur.
    + intros [[->%Ascii.eqb_eq ->]%andb_prop H]%andb_prop Hcur.
      change (is_space " ") with true. cbn iota.
      destruct (String.eqb_spec cur "") as [->|_];
        [by destruct (proj1 Hcur)|].
      pose proof (IH false ""%string H ltac:(split; done)) as Hrest.
      change (("" ++ s)%string) with s in Hrest.
      destruct (split_from "" s) as [|w ws] eqn:E.
      * simpl in Hrest. subst s. done.
      * change (join_spaces (cur :: w :: ws))
          with (cur ++ String " " (join_spaces (w :: ws)))%string.
        by rewrite Hrest.
Qed.

Lemma clean_line_join_split (s : string) :
  clean_line s = true -> join_spaces (str_split s) = s.
Proof.
  unfold clean_line, str_split.
  destruct (String.eqb_spec s "") as [->|_]; [done|]. simpl. intros H.
  by rewrite (split_from_spaced false ""%string s H).
Qed.

(** A cleaned line is left alone by each step of the cleaning. *)
Lemma sub_nonletters_spaced (a b : bool) (s : string) :
  spaced is_lower a s = true -> (b = true -> a = false) ->
  sub_nonletters b s = s.
Proof.
  revert a b. induction s as [|c s IH]; intros a b; simpl; [done|].
  destruct (is_lower c) eqn:Hc.
  - intros H _. rewrite (lower_is_letter c Hc). f_equal. by apply (IH true).
  - intros [[->%Ascii.eqb_eq ->]%andb_prop H]%andb_prop Hb.
    change (is_letter " ") with false. cbn iota.
    destruct b; [by specialize (Hb eq_refl)|]. f_equal. by apply (IH false).
Qed.

Lemma rstrip_spaced (a : bool) (s : string) :
  spaced is_lower a s = true -> rstrip s = s.
Proof.
  revert a. induction s as [|c s IH]; intros a; simpl; [done|].
  destruct (is_lower c) eqn:Hc.
  - intros H. rewrite (letter_not_space c (lower_is_letter c Hc)). simpl.
    f_equal. by apply (IH true).
  - intros [[->%Ascii.eqb_eq ->]%andb_prop H]%andb_prop.
    rewrite (IH false H). change (is_space " ") with true.
    destruct s; [done|]. done.
Qed.

Lemma lower_spaced_fixed (a : bool) (s : string) :
  spaced is_lower a s = true -> lower s = s.
Proof.
  revert a. induction s as [|c s IH]; intros a; simpl; [done|].
  destruct (is_lower c) eqn:Hc.
  - intros H. rewrite (lower_char_fixed c Hc). f_equal. by apply (IH true).
  - intros [[->%Ascii.eqb_eq ->]%andb_prop H]%andb_prop.
    f_equal. by apply (IH false).
Qed.

Lemma clean_line_fixed (s : string) :
  clean_line s = true -> lower (strip (sub_nonletters false s)) = s.
Proof.
  unfold clean_line. destruct (String.eqb_spec s "") as [->|_]; [done|].
  simpl. intros H.
  rewrite (sub_nonletters_spaced false false s H) by done.
  unfold strip. assert (lstrip s = s) as ->.
  { destruct s as [|c s]; [done|]. simpl in *.
    destruct (is_lower c) eqn:Hc; [|by rewrite andb_false_r in H].
    by rewrite (letter_not_space c (lower_is_letter c Hc)). }
  rewrite (rstrip_spaced false s H). by apply (lower_spaced_fixed false).
Qed.

(** X6. Every line [read_time_machine] returns is empty or made of words of
    lower-case letters a-z with single spaces between them; joining its
    words with single spaces gives the line back; cleaning the cleaned
    lines again changes nothing. *)
Theorem read_time_machine_clean (file_lines : list string) :
  let lines := read_time_machine file_lines in
  length lines = length file_lines
  /\ forallb clean_line lines = true
  /\ map (fun line => join_spaces (str_split line)) lines = lines
  /\ read_time_machine lines = lines.
Proof.
  cbv zeta. unfold read_time_machine. split; [by rewrite length_map|].
  assert (Forall (fun l => clean_line l = true)
    (map (fun line => lower (strip (sub_nonletters false line))) file_lines)) as Hc.
  { apply Forall_forall. intros l (x & -> & _)%list_elem_of_fmap.
    apply read_line_clean. }
  split; [|split].
  - apply forallb_forall. rewrite Forall_forall in Hc.
    intros l Hl. apply Hc. by apply list_elem_of_In.
  - rewrite <- (map_id (map _ file_lines)) at 2. apply Forall_fmap_ext_1.
    eapply Forall_impl; [exact Hc|]. intros l. apply clean_line_join_split.
  - rewrite <- (map_id (map _ file_lines)) at 2. apply Forall_fmap_ext_1.
    eapply Forall_impl; [exact Hc|]. intros l. apply clean_line_fixed.
Qed.

Example read_time_machine_example :
  read_time_machine ["The Time Machine, by H. G. Wells [1898]"; ""; "  I  "]%string
  = ["the time machine by h g wells"; ""; "i"]%string.
Proof. reflexivity. Qed.

(** ** [load_corpus_time_machine] *)

Lemma str_list_single (line t : string) :
  t ∈ str_list line -> exists c, t = String c "".
Proof.
  induction line as [|c s IH]; simpl; [by intros ?%elem_of_nil|].
  intros [->|?]%elem_of_cons; eauto.
Qed.

Lemma occurrences_pos (t : string) (l : list string) :
  t ∈ l -> 0 < occurrences t l.
Proof.
  intros Hin. unfold occurrences.
  assert (t ∈ filter (fun x => x = t) l) as H by (by apply list_elem_of_filter).
  destruct (filter _ l); [by apply elem_of_nil in H | simpl; lia].
Qed.

Lemma take_min_length {A : Type} (n : nat) (l : list A) :
  take (n `min` length l) l = take n l.
Proof.
  destruct (Nat.le_gt_cases n (length l)).
  - by rewrite Nat.min_l.
  - rewrite Nat.min_r by lia. by rewrite !take_ge by lia.
Qed.

(** X7. The corpus holds one index per character of the cleaned lines, cut to
    [max_tokens] when that is positive; no index is the unknown index 0,
    every index is within the vocabulary, and decoding the corpus gives the
    characters back. *)
Theorem load_corpus_time_machine_decodes (file_lines : list string) (max_tokens : Z) :
  let chars := concat (map str_list (read_time_machine file_lines)) in
  let n := if bool_decide (0 < max_tokens)%Z
           then Z.to_nat max_tokens `min` length chars else length chars in
  exists corpus vocab,
    load_corpus_time_machine file_lines max_tokens = Ret (corpus, vocab)
    /\ length corpus = n
    /\ Forall (fun r => exists i, r = Idx i /\ 1 <= i < Vocab_len vocab) corpus
    /\ (ia ← as_indices (Idxs corpus); to_tokens vocab ia)
       = Ret (Tokens (take n chars)).
Proof.
  cbv zeta. unfold load_corpus_time_machine.
  change (tokenize (read_time_machine file_lines) "char").2
    with (Ret (Some (map str_list (read_time_machine file_lines)))
          : pyresult (option (list (list string)))).
  cbv beta iota zeta.
  set (toks := map str_list (read_time_machine file_lines)).
  set (chars := concat toks).
  set (v := Vocab_init (Some (Tokens2D toks)) 0 None).
  set (n := if bool_decide (0 < max_tokens)%Z
            then Z.to_nat max_tokens `min` length chars else length chars).
  assert (forall t, t ∈ chars -> t ∈ idx_to_token v /\ exists i,
    getitem v (Tok t) = Idx i /\ 1 <= i < Vocab_len v) as Hchar.
  { intros t Ht.
    assert (t ∉ "<unk>"%string :: default [] None) as Hbase.
    { intros ->%list_elem_of_singleton. subst chars toks.
      apply list_elem_of_In, in_concat in Ht as (l & Hl & Ht).
      apply list_elem_of_In in Ht.
      apply in_map_iff in Hl as (line & <- & _).
      by apply str_list_single in Ht as [c ?]. }
    assert (t ∈ idx_to_token v) as Hin.
    { apply (Vocab_init_stores (Some (Tokens2D toks)) 0 None t Hbase).
      - by apply occurrences_pos.
      - lia. }
    split; [done|].
    destruct (Vocab_init_corpus_token (Some (Tokens2D toks)) 0 None t Hbase Hin)
      as (i & Hi & Hle & _).
    destruct (getitem_decode (Some (Tokens2D toks)) 0 None t) as (i' & Hi' & Hlt & _).
    fold v in Hi, Hi', Hlt. exists i. split; [done|]. simpl in Hle.
    split; [lia|]. congruence. }
  assert ((if bool_decide (0 < max_tokens)%Z
           then py_take max_tokens (map (fun token => getitem v (Tok token)) chars)
           else map (fun token => getitem v (Tok token)) chars)
          = map (fun token => getitem v (Tok token)) (take n chars)) as ->.
  { subst n. unfold py_take. destruct (bool_decide (0 < max_tokens)%Z) eqn:E.
    - apply bool_decide_eq_true in E.
      rewrite bool_decide_eq_false_2 by lia.
      by rewrite take_min_length, <- fmap_take.
    - by rewrite firstn_all. }
  eexists _, v. split; [done|].
  assert (length (take n chars) = n) as Hlen.
  { rewrite length_take. subst n. destruct (bool_decide _); lia. }
  split; [by rewrite length_map|]. split.
  - apply Forall_forall. intros r (t & -> & Ht)%list_elem_of_fmap.
    apply Hchar. by apply (subseteq_take n chars).
  - pose proof (getitem_list_decode (Some (Tokens2D toks)) 0 None (take n chars))
      as Hdec.
    cbv zeta in Hdec. fold v in Hdec. cbn [getitem] in Hdec.
    rewrite map_map in Hdec. rewrite Hdec. do 2 f_equal.
    rewrite <- (map_id (take n chars)) at 2. apply Forall_fmap_ext_1.
    apply Forall_forall. intros t Ht.
    rewrite bool_decide_eq_true_2; [done|].
    apply Hchar. by apply (subseteq_take n chars).
Qed.

Example load_corpus_time_machine_example :
  (r ← load_corpus_time_machine ["The Time, by"; ""; "I"]%string 5;
   Ret (r.1, idx_to_token r.2))
  = Ret ([Idx 1; Idx 5; Idx 2; Idx 3; Idx 1],
         ["<unk>"; "t"; "e"; " "; "i"; "h"; "m"; "b"; "y"]%string).
Proof. reflexivity. Qed.

(** ** [kernel2matrix] *)

(** The notebook's matrix. *)
Example kernel2matrix_notebook :
  result_rows (kernel2matrix K22)
  = Ret [[F32 0; F32 1; F32 0; F32 2; F32 3; F32 0; F32 0; F32 0; F32 0];
         [F32 0; F32 0; F32 1; F32 0; F32 2; F32 3; F32 0; F32 0; F32 0];
         [F32 0; F32 0; F32 0; F32 0; F32 1; F32 0; F32 2; F32 3; F32 0];
         [F32 0; F32 0; F32 0; F32 0; F32 0; F32 1; F32 0; F32 2; F32 3]].
Proof. vm_compute. reflexivity. Qed.

Lemma set_slice1_inside (k v : tensor1) (a b : nat) :
  a <= b -> b <= len1 k -> len1 v = b - a ->
  exists k', set_slice1 k a (Some b) v = Ret k'
    /\ len1 k' = len1 k
    /\ forall i, at1 k' i =
         if (a <=? i) && (i <? b) then at1 v (i - a) else at1 k i.
Proof.
  intros Hab Hb Hv. unfold set_slice1, slice_range, fits. simpl.
  rewrite !Nat.min_l by lia. rewrite Hv, Nat.eqb_refl. simpl.
  eexists. split; [done|]. split; [done|]. intros i. simpl.
  replace (a + (b - a)) with b by lia.
  destruct (Nat.leb_spec a i), (Nat.ltb_spec i b); simpl; try done.
  by rewrite bidx_lt by lia.
Qed.

Lemma set_row_slice2_inside (W : tensor2) (v : tensor1) (r a b : nat) (ob : option nat) :
  r < shape0 W -> default (shape1 W) ob = b ->
  a <= b -> b <= shape1 W -> len1 v = b - a ->
  exists W', set_row_slice2 W r a ob v = Ret W'
    /\ shape0 W' = shape0 W /\ shape1 W' = shape1 W
    /\ forall i j, at2 W' i j =
         if (i =? r) && (a <=? j) && (j <? b) then at1 v (j - a) else at2 W i j.
Proof.
  intros Hr Hob Hab Hb Hv. unfold set_row_slice2, slice_range, fits.
  destruct (Nat.ltb_spec r (shape0 W)); [|lia]. rewrite Hob.
  rewrite !Nat.min_l by lia. rewrite Hv, Nat.eqb_refl. simpl.
  eexists. split; [done|]. split; [done|]. split; [done|]. intros i j. simpl.
  replace (a + (b - a)) with b by lia.
  destruct (Nat.eqb_spec i r), (Nat.leb_spec a j), (Nat.ltb_spec j b); simpl; try done.
  by rewrite bidx_lt by lia.
Qed.

(** X8. For a kernel of shape (2, 2), [kernel2matrix] returns the 4x9 matrix
    of the cross-correlation of a 3x3 input with the kernel: the row of the
    output position (i, j) holds [K[p - i, q - j]] in the column of the
    input position (p, q) when (p, q) lies in the window of (i, j), and 0.0
    in the other columns. *)
Theorem kernel2matrix_is_corr2d (K : tensor2) :
  shape0 K = 2 -> shape1 K = 2 ->
  exists W, kernel2matrix K = Ret W
    /\ shape0 W = 4 /\ shape1 W = 9
    /\ forall i j p q, i < 2 -> j < 2 -> p < 3 -> q < 3 ->
         at2 W (2 * i + j) (3 * p + q)
         = if in_window i j 2 2 p q then at2 K (p - i) (q - j) else F0.
Proof.
  intros HK0 HK1. unfold kernel2matrix, zeros1, zeros, row2.
  rewrite HK0, HK1. change (0 <? 2) with true. change (1 <? 2) with true.
  rewrite !bool_decide_eq_false_2 by lia. cbn [orb mbind pyresult_bind].
  destruct (set_slice1_inside (T1 (Z.to_nat 5) (fun _ => F0)) (T1 2 (at2 K 0)) 0 2)
    as (k1 & -> & Hl1 & Hk1); [simpl; lia..|]. cbn [mbind pyresult_bind].
  destruct (set_slice1_inside k1 (T1 2 (at2 K 1)) 3 5)
    as (k2 & -> & Hl2 & Hk2); [rewrite ?Hl1; simpl; lia..|]. cbn [mbind pyresult_bind].
  assert (len1 k2 = 5) as Hl by (rewrite Hl2, Hl1; done).
  destruct (set_row_slice2_inside (T2 (Z.to_nat 4) (Z.to_nat 9) (fun _ _ => F0))
    k2 0 0 5 (Some 5)) as (W1 & -> & H10 & H11 & HW1); [simpl; lia..|].
  cbn [mbind pyresult_bind].
  destruct (set_row_slice2_inside W1 k2 1 1 6 (Some 6))
    as (W2 & -> & H20 & H21 & HW2); [rewrite ?H10, ?H11; simpl; lia..|].
  cbn [mbind pyresult_bind].
  destruct (set_row_slice2_inside W2 k2 2 3 8 (Some 8))
    as (W3 & -> & H30 & H31 & HW3); [rewrite ?H20, ?H21, ?H10, ?H11; simpl; lia..|].
  cbn [mbind pyresult_bind].
  destruct (set_row_slice2_inside W3 k2 3 4 9 None)
    as (W4 & -> & H40 & H41 & HW4);
    [rewrite ?H30, ?H31, ?H20, ?H21, ?H10, ?H11; simpl; lia..|].
  cbn [mbind pyresult_bind].
  exists W4. split; [done|].
  split; [by rewrite H40, H30, H20, H10|]. split; [by rewrite H41, H31, H21, H11|].
  intros i j p q Hi Hj Hp Hq. rewrite HW4, HW3, HW2, HW1, !Hk2, !Hk1.
  destruct i as [|[|i]]; [| |lia]; (destruct j as [|[|j]]; [| |lia]);
    (destruct p as [|[|[|p]]]; [| | |lia]); (destruct q as [|[|[|q]]]; [| | |lia]);
    reflexivity.
Qed.

Lemma kernel2matrix_is_corr2d_witness :
  exists W, kernel2matrix K22 = Ret W
    /\ shape0 W = 4 /\ shape1 W = 9
    /\ forall i j p q, i < 2 -> j < 2 -> p < 3 -> q < 3 ->
         at2 W (2 * i + j) (3 * p + q)
         = if in_window i j 2 2 p q then at2 K22 (p - i) (q - j) else F0.
Proof. apply (kernel2matrix_is_corr2d K22); reflexivity. Defined.

(** X10. [kernel2matrix] reads two rows of the kernel: a kernel with fewer rows
    ends in IndexError, and a row that has neither 2 entries nor 1 entry (a
    single entry is broadcast) does not fit the slice of [k] and ends in
    RuntimeError. *)
Theorem kernel2matrix_rejects (K : tensor2) :
  (shape0 K < 2 -> kernel2matrix K = Raise IndexError)
  /\ (2 <= shape0 K -> shape1 K <> 2 -> shape1 K <> 1 ->
      kernel2matrix K = Raise RuntimeError).
Proof.
  unfold kernel2matrix, zeros1, zeros, row2.
  rewrite !bool_decide_eq_false_2 by lia. cbn [orb mbind pyresult_bind].
  split.
  - intros H. destruct (Nat.ltb_spec 0 (shape0 K)); [|done].
    cbn [mbind pyresult_bind]. destruct (Nat.ltb_spec 1 (shape0 K)); [lia|done].
  - intros H H2 H1. destruct (Nat.ltb_spec 0 (shape0 K)); [|lia].
    destruct (Nat.ltb_spec 1 (shape0 K)); [|lia]. cbn [mbind pyresult_bind].
    assert (set_slice1 (T1 (Z.to_nat 5) (fun _ => F0)) 0 (Some 2)
              (T1 (shape1 K) (at2 K 0)) = Raise RuntimeError) as ->; [|done].
    unfold set_slice1, slice_range, fits. simpl.
    destruct (Nat.eqb_spec (shape1 K) 2); [done|].
    destruct (Nat.eqb_spec (shape1 K) 1); [done|]. reflexivity.
Qed.

Lemma kernel2matrix_rejects_witness :
  kernel2matrix (of_rows 2 [[F32 1; F32 2]]) = Raise IndexError
  /\ kernel2matrix X33 = Raise RuntimeError.
Proof.
  split.
  - apply (proj1 (kernel2matrix_rejects (of_rows 2 [[F32 1; F32 2]]))). simpl. lia.
  - apply (proj2 (kernel2matrix_rejects X33)); simpl; lia.
Defined.

(** ** [Conv2D] *)

Lemma bdim_one_r (a : nat) : bdim a 1 = Ret a.
Proof.
  unfold bdim. destruct (Nat.eqb_spec a 1) as [->|]; [done|]. done.
Qed.

Lemma tadd_row_single (A : tensor2) (b : tensor1) :
  len1 b = 1 ->
  exists Y, tadd_row A b = Ret Y
    /\ shape0 Y = shape0 A /\ shape1 Y = shape1 A
    /\ forall i j, i < shape0 A -> j < shape1 A ->
         at2 Y i j = fadd (at2 A i j) (at1 b 0).
Proof.
  intros Hb. unfold tadd_row. rewrite bdim_one_r, Hb, bdim_one_r.
  cbn [mbind pyresult_bind]. eexists. split; [done|]. split; [done|].
  split; [done|]. intros i j Hi Hj. simpl.
  by rewrite (bidx_lt (shape0 A)), (bidx_lt (shape1 A)) by done.
Qed.

Section Conv2D_properties.
Context {fw : Framework}.

(** X13. [Conv2D.forward] is the cross-correlation with the layer's kernel
    with the single bias added to every entry: entry (i, j) is the float32
    sum of the cross-correlation entry, itself the framework's sum of the
    window's products, and the bias. *)
Theorem Conv2D_forward_adds_bias (layer : Conv2D) (x : tensor2) :
  len1 (conv_bias layer) = 1 ->
  shape0 (conv_weight layer) <= shape0 x ->
  shape1 (conv_weight layer) <= shape1 x ->
  exists Y, Conv2D_forward layer x = Ret Y
    /\ shape0 Y = shape0 x - shape0 (conv_weight layer) + 1
    /\ shape1 Y = shape1 x - shape1 (conv_weight layer) + 1
    /\ forall i j, i < shape0 Y -> j < shape1 Y ->
         at2 Y i j = fadd (tensor_sum (window_products x (conv_weight layer) i j))
                          (at1 (conv_bias layer) 0).
Proof.
  intros Hb Hh Hw. unfold Conv2D_forward.
  destruct (corr2d_general x (conv_weight layer)) as (C & -> & HC0 & HC1 & HCat);
    [lia..|].
  cbn [mbind pyresult_bind].
  destruct (tadd_row_single C (conv_bias layer) Hb) as (Y & -> & HY0 & HY1 & HYat).
  exists Y. split; [done|]. split; [lia|]. split; [lia|].
  intros i j Hi Hj. rewrite HYat by lia. by rewrite HCat by lia.
Qed.

End Conv2D_properties.

Lemma Conv2D_forward_adds_bias_witness :
  exists Y, Conv2D_forward (fw := plain) conv_2x2 X33 = Ret Y
    /\ shape0 Y = shape0 X33 - shape0 (conv_weight conv_2x2) + 1
    /\ shape1 Y = shape1 X33 - shape1 (conv_weight conv_2x2) + 1
    /\ forall i j, i < shape0 Y -> j < shape1 Y ->
         at2 Y i j = fadd (tensor_sum (Framework := plain)
                             (window_products X33 (conv_weight conv_2x2) i j))
                          (at1 (conv_bias conv_2x2) 0).
Proof. apply (Conv2D_forward_adds_bias (fw := plain) conv_2x2 X33); simpl; lia. Defined.

Example Conv2D_example :
  result_rows (Conv2D_forward (fw := plain) conv_2x2 X33)
  = Ret [[F32 29; F32 35]; [F32 47; F32 53]].
Proof. vm_compute. reflexivity. Qed.

(** ** The kernel [[1, -1]] of the conv-layer notebook *)

Lemma round_aux_shifted (s : bool) (m : positive) (e : Z) :
  is_float32 (S754_finite s m e) ->
  binary_round_aux prec32 emax32 s (Z.pos (m * 8388608)) (e + -23) loc_Exact
  = S754_finite s m e.
Proof.
  intros Hv. pose proof Hv as [Hb Hc]%valid_finite_cases.
  rewrite Pos.mul_comm.
  assert (8388608 * m = m~0~0~0~0~0~0~0~0~0~0~0~0~0~0~0~0~0~0~0~0~0~0~0)%positive
    as -> by reflexivity.
  unfold binary_round_aux, shr_fexp. cbn [Zdigits2 shr_record_of_loc digits2_pos].
  rewrite fexp32, !Pos2Z.inj_succ.
  set (d := Z.pos (digits2_pos m)) in *.
  replace (Z.max (Z.succ (Z.succ (Z.succ (Z.succ (Z.succ (Z.succ (Z.succ (Z.succ
    (Z.succ (Z.succ (Z.succ (Z.succ (Z.succ (Z.succ (Z.succ (Z.succ (Z.succ
    (Z.succ (Z.succ (Z.succ (Z.succ (Z.succ (Z.succ d))))))))))))))))))))))
    + (e + -23) - 24) (-149) - (e + -23))%Z with 23%Z by lia.
  cbn [shr SpecFloat.iter_pos shr_1 orb shr_m loc_of_shr_record round_nearest_even
       Zdigits2 shr_record_of_loc].
  rewrite fexp32. fold d.
  replace (Z.max (d + (e + -23 + 23) - 24) (-149) - (e + -23 + 23))%Z with 0%Z by lia.
  cbn [shr shr_m]. change (emax32 - prec32)%Z with 104%Z.
  rewrite (proj2 (Z.leb_le (e + -23 + 23) 104)) by lia. f_equal. lia.
Qed.

(** Multiplication by 1.0 returns the number, by -1.0 its opposite. *)
Lemma fmul_one (x : float32) : is_float32 x -> fmul x (F32 1) = x.
Proof.
  destruct x as [s|s| |s m e]; intros Hv; [by destruct s | by destruct s | done |].
  change (F32 1) with (S754_finite false 8388608 (-23)).
  unfold fmul, SFmul. rewrite xorb_false_r. by apply round_aux_shifted.
Qed.

Lemma fmul_minus_one (x : float32) :
  is_float32 x -> fmul x (F32 (-1)) = SFopp x.
Proof.
  destruct x as [s|s| |s m e]; intros Hv; [by destruct s | by destruct s | done |].
  change (F32 (-1)) with (S754_finite true 8388608 (-23)).
  unfold fmul, SFmul. rewrite xorb_true_r. cbn [SFopp].
  by apply round_aux_shifted.
Qed.

Lemma fadd_comm (x y : float32) : fadd x y = fadd y x.
Proof.
  destruct x as [sx|sx| |sx mx ex], y as [sy|sy| |sy my ey]; try done;
    try (by destruct sx, sy).
  unfold fadd, SFadd. rewrite (Z.min_comm ey ex). f_equal. apply Z.add_comm.
Qed.

(** Subtracting is adding the opposite. *)
Lemma fadd_opp (x y : float32) : fadd x (SFopp y) = fsub x y.
Proof.
  destruct x as [sx|sx| |sx mx ex], y as [sy|sy| |sy my ey]; try done;
    by destruct sx, sy.
Qed.

(** A sum of two entries is their float32 sum, up to the sign of zero. *)
Lemma sum_of_two (l : list float32) (r : float32) :
  sum_of l r ->
  (l = [] -> r = F0)
  /\ (forall x, l = [x] -> same_number r x)
  /\ (forall x y, l = [x; y] -> same_number r (fadd x y)).
Proof.
  induction 1 as [|x|l1 l2 r1 r2 H1 IH1 H2 IH2|l l' r Hp H IH].
  - done.
  - split; [done|]. split; [|done]. intros y [= <-]. by left.
  - destruct IH1 as (IH1n & IH1s & IH1t), IH2 as (IH2n & IH2s & IH2t).
    split; [|split].
    + intros [-> ->]%app_eq_nil. by rewrite IH1n, IH2n.
    + intros x Hx. by apply (sum_of_single _ _ (sum_of_app _ _ _ _ H1 H2)).
    + intros x y Hxy.
      destruct l1 as [|a [|b l1]]; simpl in Hxy.
      * subst l2. rewrite IH1n by done.
        eapply same_number_trans; [apply fadd_zero_l | by apply IH2t].
      * injection Hxy as -> ->.
        apply fadd_same_number; [by apply IH1s | by apply IH2s].
      * injection Hxy as -> -> [-> ->]%app_eq_nil.
        rewrite (IH2n eq_refl).
        eapply same_number_trans; [apply fadd_zero_r | by apply IH1t].
  - destruct IH as (IHn & IHs & IHt). split; [|split].
    + intros ->. apply IHn. by apply Permutation_nil_r in Hp.
    + intros x ->. apply IHs. by apply Permutation_singleton_r in Hp.
    + intros x y ->. apply Permutation_sym, Permutation_length_2_inv in Hp as [-> | ->].
      * by apply IHt.
      * rewrite fadd_comm. by apply IHt.
Qed.

Section edge_kernel_properties.
Context {fw : Framework}.

(** X14. Cross-correlation with the kernel [[1, -1]] takes the difference of
    horizontally adjacent entries: the result is one column narrower, every
    entry is the float32 difference X[i, j] - X[i, j+1], up to the sign of
    zero, and it is a zero where the two neighbours are the same finite
    number. *)
Theorem corr2d_edge_kernel (X : tensor2) :
  1 <= shape1 X ->
  (forall i j, i < shape0 X -> j < shape1 X -> is_float32 (at2 X i j)) ->
  exists Y, corr2d X edge_kernel = Ret Y
    /\ shape0 Y = shape0 X /\ shape1 Y = shape1 X - 1
    /\ forall i j, i < shape0 Y -> j < shape1 Y ->
         same_number (at2 Y i j) (fsub (at2 X i j) (at2 X i (j + 1)))
         /\ (is_finite (at2 X i j) = true -> at2 X i j = at2 X i (j + 1) ->
             is_zero (at2 Y i j) = true).
Proof.
  intros Hw Hvalid.
  destruct (corr2d_general X edge_kernel) as (Y & HY & H0 & H1 & Hat);
    [simpl; lia..|].
  simpl in H0, H1. exists Y. split; [done|]. split; [lia|]. split; [lia|].
  intros i j Hi Hj.
  assert (same_number (at2 Y i j) (fsub (at2 X i j) (at2 X i (j + 1)))) as E.
  { rewrite Hat by done. unfold corr2d_entry, window_products, edge_kernel.
    cbn [of_rows shape0 shape1 at2 length seq flat_map map app nth].
    rewrite !Nat.add_0_r.
    rewrite fmul_one, fmul_minus_one by (apply Hvalid; lia).
    rewrite <- fadd_opp.
    by apply (sum_of_two _ _ (tensor_sum_spec _)). }
  split; [done|]. intros Hfin Heq.
  pose proof (fsub_same_number _ _ Hfin (or_introl Heq)) as Hz.
  destruct E as [-> | [? _]]; done.
Qed.

End edge_kernel_properties.

Lemma corr2d_edge_kernel_witness :
  exists Y, corr2d (fw := plain) X33 edge_kernel = Ret Y
    /\ shape0 Y = shape0 X33 /\ shape1 Y = shape1 X33 - 1
    /\ forall i j, i < shape0 Y -> j < shape1 Y ->
         same_number (at2 Y i j) (fsub (at2 X33 i j) (at2 X33 i (j + 1)))
         /\ (is_finite (at2 X33 i j) = true -> at2 X33 i j = at2 X33 i (j + 1) ->
             is_zero (at2 Y i j) = true).
Proof.
  apply (corr2d_edge_kernel (fw := plain) X33); [simpl; lia|].
  intros i j Hi Hj. simpl in Hi, Hj.
  destruct i as [|[|[|i]]]; [| | |lia];
    (destruct j as [|[|[|j]]]; [| | |lia]); reflexivity.
Defined.

(** The notebook's image with a vertical edge: ones, then zeros. *)
Example corr2d_edge_example :
  result_rows (corr2d (fw := plain)
    (of_rows 4 [[F32 1; F32 1; F32 0; F32 0]; [F32 1; F32 1; F32 0; F32 0]]) edge_kernel)
  = Ret [[F32 0; F32 1; F32 0]; [F32 0; F32 1; F32 0]].
Proof. vm_compute. reflexivity. Qed.

(** ** [corr2d_multi_in] and [corr2d_multi_in_out] on kernels of any size *)

Section channel_theorems.
Context {fw : Framework}.

(** X15. [corr2d_multi_in] adds the cross-correlations of the channels that
    [X] and [K] both have ([zip] stops at the shorter one, so surplus
    channels go unnoticed): entry (i, j) is Python's sum, in channel order
    and starting from the integer 0, of the channels' cross-correlation
    entries.  Without a common channel the result is the integer 0 of
    Python's [sum], not a tensor. *)
Theorem corr2d_multi_in_sums_channels (X K : tensor3) :
  let c := dim3_0 X `min` dim3_0 K in
  (1 <= c -> dim3_1 K <= dim3_1 X -> dim3_2 K <= dim3_2 X ->
   exists A, corr2d_multi_in X K = Ret (PTensor A)
     /\ shape0 A = dim3_1 X - dim3_1 K + 1
     /\ shape1 A = dim3_2 X - dim3_2 K + 1
     /\ forall i j, i < shape0 A -> j < shape1 A ->
          at2 A i j = py_sum (map (fun ch => channel_entry X K ch i j) (seq 0 c)))
  /\ (c = 0 -> corr2d_multi_in X K = Ret (PInt 0)).
Proof.
  cbv zeta. split.
  - intros Hc Hh Hw.
    destruct (corr2d_multi_in_general X K) as (A & HA & H0 & H1 & Hat); [lia..|].
    exists A. split; [done|]. split; [lia|]. split; [lia|]. done.
  - intros Hc. unfold corr2d_multi_in, unbind3.
    by rewrite zip_map_seq_min, Hc.
Qed.

(** X16. [corr2d_multi_in_out] returns one channel per output channel of the
    kernel; its entry (o, i, j) is Python's sum over the common input
    channels, in channel order, of the sums of the products
    X[c, i+a, j+b] * K[o, c, a, b] over the kernel window.  A kernel without
    output channels makes [torch.stack] raise. *)
Theorem corr2d_multi_in_out_stacks (X : tensor3) (K : tensor4) :
  let c := dim3_0 X `min` dim4_1 K in
  (1 <= dim4_0 K -> 1 <= c -> dim4_2 K <= dim3_1 X -> dim4_3 K <= dim3_2 X ->
   exists Y, corr2d_multi_in_out X K = Ret Y
     /\ dim3_0 Y = dim4_0 K
     /\ dim3_1 Y = dim3_1 X - dim4_2 K + 1
     /\ dim3_2 Y = dim3_2 X - dim4_3 K + 1
     /\ forall o i j, o < dim3_0 Y -> i < dim3_1 Y -> j < dim3_2 Y ->
          at3 Y o i j =
          py_sum (map (fun ch =>
            tensor_sum (flat_map (fun a => map (fun b =>
              fmul (at3 X ch (i + a) (j + b)) (at4 K o ch a b))
              (seq 0 (dim4_3 K))) (seq 0 (dim4_2 K))))
            (seq 0 c)))
  /\ (dim4_0 K = 0 -> corr2d_multi_in_out X K = Raise RuntimeError).
Proof.
  cbv zeta. split.
  - intros Hco Hc Hh Hw.
    destruct (corr2d_multi_in_out_general X K) as (Y & HY & H0 & H1 & H2 & Hat);
      [lia..|].
    exists Y. split; [done|]. split; [done|]. split; [lia|]. split; [lia|].
    intros o i j Ho Hi Hj. by rewrite Hat by lia.
  - intros Hco. unfold corr2d_multi_in_out, unbind4. by rewrite Hco.
Qed.

End channel_theorems.

Lemma corr2d_multi_in_sums_channels_witness :
  exists A, corr2d_multi_in (fw := plain) X233 K222 = Ret (PTensor A)
    /\ shape0 A = dim3_1 X233 - dim3_1 K222 + 1
    /\ shape1 A = dim3_2 X233 - dim3_2 K222 + 1
    /\ forall i j, i < shape0 A -> j < shape1 A ->
         at2 A i j =
         py_sum (map (fun ch => channel_entry (fw := plain) X233 K222 ch i j)
                     (seq 0 (dim3_0 X233 `min` dim3_0 K222))).
Proof.
  apply (proj1 (corr2d_multi_in_sums_channels (fw := plain) X233 K222)); simpl; lia.
Defined.

(** The notebook's check of [corr2d_multi_in]. *)
Example corr2d_multi_in_notebook :
  (v ← corr2d_multi_in (fw := plain) X233 K222; T ← as_tensor v; Ret (rows T))
  = Ret [[F32 56; F32 72]; [F32 104; F32 120]].
Proof. vm_compute. reflexivity. Qed.

Lemma corr2d_multi_in_out_stacks_witness :
  exists Y, corr2d_multi_in_out (fw := plain) X233 K3222 = Ret Y
    /\ dim3_0 Y = dim4_0 K3222
    /\ dim3_1 Y = dim3_1 X233 - dim4_2 K3222 + 1
    /\ dim3_2 Y = dim3_2 X233 - dim4_3 K3222 + 1
    /\ forall o i j, o < dim3_0 Y -> i < dim3_1 Y -> j < dim3_2 Y ->
         at3 Y o i j =
         py_sum (map (fun ch =>
           tensor_sum (Framework := plain) (flat_map (fun a => map (fun b =>
             fmul (at3 X233 ch (i + a) (j + b)) (at4 K3222 o ch a b))
             (seq 0 (dim4_3 K3222))) (seq 0 (dim4_2 K3222))))
           (seq 0 (dim3_0 X233 `min` dim4_1 K3222))).
Proof.
  apply (proj1 (corr2d_multi_in_out_stacks (fw := plain) X233 K3222)); simpl; lia.
Defined.

(** The notebook's check of [corr2d_multi_in_out]. *)
Example corr2d_multi_in_out_notebook :
  (Y ← corr2d_multi_in_out (fw := plain) X233 K3222; Ret (rows3 Y))
  = Ret [[[F32 56; F32 72]; [F32 104; F32 120]];
         [[F32 76; F32 100]; [F32 148; F32 172]];
         [[F32 96; F32 128]; [F32 192; F32 224]]].
Proof. vm_compute. reflexivity. Qed.

(** ** [pool2d]: a window of one entry *)

Section pool2d_one_entry.
Context {fw : Framework}.

(** X18. With a window of one entry, [pool2d] in the modes 'max' and 'avg'
    returns a tensor with the shape and the entries of [X], for every [X],
    also one without rows or columns: the maximum of one entry is that
    entry, and its mean is the same number (the sum of one entry divided by
    1.0). *)
Theorem pool2d_single_entry_window (X : tensor2) (mode : string) :
  mode = "max"%string \/ mode = "avg"%string ->
  (forall i j, i < shape0 X -> j < shape1 X -> is_float32 (at2 X i j)) ->
  exists Y, pool2d X (1, 1) mode = Ret Y
    /\ shape0 Y = shape0 X /\ shape1 Y = shape1 X
    /\ forall i j, i < shape0 X -> j < shape1 X ->
         (mode = "max"%string -> at2 Y i j = at2 X i j)
         /\ same_number (at2 Y i j) (at2 X i j).
Proof.
  intros Hmode Hvalid.
  destruct (pool2d_general X 1 1 mode) as (Y & HY & H0 & H1 & Hat);
    [lia | lia | intros _; left; lia |].
  exists Y. split; [done|]. split; [lia|]. split; [lia|].
  intros i j Hi Hj. specialize (Hat i j ltac:(lia) ltac:(lia)).
  unfold window_mean, window in Hat. cbn [seq flat_map map app] in Hat.
  rewrite !Nat.add_0_r in Hat.
  destruct Hmode as [-> | ->]; cbn in Hat.
  - assert (at2 Y i j = at2 X i j) as ->; [|split; [done | by left]].
    destruct Hat as (_ & Hnan & Hin). cbn [existsb] in Hnan, Hin.
    rewrite orb_false_r in Hnan, Hin.
    destruct (is_nan (at2 X i j)) eqn:E.
    + rewrite Hnan by done. by destruct (at2 X i j).
    + destruct (Hin eq_refl) as [Hel _]. by apply list_elem_of_singleton in Hel.
  - split; [done|]. rewrite Hat.
    destruct (sum_of_single _ _ (tensor_sum_spec [at2 X i j])) as [_ Hs].
    specialize (Hs _ eq_refl).
    rewrite fdiv_one; [done|].
    destruct Hs as [-> | [Hz _]]; [by apply Hvalid|].
    by destruct (tensor_sum [at2 X i j]).
Qed.

End pool2d_one_entry.

Lemma pool2d_single_entry_window_witness :
  exists Y, pool2d (fw := plain) X33 (1, 1) "avg" = Ret Y
    /\ shape0 Y = shape0 X33 /\ shape1 Y = shape1 X33
    /\ forall i j, i < shape0 X33 -> j < shape1 X33 ->
         ("avg"%string = "max"%string -> at2 Y i j = at2 X33 i j)
         /\ same_number (at2 Y i j) (at2 X33 i j).
Proof.
  apply (pool2d_single_entry_window (fw := plain) X33 "avg"); [by right|].
  intros i j Hi Hj. simpl in Hi, Hj.
  destruct i as [|[|[|i]]]; [| | |lia];
    (destruct j as [|[|[|j]]]; [| | |lia]); reflexivity.
Defined.

Example pool2d_single_entry_examples :
  result_rows (pool2d (fw := plain) X33 (1, 1) "max") = Ret (rows X33)
  /\ result_rows (pool2d (fw := plain) X33 (1, 1) "avg") = Ret (rows X33)
  /\ result_rows (pool2d (fw := plain) (of_rows 0 []) (1, 1) "avg") = Ret [].
Proof. repeat split; vm_compute; reflexivity. Qed.

(** ** model-construction notebook: [MySequential] *)

Lemma odict_set_fresh {V : Type} (k : string) (v : V) (d : list (string * V)) :
  k ∉ d.*1 -> odict_set k v d = d ++ [(k, v)].
Proof.
  induction d as [|[k' v'] d IH]; intros Hk; simpl; [done|].
  simpl in Hk. apply not_elem_of_cons in Hk as [Hne Hk].
  rewrite bool_decide_eq_false_2 by done. by rewrite IH.
Qed.

Lemma MySequential_fill_spec {T : Type} (args : list (T -> pyresult T)) :
  forall idx _modules,
    (forall k, k ∈ _modules.*1 -> exists j, j < idx /\ k = pretty j) ->
    MySequential_fill idx args _modules
    = _modules ++ zip (pretty <$> seq idx (length args)) args.
Proof.
  induction args as [|module args IH]; intros idx d Hd; simpl.
  - by rewrite app_nil_r.
  - rewrite odict_set_fresh.
    + rewrite IH; [by rewrite <- app_assoc|].
      intros k Hk. rewrite fmap_app in Hk. apply elem_of_app in Hk as [Hk|Hk].
      * destruct (Hd k Hk) as (j & Hj & ->). exists j. split; [lia | done].
      * simpl in Hk. apply list_elem_of_singleton in Hk as ->.
        exists idx. split; [lia | done].
    + intros Hk. destruct (Hd _ Hk) as (j & Hj & Heq).
      apply (inj pretty) in Heq. lia.
Qed.

Lemma foldM_app {A S : Type} (body : S -> A -> pyresult S) (l1 l2 : list A) (s : S) :
  foldM body s (l1 ++ l2) = (s' ← foldM body s l1; foldM body s' l2).
Proof.
  revert s. induction l1 as [|a l1 IH]; intros s; simpl; [done|].
  destruct (body s a); simpl; [apply IH | done].
Qed.

Lemma MySequential_init_values {T : Type} (args : list (T -> pyresult T)) :
  (MySequential_init args).*2 = args.
Proof.
  unfold MySequential_init. rewrite MySequential_fill_spec.
  - simpl. apply snd_zip. rewrite length_fmap, length_seq. lia.
  - intros k Hk. simpl in Hk. by apply elem_of_nil in Hk.
Qed.

(** X21. A [MySequential] built from the blocks [args] keeps every
    block, under the keys '0', '1', ... in argument order, and its
    [forward] runs the blocks in that order: without blocks it returns its
    input, with one block it returns what the block returns, and the
    network of [args1 + args2] is the network of [args1] followed, when
    that does not raise, by the network of [args2]. *)
Theorem MySequential_forward_in_order {T : Type}
    (args1 args2 : list (T -> pyresult T)) (X : T) :
  (MySequential_init args1).*1 = pretty <$> seq 0 (length args1)
  /\ (MySequential_init args1).*2 = args1
  /\ MySequential_forward (MySequential_init []) X = Ret X
  /\ (forall block : T -> pyresult T,
        MySequential_forward (MySequential_init [block]) X = block X)
  /\ MySequential_forward (MySequential_init (args1 ++ args2)) X
     = match MySequential_forward (MySequential_init args1) X with
       | Ret X' => MySequential_forward (MySequential_init args2) X'
       | Raise e => Raise e
       end.
Proof.
  split; [|split; [|split; [|split]]].
  - unfold MySequential_init. rewrite MySequential_fill_spec.
    + simpl. apply fst_zip. rewrite length_fmap, length_seq. lia.
    + intros k Hk. simpl in Hk. by apply elem_of_nil in Hk.
  - apply MySequential_init_values.
  - reflexivity.
  - intros block. unfold MySequential_forward. rewrite MySequential_init_values.
    simpl. by destruct (block X).
  - unfold MySequential_forward. rewrite !MySequential_init_values.
    apply foldM_app.
Qed.

Example MySequential_example :
  (MySequential_init [fun n : nat => Ret (n + 1); fun n => Ret (n * 2);
                      fun n => Ret (n + 3)]).*1 = ["0"; "1"; "2"]%string
  /\ MySequential_forward
       (MySequential_init [fun n : nat => Ret (n + 1); fun n => Ret (n * 2);
                           fun n => Ret (n + 3)]) 5 = Ret 15
  /\ MySequential_forward
       (MySequential_init [fun n : nat => Ret (n + 1); fun _ => Raise TypeError;
                           fun n => Ret (n + 3)]) 5 = Raise TypeError.
Proof. repeat split; reflexivity. Qed.

(** ** similarity-analogy notebook: [TokenEmbedding] *)

Lemma load_lines_spec (float : string -> option float32) (f : list string) :
  forall toks vecs toks' vecs',
    load_lines float f toks vecs = Loaded (toks', vecs') ->
    exists parsed : list (string * list float32),
      Forall2 (fun line p => parse_line float line = Some p) f parsed
      /\ toks' = toks ++ (filter (fun p => 1 < length p.2) parsed).*1
      /\ vecs' = vecs ++ (filter (fun p => 1 < length p.2) parsed).*2.
Proof.
  induction f as [|line f IH]; intros toks vecs toks' vecs' Hrun; simpl in Hrun.
  - injection Hrun as <- <-. exists []. simpl. rewrite !app_nil_r.
    split; [constructor | done].
  - destruct (split_char " " (rstrip line)) as [|token elems] eqn:Hsplit; [done|].
    destruct (mapM float elems) as [vec|] eqn:Hfloat; [|done].
    assert (parse_line float line = Some (token, vec)) as Hparse.
    { unfold parse_line. rewrite Hsplit, Hfloat. done. }
    destruct (1 <? length vec) eqn:Hlen.
    + apply Nat.ltb_lt in Hlen.
      destruct (IH _ _ _ _ Hrun) as (parsed & Hall & -> & ->).
      exists ((token, vec) :: parsed). split; [by constructor|].
      rewrite filter_cons_True by done. simpl.
      by rewrite <- !app_assoc.
    + apply Nat.ltb_ge in Hlen.
      destruct (IH _ _ _ _ Hrun) as (parsed & Hall & -> & ->).
      exists ((token, vec) :: parsed). split; [by constructor|].
      rewrite filter_cons_False by (simpl; lia). done.
Qed.

Lemma load_lines_skips (float : string -> option float32) (f : list string) :
  Forall (fun line => exists p, parse_line float line = Some p /\ length p.2 <= 1) f ->
  forall toks vecs, load_lines float f toks vecs = Loaded (toks, vecs).
Proof.
  induction 1 as [|line f (p & Hp & Hlen) _ IH]; intros toks vecs; simpl; [done|].
  unfold parse_line in Hp.
  destruct (split_char " " (rstrip line)) as [|token elems]; [done|].
  destruct (mapM float elems) as [vec|]; [|done].
  simpl in Hp. injection Hp as <-. simpl in Hlen.
  destruct (Nat.ltb_spec 1 (length vec)); [lia | apply IH].
Qed.

Lemma enumerate_dict_absent (l : list string) (t : string) :
  t ∉ l -> forall idx d, enumerate_dict idx l d !! t = d !! t.
Proof.
  induction l as [|t0 l IH]; intros Ht idx d; simpl; [done|].
  apply not_elem_of_cons in Ht as [Hne Ht].
  rewrite (IH Ht). by rewrite lookup_insert_ne.
Qed.

Lemma enumerate_dict_last (l : list string) (t : string) :
  forall k idx d,
    l !! k = Some t -> (forall k', k < k' -> l !! k' <> Some t) ->
    enumerate_dict idx l d !! t = Some (idx + k).
Proof.
  induction l as [|t0 l IH]; intros k idx d Hk Hlast; [done|].
  destruct k as [|k]; simpl in *.
  - injection Hk as ->. rewrite enumerate_dict_absent.
    + rewrite lookup_insert_eq. f_equal. lia.
    + intros [k' Hk']%list_elem_of_lookup. apply (Hlast (S k')); [lia | done].
  - rewrite (IH k (S idx)); [f_equal; lia | done |].
    intros k' Hlt. apply (Hlast (S k')). lia.
Qed.

Lemma last_occurrence (l : list string) (t : string) :
  t ∈ l -> exists k, l !! k = Some t /\ forall k', k < k' -> l !! k' <> Some t.
Proof.
  induction l as [|t0 l IH]; intros Hin; [by apply elem_of_nil in Hin|].
  destruct (decide (t ∈ l)) as [Hl|Hl].
  - destruct (IH Hl) as (k & Hk & Hlast). exists (S k). split; [done|].
    intros [|k'] Hlt; [lia|]. simpl. apply Hlast. lia.
  - apply elem_of_cons in Hin as [->|Hin]; [|done].
    exists 0. split; [done|]. intros [|k'] Hlt; [lia|]. simpl.
    intros Hk'. apply Hl. by eapply list_elem_of_lookup_2.
Qed.

Lemma enumerate_dict_get (l : list string) (t : string) :
  exists i, default 0 (enumerate_dict 0 l ∅ !! t) = i
    /\ (t ∉ l -> i = 0)
    /\ (forall k, l !! k = Some t -> (forall k', k < k' -> l !! k' <> Some t) -> i = k)
    /\ (l <> [] -> i < length l).
Proof.
  eexists. split; [done|]. split; [|split].
  - intros Ht. by rewrite enumerate_dict_absent, lookup_empty.
  - intros k Hk Hlast. by rewrite (enumerate_dict_last l t k 0 ∅ Hk Hlast).
  - intros Hne. destruct (decide (t ∈ l)) as [Hl|Hl].
    + destruct (last_occurrence l t Hl) as (k & Hk & Hlast).
      rewrite (enumerate_dict_last l t k 0 ∅ Hk Hlast). simpl.
      by apply lookup_lt_Some in Hk.
    + rewrite enumerate_dict_absent, lookup_empty by done. simpl.
      destruct l; [done | simpl; lia].
Qed.

Lemma nth_replicate_same {A : Type} (n j : nat) (x : A) : nth j (replicate n x) x = x.
Proof.
  revert j. induction n as [|n IH]; intros [|j]; simpl; done.
Qed.

(** What a successful load holds. *)
Lemma _load_embedding_spec (float : string -> option float32) (f : list string)
    (toks : list string) (vec : tensor2) :
  _load_embedding float f = Loaded (toks, vec) ->
  exists parsed : list (string * list float32),
    Forall2 (fun line p => parse_line float line = Some p) f parsed
    /\ let kept := filter (fun p => 1 < length p.2) parsed in
       kept <> []
       /\ toks = "<unk>"%string :: kept.*1
       /\ shape0 vec = S (length kept)
       /\ (forall j, at2 vec 0 j = F0)
       /\ forall i p, kept !! i = Some p ->
            length p.2 = shape1 vec
            /\ forall j, at2 vec (S i) j = nth j p.2 F0.
Proof.
  unfold _load_embedding.
  destruct (load_lines float f ["<unk>"%string] []) as [[toks' vecs']|e] eqn:Hrun; [|done].
  destruct (load_lines_spec _ _ _ _ _ _ Hrun) as (parsed & Hparsed & -> & ->).
  simpl. set (kept := filter (fun p => 1 < length p.2) parsed).
  destruct (kept.*2) as [|v0 vs] eqn:Hvecs; [done|].
  unfold tensor_of_rows. cbn [nth].
  rewrite length_replicate.
  destruct (forallb _ _) eqn:Hrect; [|done].
  intros [= <- <-]. exists parsed. split; [done|]. fold kept. cbv zeta.
  split; [by destruct kept|]. split; [done|]. split.
  { change (S (length (v0 :: vs)) = S (length kept)).
    by rewrite <- Hvecs, length_fmap. }
  split.
  { intros j. simpl. apply nth_replicate_same. }
  intros i p Hp. rewrite forallb_forall in Hrect.
  assert ((v0 :: vs) !! i = Some p.2) as Hrow.
  { rewrite <- Hvecs. by rewrite list_lookup_fmap, Hp. }
  split.
  - simpl. apply Nat.eqb_eq. apply Hrect. right.
    apply list_elem_of_In. by eapply list_elem_of_lookup_2.
  - intros j. change (nth j (nth i (v0 :: vs) []) F0 = nth j p.2 F0).
    f_equal. by apply nth_lookup_Some.
Qed.

Lemma TokenEmbedding_init_fields (float : string -> option float32) (f : list string)
    (embed : TokenEmbedding) :
  TokenEmbedding_init float f = Loaded embed ->
  _load_embedding float f = Loaded (emb_idx_to_token embed, emb_idx_to_vec embed)
  /\ unknown_idx embed = 0
  /\ emb_token_to_idx embed = enumerate_dict 0 (emb_idx_to_token embed) ∅.
Proof.
  unfold TokenEmbedding_init.
  destruct (_load_embedding float f) as [[toks vec]|e]; [|done].
  by intros [= <-].
Qed.

(** X23. A [TokenEmbedding] that loads holds, after '<unk>' and its vector of
    zeros, the lines of the file that have at least two numbers, in the
    order of the file and with their numbers; lines with fewer numbers,
    such as a header, are left out, and there are as many tokens as
    vectors. *)
Theorem TokenEmbedding_holds_lines (float : string -> option float32) (f : list string)
    (embed : TokenEmbedding) :
  TokenEmbedding_init float f = Loaded embed ->
  exists parsed : list (string * list float32),
    Forall2 (fun line p => parse_line float line = Some p) f parsed
    /\ let kept := filter (fun p => 1 < length p.2) parsed in
       kept <> []
       /\ emb_idx_to_token embed = "<unk>"%string :: kept.*1
       /\ TokenEmbedding_len embed = shape0 (emb_idx_to_vec embed)
       /\ (forall j, at2 (emb_idx_to_vec embed) 0 j = F0)
       /\ forall i p, kept !! i = Some p ->
            length p.2 = shape1 (emb_idx_to_vec embed)
            /\ forall j, at2 (emb_idx_to_vec embed) (S i) j = nth j p.2 F0.
Proof.
  intros Hinit. destruct (TokenEmbedding_init_fields _ _ _ Hinit) as (Hload & _ & _).
  destruct (_load_embedding_spec _ _ _ _ Hload)
    as (parsed & Hparsed & Hne & Htoks & Hshape & Hzero & Hrows).
  exists parsed. split; [done|]. cbv zeta. split; [done|]. split; [done|].
  split; [|done].
  unfold TokenEmbedding_len. rewrite Htoks, Hshape. simpl. by rewrite length_fmap.
Qed.

(** X24. Looking tokens up in a loaded [TokenEmbedding] never fails for a list
    that is not empty: a token the embedding does not hold gets the vector
    of zeros, a token it holds gets the vector of its last line.  The empty
    list raises [IndexError]. *)
Theorem TokenEmbedding_getitem_rows (float : string -> option float32) (f : list string)
    (embed : TokenEmbedding) (tokens : list string) :
  TokenEmbedding_init float f = Loaded embed ->
  (tokens = [] -> TokenEmbedding_getitem embed tokens = Raise IndexError)
  /\ (tokens <> [] ->
      exists Y, TokenEmbedding_getitem embed tokens = Ret Y
        /\ shape0 Y = length tokens
        /\ shape1 Y = shape1 (emb_idx_to_vec embed)
        /\ forall a token, tokens !! a = Some token ->
             (token ∉ emb_idx_to_token embed -> forall j, at2 Y a j = F0)
             /\ (forall i, emb_idx_to_token embed !! i = Some token ->
                   (forall i', i < i' -> emb_idx_to_token embed !! i' <> Some token) ->
                   forall j, at2 Y a j = at2 (emb_idx_to_vec embed) i j)).
Proof.
  intros Hinit. split; [by intros ->|]. intros Hne.
  destruct (TokenEmbedding_init_fields _ _ _ Hinit) as (Hload & Hunk & Hdict).
  destruct (_load_embedding_spec _ _ _ _ Hload)
    as (parsed & Hparsed & Hkept & Htoks & Hshape & Hzero & Hrows).
  cbv zeta in Hkept, Htoks, Hshape.
  set (indices := map (fun token => default (unknown_idx embed)
                                      (emb_token_to_idx embed !! token)) tokens).
  assert (Hlen : shape0 (emb_idx_to_vec embed) = length (emb_idx_to_token embed)).
  { rewrite Htoks, Hshape. simpl. by rewrite length_fmap. }
  assert (Hidx : forall token,
             default (unknown_idx embed) (emb_token_to_idx embed !! token)
             < shape0 (emb_idx_to_vec embed)).
  { intros token. rewrite Hunk, Hdict, Hlen.
    destruct (enumerate_dict_get (emb_idx_to_token embed) token) as (i & -> & _ & _ & Hlt).
    apply Hlt. by rewrite Htoks. }
  assert (Hrun : TokenEmbedding_getitem embed tokens
                 = Ret (T2 (length indices) (shape1 (emb_idx_to_vec embed))
                          (fun a j => at2 (emb_idx_to_vec embed) (nth a indices 0) j))).
  { unfold TokenEmbedding_getitem, index_rows. fold indices.
    assert (forallb (fun i => i <? shape0 (emb_idx_to_vec embed)) indices = true) as ->.
    { apply forallb_forall. intros i Hi. apply Nat.ltb_lt.
      unfold indices in Hi. apply in_map_iff in Hi as (token & <- & _). apply Hidx. }
    unfold indices. by destruct tokens. }
  eexists. split; [exact Hrun|]. split; [apply length_map|]. split; [done|].
  intros a token Ha. cbn [at2].
  assert (nth a indices 0
          = default (unknown_idx embed) (emb_token_to_idx embed !! token)) as ->.
  { apply nth_lookup_Some. unfold indices. by rewrite list_lookup_fmap, Ha. }
  rewrite Hunk, Hdict.
  destruct (enumerate_dict_get (emb_idx_to_token embed) token)
    as (i & -> & Habsent & Hlast & _).
  split.
  - intros Hnot j. by rewrite (Habsent Hnot).
  - intros k Hk Hlastk j. by rewrite (Hlast k Hk Hlastk).
Qed.

(** X25. A file in which no line has two numbers cannot be loaded: no vector is
    kept and [idx_to_vec[0]] raises [IndexError].  So an embedding of
    dimension 1 is refused. *)
Theorem TokenEmbedding_needs_two_numbers (float : string -> option float32)
    (f : list string) :
  Forall (fun line => exists p, parse_line float line = Some p /\ length p.2 <= 1) f ->
  TokenEmbedding_init float f = LoadRaise Load_IndexError.
Proof.
  intros Hf. unfold TokenEmbedding_init, _load_embedding.
  by rewrite (load_lines_skips float f Hf).
Qed.

Lemma TokenEmbedding_holds_lines_witness :
  exists embed, TokenEmbedding_init float_of_digits vec_txt = Loaded embed
    /\ exists parsed : list (string * list float32),
      Forall2 (fun line p => parse_line float_of_digits line = Some p) vec_txt parsed
      /\ let kept := filter (fun p => 1 < length p.2) parsed in
         kept <> []
         /\ emb_idx_to_token embed = "<unk>"%string :: kept.*1
         /\ TokenEmbedding_len embed = shape0 (emb_idx_to_vec embed)
         /\ (forall j, at2 (emb_idx_to_vec embed) 0 j = F0)
         /\ forall i p, kept !! i = Some p ->
              length p.2 = shape1 (emb_idx_to_vec embed)
              /\ forall j, at2 (emb_idx_to_vec embed) (S i) j = nth j p.2 F0.
Proof.
  eexists. split; [reflexivity|].
  apply (TokenEmbedding_holds_lines float_of_digits vec_txt). reflexivity.
Defined.

Lemma TokenEmbedding_getitem_rows_witness :
  exists embed, TokenEmbedding_init float_of_digits vec_txt = Loaded embed
    /\ (["the"; "dog"]%string = [] ->
        TokenEmbedding_getitem embed ["the"; "dog"]%string = Raise IndexError)
    /\ (["the"; "dog"]%string <> [] ->
        exists Y, TokenEmbedding_getitem embed ["the"; "dog"]%string = Ret Y
          /\ shape0 Y = 2
          /\ shape1 Y = shape1 (emb_idx_to_vec embed)
          /\ forall a token, ["the"; "dog"]%string !! a = Some token ->
               (token ∉ emb_idx_to_token embed -> forall j, at2 Y a j = F0)
               /\ (forall i, emb_idx_to_token embed !! i = Some token ->
                     (forall i', i < i' -> emb_idx_to_token embed !! i' <> Some token) ->
                     forall j, at2 Y a j = at2 (emb_idx_to_vec embed) i j)).
Proof.
  eexists. split; [reflexivity|].
  apply (TokenEmbedding_getitem_rows float_of_digits vec_txt). reflexivity.
Defined.

Lemma TokenEmbedding_needs_two_numbers_witness :
  Forall (fun line => exists p, parse_line float_of_digits line = Some p
                                /\ length p.2 <= 1) vec_txt_dim1
  /\ TokenEmbedding_init float_of_digits vec_txt_dim1 = LoadRaise Load_IndexError.
Proof.
  assert (Forall (fun line => exists p, parse_line float_of_digits line = Some p
                                        /\ length p.2 <= 1) vec_txt_dim1) as H.
  { repeat constructor; eexists; (split; [reflexivity | simpl; lia]). }
  split; [exact H|].
  apply (TokenEmbedding_needs_two_numbers float_of_digits vec_txt_dim1 H).
Defined.

(** The notebook's lookups on the small file: 'the' gets the vector of its
    last line, an unknown token the zeros. *)
Example TokenEmbedding_example :
  match TokenEmbedding_init float_of_digits vec_txt with
  | Loaded embed =>
      emb_idx_to_token embed = ["<unk>"; "the"; "cat"; "the"]%string
      /\ TokenEmbedding_len embed = 4
      /\ match TokenEmbedding_getitem embed ["the"; "dog"; "cat"]%string with
         | Ret Y => rows Y
                    = [[F32 5; F32 6]; [F32 0; F32 0]; [F32 3; F32 4]]
         | Raise _ => False
         end
  | LoadRaise _ => False
  end.
Proof. vm_compute. repeat split. Qed.
